(** * gitingest-ts: a shallow embedding of the traversal and digest engine

    The development follows the TypeScript sources:
    - [utils.ts]           ([fnmatch])
    - [confg.ts]           (the fixed limits)
    - [query_parser.ts]    ([parseQuery], [validatePattern])
    - [query_ingestion.ts] (the tree walker and the content renderer)
    - [types.ts], [exceptions.ts] (records and error classes)

    JavaScript strings are modelled as [string] (code units below 256),
    numbers that hold sizes, counts and depths as [Z], [Set<string>] used
    only through [has]/[add] as [gset string], and [Set<string>] that is
    iterated as a duplicate-free list in insertion order.  The walker is
    written in a state-and-exception monad over the shared [stats],
    [seenPaths] and the console; the filesystem, the [path] module,
    [localeCompare] and the notebook extractor form the [Runtime] it is
    parameterised by.

    Main results:
    - [UtilsFacts.fnmatch_glob]: [fnmatch] decides glob matching in which
      a wildcard stands for characters other than line terminators;
    - [QueryParserFacts.validatePattern_accepts],
      [QueryParserFacts.parseQuery_rejects]: what [parseQuery] turns down;
    - [OrderFacts.sortChildren_sorted]: the order of a directory's children;
    - [WalkerFacts.scanDirectory_converges], [WalkerFacts.scanDirectory_fuel]:
      every walk ends, within [maxDirectoryDepth + 2] nested calls;
    - [WalkerFacts.totalFiles_bounded],
      [WalkerFacts.ingestRepository_never_throws_limit]: the file count
      never passes the maximum, and neither limit error reaches the
      caller of [ingestRepository];
    - [RenderFacts.content_digest]: the shape of the [content] string;
    - module [Claims]: the statements C1 to C10;
    - the modules after [Claims]: further properties of the same code
      and of [createTreeStructure], [ingestFile], [formatSize], from
      [repository_ingest.ts] [calculateDirectorySize] and
      [ingestLocalRepository], and from [notebook_utils.ts]
      [processNotebook]: what the filters decide, what [parseQuery]
      accepts, the bounds on the counters, the ways a run can end, the
      shape and the provenance of the returned tree, the walk of a
      directory tree without symlinks, and the text of a notebook. *)

From Stdlib Require Import ZArith List String Ascii Bool Lia.
From Stdlib Require Import DecimalString Sorting.Sorted Sorting.Permutation.
From stdpp Require Import gmap strings list.
Import ListNotations.
Open Scope string_scope.
Open Scope list_scope.
Open Scope Z_scope.

(* ===================================================================== *)
(** ** JavaScript built-ins used by the sources *)
(* ===================================================================== *)

Module JS.

(** Outcome of a call: a value, a thrown exception, or (for the fuelled
    walker only) exhaustion of the recursion budget. *)
Inductive Outcome (E A : Type) : Type :=
| Return (a : A)
| Throw (e : E)
| Diverge.
Arguments Return {E A} a.
Arguments Throw {E A} e.
Arguments Diverge {E A}.

(** [String.prototype.startsWith]. *)
Fixpoint startsWith (s prefix : string) : bool :=
  match prefix, s with
  | EmptyString, _ => true
  | String p prefix', String c s' => Ascii.eqb c p && startsWith s' prefix'
  | String _ _, EmptyString => false
  end.

(** [String.prototype.endsWith]. *)
Definition endsWith (s suffix : string) : bool :=
  let n := String.length s in
  let m := String.length suffix in
  (m <=? n)%nat && String.eqb (substring (n - m) m s) suffix.

(** [String.prototype.toLowerCase] on code units below 256: the letters
    A..Z, and the Latin-1 capitals U+00C0..U+00DE other than the
    multiplication sign U+00D7, are moved 32 code units up. *)
Definition lower_ascii (c : ascii) : ascii :=
  let n := nat_of_ascii c in
  if ((65 <=? n) && (n <=? 90))%nat ||
     ((192 <=? n) && (n <=? 222) && negb (n =? 215))%nat
  then ascii_of_nat (n + 32) else c.

Fixpoint toLowerCase (s : string) : string :=
  match s with
  | EmptyString => EmptyString
  | String c r => String (lower_ascii c) (toLowerCase r)
  end.

(** [String.prototype.repeat]. *)
Fixpoint repeat (s : string) (n : nat) : string :=
  match n with
  | O => EmptyString
  | S k => s +:+ repeat s k
  end.

(** [Array.prototype.join]. *)
Fixpoint join (sep : string) (l : list string) : string :=
  match l with
  | [] => EmptyString
  | [x] => x
  | x :: r => x +:+ sep +:+ join sep r
  end.

(** [Array.prototype.sort(compareFn)].  ECMAScript requires the sort to be
    stable and fixes its result whenever [compareFn] orders the elements
    consistently; the model is the stable insertion sort, an element
    being placed before the first one it does not exceed.  Where
    [compareFn] ranks two elements each before the other, the order the
    engine leaves them in is its own and need not be the one of the
    model: of such elements only what holds of every arrangement the
    comparator allows is stated, and a statement that depends on their
    order carries the hypothesis that there are none. *)
Fixpoint insert_by {A} (cmp : A -> A -> Z) (x : A) (l : list A) : list A :=
  match l with
  | [] => [x]
  | y :: r => if cmp x y <=? 0 then x :: y :: r else y :: insert_by cmp x r
  end.

Definition sort {A} (cmp : A -> A -> Z) (l : list A) : list A :=
  fold_right (insert_by cmp) [] l.

(** [compareFn(a, b) <= 0]: [a] is to stand before, or level with, [b]. *)
Definition before {A} (cmp : A -> A -> Z) (a b : A) : Prop := cmp a b <= 0.

(** The one-character string written ['\n'] in the sources. *)
Definition LF : string := String "010" EmptyString.

(** A [Set<string>] that is iterated: insertion order, no duplicates. *)
Definition OrderedSet := list string.

Definition Set_has (s : OrderedSet) (x : string) : bool :=
  existsb (String.eqb x) s.

Definition Set_add (s : OrderedSet) (x : string) : OrderedSet :=
  if Set_has s x then s else s ++ [x].

(** [new Set(iterable)]. *)
Definition Set_from (l : list string) : OrderedSet :=
  fold_left Set_add l [].

End JS.
Export JS.

(* ===================================================================== *)
(** ** The fragment of ECMAScript regular expressions the sources use *)
(* ===================================================================== *)

Module RegExp.

(** An atom consumes exactly one code unit. *)
Inductive atom : Type :=
| AChar (c : ascii)            (* a pattern character or [\c] *)
| AAny                         (* [.] without the [s] flag *)
| AClass (f : ascii -> bool).  (* a character class *)

Inductive term : Type :=
| TStart                       (* [^] without the [m] flag *)
| TEnd                         (* [$] without the [m] flag *)
| TAtom (a : atom)
| TStar (a : atom)             (* [a*] *)
| TPlus (a : atom).            (* [a+] *)

Definition regex := list term.

(** LineTerminator code units below 256: LF and CR. *)
Definition isLineTerminator (c : ascii) : bool :=
  Ascii.eqb c "010" || Ascii.eqb c "013".

Definition atom_matches (a : atom) (c : ascii) : bool :=
  match a with
  | AChar d => Ascii.eqb c d
  | AAny => negb (isLineTerminator c)
  | AClass f => f c
  end.

(** Greedy repetition of an atom followed by the continuation [k]. *)
Fixpoint star (a : atom) (k : bool -> list ascii -> bool)
         (at0 : bool) (s : list ascii) : bool :=
  match s with
  | c :: s' => (atom_matches a c && star a k false s') || k at0 s
  | [] => k at0 s
  end.

(** Backtracking match of a term sequence against a suffix of the
    input; [at0] tells whether the suffix is the whole input. *)
Fixpoint match_terms (r : regex) (at0 : bool) (s : list ascii) : bool :=
  match r with
  | [] => true
  | TStart :: r' => at0 && match_terms r' at0 s
  | TEnd :: r' =>
      match s with [] => match_terms r' at0 s | _ :: _ => false end
  | TAtom a :: r' =>
      match s with
      | c :: s' => atom_matches a c && match_terms r' false s'
      | [] => false
      end
  | TStar a :: r' => star a (match_terms r') at0 s
  | TPlus a :: r' =>
      match s with
      | c :: s' => atom_matches a c && star a (match_terms r') false s'
      | [] => false
      end
  end.

(** [RegExp.prototype.test] for a regex without the [g] and [y] flags:
    a match is looked for at every start index. *)
Fixpoint search (r : regex) (at0 : bool) (s : list ascii) : bool :=
  match_terms r at0 s ||
  match s with
  | _ :: s' => search r false s'
  | [] => false
  end.

Definition test (r : regex) (s : string) : bool :=
  search r true (list_ascii_of_string s).

(** SyntaxCharacter of the ECMAScript grammar. *)
Definition isSyntaxCharacter (c : ascii) : bool :=
  existsb (Ascii.eqb c) (list_ascii_of_string "^$\.*+?()[]{}|").

(** [new RegExp(source)] for sources made of assertions, [.], escaped
    syntax characters and plain pattern characters, each atom optionally
    followed by [*] or [+].  Any other construct (groups, classes,
    alternation, [?], braces, other escapes) is outside the fragment and
    yields [None]. *)
Inductive token : Type :=
| KStart | KEnd | KAtom (a : atom) | KStar | KPlus.

Fixpoint lex (src : list ascii) : option (list token) :=
  match src with
  | [] => Some []
  | c :: rest =>
      if Ascii.eqb c "\" then
        match rest with
        | e :: rest' =>
            if isSyntaxCharacter e
            then cons (KAtom (AChar e)) <$> lex rest'
            else None
        | [] => None
        end
      else if Ascii.eqb c "^" then cons KStart <$> lex rest
      else if Ascii.eqb c "$" then cons KEnd <$> lex rest
      else if Ascii.eqb c "." then cons (KAtom AAny) <$> lex rest
      else if Ascii.eqb c "*" then cons KStar <$> lex rest
      else if Ascii.eqb c "+" then cons KPlus <$> lex rest
      else if isSyntaxCharacter c then None
      else cons (KAtom (AChar c)) <$> lex rest
  end.

Fixpoint build (ts : list token) : option regex :=
  match ts with
  | [] => Some []
  | KStart :: r => cons TStart <$> build r
  | KEnd :: r => cons TEnd <$> build r
  | KAtom a :: KStar :: r => cons (TStar a) <$> build r
  | KAtom a :: KPlus :: r => cons (TPlus a) <$> build r
  | KAtom a :: r => cons (TAtom a) <$> build r
  | KStar :: _ => None
  | KPlus :: _ => None
  end.

Definition parse (src : string) : option regex :=
  lex (list_ascii_of_string src) ≫= build.

(** No [^] assertion occurs in a regex. *)
Fixpoint noStart (r : regex) : bool :=
  match r with
  | [] => true
  | TStart :: _ => false
  | _ :: r' => noStart r'
  end.

(** A token list that does not begin with a quantifier. *)
Definition atomFirst (ts : list token) : Prop :=
  match ts with
  | KStar :: _ | KPlus :: _ => False
  | _ => True
  end.

End RegExp.

(* ===================================================================== *)
(** ** utils.ts *)
(* ===================================================================== *)

Module Utils.
Import RegExp.

(** The class [[.+^${}()|[\]\\]] of the first [replace]. *)
Definition isEscaped (c : ascii) : bool :=
  existsb (Ascii.eqb c) (list_ascii_of_string ".+^${}()|[]\").

(** [.replace(/[.+^${}()|[\]\\]/g, '\\$&')] *)
Fixpoint escapeSpecial (s : string) : string :=
  match s with
  | EmptyString => EmptyString
  | String c r =>
      if isEscaped c then String "\" (String c (escapeSpecial r))
      else String c (escapeSpecial r)
  end.

(** [.replace(/\*/g, '.*')] *)
Fixpoint replaceStar (s : string) : string :=
  match s with
  | EmptyString => EmptyString
  | String c r =>
      if Ascii.eqb c "*" then String "." (String "*" (replaceStar r))
      else String c (replaceStar r)
  end.

(** [.replace(/\?/g, '.')] *)
Fixpoint replaceQuestion (s : string) : string :=
  match s with
  | EmptyString => EmptyString
  | String c r =>
      if Ascii.eqb c "?" then String "." (replaceQuestion r)
      else String c (replaceQuestion r)
  end.

Definition regexPattern (pattern : string) : string :=
  replaceQuestion (replaceStar (escapeSpecial pattern)).

(** [fnmatch(name, pattern)].  [new RegExp] throws a SyntaxError on a
    malformed source; [fnmatch_source_parses] shows that the source
    built here is never malformed, so the [None] branch is dead. *)
Definition fnmatch (name pattern : string) : bool :=
  match parse ("^" +:+ regexPattern pattern +:+ "$") with
  | Some regex => test regex name
  | None => false
  end.

(** *** The regex [fnmatch] builds, one pattern character at a time *)

(** The image of one pattern character under the three [replace]s. *)
Definition image (c : ascii) : list ascii :=
  if isEscaped c then ["\"%char; c]
  else if Ascii.eqb c "*" then ["."%char; "*"%char]
  else if Ascii.eqb c "?" then ["."%char]
  else [c].

Definition tokens (c : ascii) : list token :=
  if Ascii.eqb c "*" then [KAtom AAny; KStar]
  else if Ascii.eqb c "?" then [KAtom AAny]
  else [KAtom (AChar c)].

Definition termOf (c : ascii) : term :=
  if Ascii.eqb c "*" then TStar AAny
  else if Ascii.eqb c "?" then TAtom AAny
  else TAtom (AChar c).

End Utils.

(* ===================================================================== *)
(** ** confg.ts, exceptions.ts, types.ts *)
(* ===================================================================== *)

Module Config.
Definition MAX_FILE_SIZE : Z := 10 * 1024 * 1024.
Definition MAX_DIRECTORY_DEPTH : Z := 20.
Definition MAX_FILES : Z := 10000.
Definition MAX_TOTAL_SIZE_BYTES : Z := 500 * 1024 * 1024.
End Config.
Export Config.

(** The error classes of [exceptions.ts], the generic [Error] the sources
    throw with a message, and the rejection of a filesystem promise. *)
Inductive Exn : Type :=
| InvalidPatternError (pattern : string)
| MaxFilesReachedError (max_files : Z)
| MaxFileSizeReachedError (max_size : Z)
| AlreadyVisitedError (path : string)
| InvalidNotebookError (path : string)
| Error (message : string)
| FsError (path : string).

Record ParsedQuery : Type := mkQuery {
  repository : string;
  ignorePatterns : OrderedSet;
  includePatterns : OrderedSet;
  maxFiles : Z;
  maxTotalSizeBytes : Z;
  maxDirectoryDepth : Z
}.

(** [FileNode]: [children] and [content] are optional fields.  The
    induction principle for the nested type is [FileNode_tree_ind] below. *)
#[local] Unset Elimination Schemes.
Inductive FileNode : Type := mkNode {
  name : string;
  path : string;
  size : Z;
  content : option string;
  isDirectory : bool;
  children : option (list FileNode)
}.
#[local] Set Elimination Schemes.

Record FileStats : Type := mkStats {
  totalFiles : Z;
  totalSize : Z
}.

(* ===================================================================== *)
(** ** query_parser.ts *)
(* ===================================================================== *)

Module QueryParser.
Import RegExp.

(** The class [[a-zA-Z0-9\-_./+*]]. *)
Definition validChar (c : ascii) : bool :=
  let n := nat_of_ascii c in
  ((97 <=? n) && (n <=? 122))%nat || ((65 <=? n) && (n <=? 90))%nat ||
  ((48 <=? n) && (n <=? 57))%nat ||
  existsb (Ascii.eqb c) (list_ascii_of_string "-_./+*").

(** The literal [/^[a-zA-Z0-9\-_./+*]+$/]. *)
Definition validPattern : regex := [TStart; TPlus (AClass validChar); TEnd].

Definition validatePattern (pattern : string) : Outcome Exn unit :=
  if negb (test validPattern pattern)
  then Throw (InvalidPatternError pattern)
  else Return tt.

(** One [for (const pattern of patterns)] loop of [parseQuery]: each
    pattern is validated, then added to the set under construction. *)
Fixpoint addPatterns (patterns : list string) (final : OrderedSet)
  : Outcome Exn OrderedSet :=
  match patterns with
  | [] => Return final
  | pattern :: rest =>
      match validatePattern pattern with
      | Return _ => addPatterns rest (Set_add final pattern)
      | Throw e => Throw e
      | Diverge => Diverge
      end
  end.

Section ParseQuery.
(** [ignore_patterns.ts] is not part of the sources at hand: the
    default deny-list is a parameter. *)
Variable DEFAULT_IGNORE_PATTERNS : list string.

(** An absent optional argument ([undefined]) is [None]. *)
Definition parseQuery (repository : string)
           (ignorePatterns includePatterns : option (list string))
  : Outcome Exn ParsedQuery :=
  if String.eqb repository "" then
    Throw (Error "Repository path cannot be empty")
  else
    let finalIgnorePatterns := Set_from DEFAULT_IGNORE_PATTERNS in
    let finalIncludePatterns := Set_from [] in
    match
      match ignorePatterns with
      | Some patterns => addPatterns patterns finalIgnorePatterns
      | None => Return finalIgnorePatterns
      end
    with
    | Return finalIgnorePatterns =>
        match
          match includePatterns with
          | Some patterns => addPatterns patterns finalIncludePatterns
          | None => Return finalIncludePatterns
          end
        with
        | Return finalIncludePatterns =>
            Return {| repository := repository;
                      ignorePatterns := finalIgnorePatterns;
                      includePatterns := finalIncludePatterns;
                      maxFiles := MAX_FILES;
                      maxTotalSizeBytes := MAX_TOTAL_SIZE_BYTES;
                      maxDirectoryDepth := MAX_DIRECTORY_DEPTH |}
        | Throw e => Throw e
        | Diverge => Diverge
        end
    | Throw e => Throw e
    | Diverge => Diverge
    end.
End ParseQuery.

End QueryParser.

(* ===================================================================== *)
(** ** The Node.js runtime the walker runs against *)
(* ===================================================================== *)

Module Node.

(** [fs.Stats], as far as the walker reads it. *)
Record Stats : Type := mkFsStats {
  st_size : Z;
  st_isDirectory : bool
}.

(** [fs.Dirent] from [readdir(..., { withFileTypes: true })]. *)
Inductive DirentType : Type := SymbolicLink | Directory | Other.

Record Dirent : Type := mkDirent {
  d_name : string;
  d_type : DirentType
}.

Definition isSymbolicLink (entry : Dirent) : bool :=
  match d_type entry with SymbolicLink => true | _ => false end.

Definition isDirectoryEntry (entry : Dirent) : bool :=
  match d_type entry with Directory => true | _ => false end.

(** A filesystem that does not change during one run, the [path]
    module, [String.prototype.localeCompare] and the notebook extractor
    of [notebook_utils.ts] (whose JSON parsing is not modelled: its
    result on a path is taken as given).  [None] is a rejected promise
    or a thrown error. *)
Record Runtime : Type := mkRuntime {
  fs_stat : string -> option Stats;
  fs_readdir : string -> option (list Dirent);
  fs_realpath : string -> option string;
  fs_bytes : string -> option (list Byte.byte);   (* open + read *)
  fs_readFile : string -> string + string;        (* text, or error message *)
  path_join : string -> string -> string;
  path_relative : string -> string -> string;
  path_basename : string -> string;
  localeCompare : string -> string -> Z;
  processNotebook : string -> option string
}.

End Node.
Export Node.

(* ===================================================================== *)
(** ** query_ingestion.ts *)
(* ===================================================================== *)

Module Ingestion.
Import Utils.

(** *** Pure helpers *)

(** [filePath.replace(/\\/g, '/')] *)
Fixpoint normalizePathStr (filePath : string) : string :=
  match filePath with
  | EmptyString => EmptyString
  | String c r =>
      String (if Ascii.eqb c "\" then "/"%char else c) (normalizePathStr r)
  end.

(** *** The state one traversal threads through its calls

    [seenPaths] and [stats] are objects shared by every call of one
    run; what [console.error] printed is kept as a list.  A mutation
    made before an exception is thrown stays made. *)
Inductive LogEntry : Type :=
| ErrorProcessing (entryPath : string) (error : Exn)
| ErrorReadingDirectory (dirPath : string) (error : Exn).

Record Walk : Type := mkWalk {
  seenPaths : gset string;
  stats : FileStats;
  console : list LogEntry
}.

Definition M (A : Type) : Type := Walk -> Outcome Exn A * Walk.

Definition ret {A} (a : A) : M A := fun w => (Return a, w).
Definition throw {A} (e : Exn) : M A := fun w => (Throw e, w).
Definition diverge {A} : M A := fun w => (Diverge, w).

Definition bind {A B} (m : M A) (k : A -> M B) : M B :=
  fun w =>
    match m w with
    | (Return a, w') => k a w'
    | (Throw e, w') => (Throw e, w')
    | (Diverge, w') => (Diverge, w')
    end.

(** [try { m } catch (error) { handler }] *)
Definition try_catch {A} (m : M A) (handler : Exn -> M A) : M A :=
  fun w =>
    match m w with
    | (Throw e, w') => handler e w'
    | r => r
    end.

Notation "'let*' x ':=' m 'in' k" := (bind m (fun x => k))
  (at level 10, x name, m at level 100, k at level 200).
Notation "m ';;' k" := (bind m (fun _ => k))
  (at level 100, k at level 200, right associativity).

(** [await] of a filesystem promise. *)
Definition await {A} (p : string) (r : option A) : M A :=
  match r with
  | Some a => ret a
  | None => throw (FsError p)
  end.

Definition getStats : M FileStats := fun w => (Return (stats w), w).
Definition setStats (s : FileStats) : M unit :=
  fun w => (Return tt, {| seenPaths := seenPaths w; stats := s;
                          console := console w |}).
Definition seenHas (p : string) : M bool :=
  fun w => (Return (bool_decide (p ∈ seenPaths w)), w).
Definition seenAdd (p : string) : M unit :=
  fun w => (Return tt, {| seenPaths := {[ p ]} ∪ seenPaths w;
                          stats := stats w; console := console w |}).
Definition consoleError (l : LogEntry) : M unit :=
  fun w => (Return tt, {| seenPaths := seenPaths w; stats := stats w;
                          console := console w ++ [l] |}).

(** [parentNode.children = parentNode.children || [];
     parentNode.children.push(child)] *)
Definition pushChild (parentNode child : FileNode) : FileNode :=
  {| name := name parentNode; path := path parentNode;
     size := size parentNode; content := content parentNode;
     isDirectory := isDirectory parentNode;
     children := Some (default [] (children parentNode) ++ [child]) |}.

(** [node.children?.push(child)] *)
Definition pushChildOpt (node child : FileNode) : FileNode :=
  match children node with
  | Some _ => pushChild node child
  | None => node
  end.

Definition withContent (node : FileNode) (c : string) : FileNode :=
  {| name := name node; path := path node; size := size node;
     content := Some c; isDirectory := isDirectory node;
     children := children node |}.

Definition withChildren (node : FileNode) (cs : list FileNode) : FileNode :=
  {| name := name node; path := path node; size := size node;
     content := content node; isDirectory := isDirectory node;
     children := Some cs |}.

Definition isLimitError (e : Exn) : bool :=
  match e with
  | MaxFilesReachedError _ | MaxFileSizeReachedError _ => true
  | _ => false
  end.

Section Walker.
Variable rt : Runtime.

Definition shouldExclude (filePath basePath : string)
           (ignorePatterns : OrderedSet) : bool :=
  let relPath := path_relative rt basePath filePath in
  existsb (fun pattern =>
             negb (String.eqb pattern "") && fnmatch relPath pattern)
          ignorePatterns.

Definition shouldInclude (filePath basePath : string)
           (includePatterns : OrderedSet) : bool :=
  if (length includePatterns =? 0)%nat then true
  else
    let relPath := path_relative rt basePath filePath in
    existsb (fun pattern => fnmatch relPath pattern) includePatterns.

Definition isTextFile (filePath : string) : bool :=
  match fs_bytes rt filePath with
  | Some bytes =>
      let buffer := firstn 1024 bytes in
      if (length buffer =? 0)%nat then true
      else forallb (fun b => negb (Byte.eqb b Byte.x00)) buffer
  | None => false
  end.

Definition readFileContent (filePath : string) : string :=
  match fs_readFile rt filePath with
  | inl text => text
  | inr message => "Error reading file: " +:+ message
  end.

Definition isSafeSymlink (symlinkPath basePath : string) : bool :=
  match fs_realpath rt symlinkPath with
  | Some targetPath =>
      match fs_realpath rt basePath with
      | Some baseResolved => startsWith targetPath baseResolved
      | None => false
      end
  | None => false
  end.

(** The comparator handed to [children.sort]. *)
Definition compareChildren (a b : FileNode) : Z :=
  if String.eqb (toLowerCase (name a)) "readme.md" then -1
  else if String.eqb (toLowerCase (name b)) "readme.md" then 1
  else
    let aIsHidden := startsWith (name a) "." in
    let bIsHidden := startsWith (name b) "." in
    if negb (Bool.eqb (isDirectory a) (isDirectory b)) then
      (if isDirectory a then 1 else -1)
    else if negb (Bool.eqb aIsHidden bIsHidden) then
      (if aIsHidden then 1 else -1)
    else localeCompare rt (name a) (name b).

Definition sortChildren (children : list FileNode) : list FileNode :=
  JS.sort compareChildren children.

Definition processFile (filePath : string) (parentNode : FileNode)
  : M FileNode :=
  let* fileStats := await filePath (fs_stat rt filePath) in
  let* st := getStats in
  if MAX_FILES <=? totalFiles st then
    throw (MaxFilesReachedError MAX_FILES)
  else if MAX_FILE_SIZE <? st_size fileStats then
    throw (MaxFileSizeReachedError MAX_FILE_SIZE)
  else
    setStats {| totalFiles := totalFiles st + 1;
                totalSize := totalSize st + st_size fileStats |} ;;
    let fileNode :=
      {| name := path_basename rt filePath; path := filePath;
         size := st_size fileStats; content := None;
         isDirectory := false; children := None |} in
    let* fileNode :=
      if isTextFile filePath then
        if endsWith filePath ".ipynb" then
          match processNotebook rt filePath with
          | Some text => ret (withContent fileNode text)
          | None => throw (InvalidNotebookError filePath)
          end
        else ret (withContent fileNode (readFileContent filePath))
      else ret fileNode in
    ret (pushChild parentNode fileNode).

Section Entries.
Variable query : ParsedQuery.
(** The recursive call of [scanDirectory], one level of fuel down. *)
Variable scan : string -> Z -> M (option FileNode).

Definition processSymlink (symlinkPath : string) (parentNode : FileNode)
           (depth : Z) : M FileNode :=
  if negb (isSafeSymlink symlinkPath (repository query)) then
    ret parentNode
  else
    let* targetPath := await symlinkPath (fs_realpath rt symlinkPath) in
    let* seen := seenHas targetPath in
    if seen then throw (AlreadyVisitedError targetPath)
    else
      seenAdd targetPath ;;
      let* targetStats := await targetPath (fs_stat rt targetPath) in
      if st_isDirectory targetStats then
        let* childNode := scan targetPath (depth + 1) in
        match childNode with
        | Some childNode => ret (pushChild parentNode childNode)
        | None => ret parentNode
        end
      else processFile targetPath parentNode.

(** The body of the inner [try] for one entry. *)
Definition dispatchEntry (entry : Dirent) (entryPath : string)
           (node : FileNode) (depth : Z) : M FileNode :=
  if isSymbolicLink entry then
    processSymlink entryPath node depth
  else if isDirectoryEntry entry then
    let* childNode := scan entryPath (depth + 1) in
    match childNode with
    | Some childNode => ret (pushChildOpt node childNode)
    | None => ret node
    end
  else processFile entryPath node.

(** The [for (const entry of entries)] loop.  A Node is only ever
    extended by the last statement of [processFile], [processSymlink]
    and the directory branch, after everything that can throw: when the
    handler runs, [node] is as it was before the entry. *)
Fixpoint scanEntries (dirPath : string) (depth : Z)
         (entries : list Dirent) (node : FileNode) : M FileNode :=
  match entries with
  | [] => ret node
  | entry :: rest =>
      let entryPath := path_join rt dirPath (d_name entry) in
      if shouldExclude entryPath (repository query)
                       (ignorePatterns query) then
        scanEntries dirPath depth rest node
      else if negb (shouldInclude entryPath (repository query)
                                  (includePatterns query)) then
        scanEntries dirPath depth rest node
      else
        let* node :=
          try_catch
            (dispatchEntry entry entryPath node depth)
            (fun error =>
               if isLimitError error then throw error
               else consoleError (ErrorProcessing entryPath error) ;;
                    ret node) in
        scanEntries dirPath depth rest node
  end.

Definition scanDirectoryBody (dirPath : string) (depth : Z)
  : M (option FileNode) :=
  if maxDirectoryDepth query <? depth then ret None
  else
    let* dirStats := await dirPath (fs_stat rt dirPath) in
    let node :=
      {| name := path_basename rt dirPath; path := dirPath;
         size := st_size dirStats; content := None;
         isDirectory := true; children := Some [] |} in
    try_catch
      (let* entries := await dirPath (fs_readdir rt dirPath) in
       let* node := scanEntries dirPath depth entries node in
       match children node with
       | Some cs => ret (Some (withChildren node (sortChildren cs)))
       | None => ret (Some node)
       end)
      (fun error =>
         consoleError (ErrorReadingDirectory dirPath error) ;;
         ret None).
End Entries.

(** [scanDirectory], with the depth of the JavaScript call stack it
    may use made explicit. *)
Fixpoint scanDirectory (fuel : nat) (query : ParsedQuery)
         (dirPath : string) (depth : Z) : M (option FileNode) :=
  match fuel with
  | O => diverge
  | S fuel' =>
      scanDirectoryBody query (scanDirectory fuel' query) dirPath depth
  end.

(** [node.content] used as a condition. *)
Definition truthy (content : option string) : bool :=
  match content with
  | Some c => negb (String.eqb c "")
  | None => false
  end.

Fixpoint extractFilesContent (query : ParsedQuery) (node : FileNode)
         (files : list FileNode) : list FileNode :=
  let files :=
    if negb (isDirectory node) && truthy (content node)
    then files ++ [node] else files in
  match children node with
  | Some cs =>
      (fix each (cs : list FileNode) (files : list FileNode) :=
         match cs with
         | [] => files
         | child :: rest =>
             each rest (extractFilesContent query child files)
         end) cs files
  | None => files
  end.

(** The callback of [files.map]; an absent [content] would be
    interpolated as the text [undefined]. *)
Definition fileBlock (file : FileNode) : string :=
  let header := JS.repeat "=" 80 in
  header +:+ LF +:+ normalizePathStr (path file) +:+ LF +:+
  header +:+ LF +:+ default "undefined" (content file) +:+ LF.

Definition createFileContentString (files : list FileNode) : string :=
  join LF (map fileBlock files).

(** [ingestRepository], as far as the tree and the [content] string:
    the [summary] and [structure] strings are not modelled. *)
Definition ingestRepository (repository : string) (query : ParsedQuery)
  : Outcome Exn (FileNode * string) * Walk :=
  let stats := {| totalFiles := 0; totalSize := 0 |} in
  let w := {| seenPaths := ∅; stats := stats; console := [] |} in
  let fuel := S (Z.to_nat (maxDirectoryDepth query + 1)) in
  match scanDirectory fuel query repository 0 w with
  | (Return (Some rootNode), w') =>
      let files := extractFilesContent query rootNode [] in
      (Return (rootNode, createFileContentString files), w')
  | (Return None, w') =>
      (Throw (Error "No files found in repository"), w')
  | (Throw e, w') => (Throw e, w')
  | (Diverge, w') => (Diverge, w')
  end.

(** [ingestFile], as far as the Node, the [content] string and the
    counters: here nothing stands between the size check and the
    caller. *)
Definition ingestFile (filePath : string) (query : ParsedQuery)
  : Outcome Exn (FileNode * string) * FileStats :=
  let stats := {| totalFiles := 1; totalSize := 0 |} in
  match fs_stat rt filePath with
  | None => (Throw (FsError filePath), stats)
  | Some fileStats =>
      let stats := {| totalFiles := 1; totalSize := st_size fileStats |} in
      if MAX_FILE_SIZE <? st_size fileStats then
        (Throw (MaxFileSizeReachedError MAX_FILE_SIZE), stats)
      else
        let node :=
          {| name := path_basename rt filePath; path := filePath;
             size := st_size fileStats; content := None;
             isDirectory := false; children := None |} in
        if isTextFile filePath then
          if endsWith filePath ".ipynb" then
            match processNotebook rt filePath with
            | Some text => (Return (withContent node text, text), stats)
            | None => (Throw (InvalidNotebookError filePath), stats)
            end
          else
            let text := readFileContent filePath in
            (Return (withContent node text, text), stats)
        else (Return (node, ""), stats)
  end.

End Walker.

(** *** Run states, Nodes and budgets the properties speak of *)

(** The run state after one more file of the given size was counted. *)
Definition counted (w : Walk) (fileSize : Z) : Walk :=
  {| seenPaths := seenPaths w;
     stats :=
       {| totalFiles := totalFiles (stats w) + 1;
          totalSize := totalSize (stats w) + fileSize |};
     console := console w |}.

(** The run state after one more line was logged. *)
Definition logged (w : Walk) (l : LogEntry) : Walk :=
  {| seenPaths := seenPaths w;
     stats := stats w;
     console := console w ++ [l] |}.

(** The run state after a symlink target was recorded. *)
Definition visited (w : Walk) (targetPath : string) : Walk :=
  {| seenPaths := {[ targetPath ]} ∪ seenPaths w;
     stats := stats w;
     console := console w |}.

(** The Node of a regular file. *)
Definition fileNode (rt : Runtime) (filePath : string) (fileSize : Z)
           (text : option string) : FileNode :=
  {| name := path_basename rt filePath; path := filePath;
     size := fileSize; content := text; isDirectory := false;
     children := None |}.

(** Call-stack depth that suffices for a walk started at [depth]. *)
Definition enoughFuel (query : ParsedQuery) (depth : Z) (fuel : nat) : Prop :=
  (Z.to_nat (maxDirectoryDepth query + 1 - depth) < fuel)%nat.

End Ingestion.

(* ===================================================================== *)
(** ** An in-memory runtime for concrete runs *)
(* ===================================================================== *)

Module Disk.
Import Ingestion.

(** Paths are canonical absolute POSIX paths; on those, [path.join] of a
    directory and an entry name, [path.relative] of a root and a path
    below it, and [path.basename] are the following. *)
Definition posix_join (dir entry : string) : string :=
  dir +:+ "/" +:+ entry.

Definition posix_relative (base p : string) : string :=
  if startsWith p (base +:+ "/")
  then substring (String.length base + 1)
                 (String.length p - (String.length base + 1)) p
  else p.

Fixpoint posix_basename_aux (p acc : string) : string :=
  match p with
  | EmptyString => acc
  | String c r =>
      if Ascii.eqb c "/" then posix_basename_aux r r
      else posix_basename_aux r acc
  end.

Definition posix_basename (p : string) : string := posix_basename_aux p p.

(** Comparison by code units, a collation [localeCompare] may use. *)
Definition byteCompare (a b : string) : Z :=
  match String.compare a b with
  | Lt => -1
  | Eq => 0
  | Gt => 1
  end.

Inductive Inode : Type :=
| IFile (size : Z) (data : string)   (* readable regular file *)
| ILocked (size : Z)                 (* regular file that cannot be opened *)
| IDir (entries : list Dirent)
| ILink (target : string).           (* symlink to a canonical path *)

Definition disk := list (string * Inode).

Fixpoint inode (d : disk) (p : string) : option Inode :=
  match d with
  | [] => None
  | (q, i) :: r => if String.eqb p q then Some i else inode r p
  end.

Definition realpath (d : disk) (p : string) : option string :=
  match inode d p with
  | Some (ILink target) =>
      match inode d target with Some _ => Some target | None => None end
  | Some _ => Some p
  | None => None
  end.

Definition stat (d : disk) (p : string) : option Stats :=
  match realpath d p ≫= inode d with
  | Some (IFile size _) | Some (ILocked size) =>
      Some {| st_size := size; st_isDirectory := false |}
  | Some (IDir _) => Some {| st_size := 4096; st_isDirectory := true |}
  | _ => None
  end.

Definition readdir (d : disk) (p : string) : option (list Dirent) :=
  match realpath d p ≫= inode d with
  | Some (IDir entries) => Some entries
  | _ => None
  end.

Definition bytes (d : disk) (p : string) : option (list Byte.byte) :=
  match realpath d p ≫= inode d with
  | Some (IFile _ data) =>
      Some (map byte_of_ascii (list_ascii_of_string data))
  | _ => None
  end.

Definition readFile (d : disk) (p : string) : string + string :=
  match realpath d p ≫= inode d with
  | Some (IFile _ data) => inl data
  | Some (ILocked _) => inr ("EACCES: permission denied, open '" +:+ p +:+ "'")
  | Some (IDir _) => inr "EISDIR: illegal operation on a directory, read"
  | _ => inr ("ENOENT: no such file or directory, open '" +:+ p +:+ "'")
  end.

Definition runtime (d : disk) (notebook : string -> option string)
  : Runtime :=
  {| fs_stat := stat d; fs_readdir := readdir d; fs_realpath := realpath d;
     fs_bytes := bytes d; fs_readFile := readFile d;
     path_join := posix_join; path_relative := posix_relative;
     path_basename := posix_basename; localeCompare := byteCompare;
     processNotebook := notebook |}.

Definition file (n : string) : Dirent := {| d_name := n; d_type := Other |}.
Definition dir (n : string) : Dirent := {| d_name := n; d_type := Directory |}.
Definition link (n : string) : Dirent :=
  {| d_name := n; d_type := SymbolicLink |}.

(** A query as [parseQuery] builds it, with no default deny-list. *)
Definition plainQuery (root : string) : ParsedQuery :=
  {| repository := root; ignorePatterns := []; includePatterns := [];
     maxFiles := MAX_FILES; maxTotalSizeBytes := MAX_TOTAL_SIZE_BYTES;
     maxDirectoryDepth := MAX_DIRECTORY_DEPTH |}.

End Disk.

(* ===================================================================== *)
(** ** What the specification says, stated independently of the code *)
(* ===================================================================== *)

Module Spec.

(** Glob matching as section 4.2 words it: [*] stands for a run of
    characters, [?] for one character, anything else for itself, and the
    whole candidate has to be consumed.  [wild] tells which characters a
    wildcard may stand for; the specification allows all of them. *)
Inductive glob (wild : ascii -> Prop) : list ascii -> list ascii -> Prop :=
| glob_nil : glob wild [] []
| glob_star p run rest :
    Forall wild run -> glob wild p rest ->
    glob wild ("*"%char :: p) (run ++ rest)
| glob_question p c rest :
    wild c -> glob wild p rest ->
    glob wild ("?"%char :: p) (c :: rest)
| glob_literal p c rest :
    c <> "*"%char -> c <> "?"%char -> glob wild p rest ->
    glob wild (c :: p) (c :: rest).

Definition anyChar (c : ascii) : Prop := True.
Definition notLineTerminator (c : ascii) : Prop :=
  RegExp.isLineTerminator c = false.

Definition matches (wild : ascii -> Prop) (candidate pattern : string) : Prop :=
  glob wild (list_ascii_of_string pattern) (list_ascii_of_string candidate).

(** The characters of the class [[A-Za-z0-9\-_./+*]], written out. *)
Definition allowedChars : string :=
  "ABCDEFGHIJKLMNOPQRSTUVWXYZabcdefghijklmnopqrstuvwxyz0123456789-_./+*".

Definition allowed (c : ascii) : Prop :=
  In c (list_ascii_of_string allowedChars).

Definition hasForbiddenChar (pattern : string) : Prop :=
  exists c, In c (list_ascii_of_string pattern) /\ ~ allowed c.

(** Section 4.5: the order of a directory's children.  [a] may stand
    before [b] when [a] is a readme; otherwise [b] must not be one, and
    then files come before directories, among entries of one kind
    non-dot names before dot names, and among those the collation
    decides. *)
Definition isReadme (n : FileNode) : bool :=
  String.eqb (toLowerCase (name n)) "readme.md".

Definition isHidden (n : FileNode) : bool := startsWith (name n) ".".

Definition precedes (collate : string -> string -> Z) (a b : FileNode) : Prop :=
  isReadme a = true \/
  (isReadme b = false /\
   ((isDirectory a = false /\ isDirectory b = true) \/
    (isDirectory a = isDirectory b /\
     ((isHidden a = false /\ isHidden b = true) \/
      (isHidden a = isHidden b /\ collate (name a) (name b) <= 0))))).

(** What a collation has to satisfy to order strings. *)
Definition collationTotal (collate : string -> string -> Z) : Prop :=
  forall a b, collate a b <= 0 \/ collate b a <= 0.

Definition collationTransitive (collate : string -> string -> Z) : Prop :=
  forall a b c, collate a b <= 0 -> collate b c <= 0 -> collate a c <= 0.

(** The leading bytes the text probe inspects. *)
Definition probe (bytes : list Byte.byte) : list Byte.byte :=
  firstn 1024 bytes.

Definition hasNull (bytes : list Byte.byte) : Prop := In Byte.x00 bytes.

(** Every recorded symlink target lies, textually, under the root's
    canonical path. *)
Definition visitedSafe (rt : Runtime) (query : ParsedQuery)
           (w : Ingestion.Walk) : Prop :=
  forall target, target ∈ Ingestion.seenPaths w ->
    exists baseResolved,
      fs_realpath rt (repository query) = Some baseResolved /\
      startsWith target baseResolved = true.

(** Section 4.6, content: the Nodes of a tree in depth-first pre-order,
    the delimiter line, the path with forward slashes, one block, and
    the blocks joined by a line feed (each block ends its last line, so
    a blank line separates two blocks). *)
Fixpoint preorder (node : FileNode) : list FileNode :=
  node :: match children node with
          | Some cs => flat_map preorder cs
          | None => []
          end.

Definition delimiter : string :=
  "================================================================================".

Definition forwardSlashes (p : string) : string :=
  string_of_list_ascii
    (map (fun c : ascii => if Ascii.eqb c "\" then "/"%char else c)
         (list_ascii_of_string p)).

Definition block (p text : string) : string :=
  delimiter +:+ LF +:+ forwardSlashes p +:+ LF +:+
  delimiter +:+ LF +:+ text +:+ LF.

(** A file Node that carries extracted content, and one whose content
    is moreover not the empty text. *)
Definition carriesContent (node : FileNode) : bool :=
  negb (isDirectory node) &&
  match content node with Some _ => true | None => false end.

Definition carriesText (node : FileNode) : bool :=
  negb (isDirectory node) &&
  match content node with
  | Some text => negb (String.eqb text "")
  | None => false
  end.

Definition digestOf (selected : FileNode -> bool) (root : FileNode) : string :=
  join LF (map (fun node => block (path node) (default "" (content node)))
               (List.filter selected (preorder root))).

(** A pattern the validation turns down: the empty one, and any with
    a character outside the class. *)
Definition rejected (pattern : string) : Prop :=
  pattern = "" \/ hasForbiddenChar pattern.

(** The patterns a call supplies, over both optional lists. *)
Definition supplied (ignorePatterns includePatterns : option (list string))
  : list string :=
  default [] ignorePatterns ++ default [] includePatterns.

End Spec.

(* ===================================================================== *)
(** ** Concrete filesystems and calls *)
(* ===================================================================== *)

Module Scenarios.
Import Ingestion Disk.

Definition noNotebooks (p : string) : option string := None.

Definition start : Walk :=
  {| seenPaths := ∅; stats := {| totalFiles := 0; totalSize := 0 |};
     console := [] |}.

Definition directoryNode (n p : string) (cs : list FileNode) : FileNode :=
  {| name := n; path := p; size := 4096; content := None;
     isDirectory := true; children := Some cs |}.

Definition textNode (n p : string) (text : string) : FileNode :=
  {| name := n; path := p; size := Z.of_nat (String.length text);
     content := Some text; isDirectory := false; children := None |}.

(** A candidate path of two lines. *)
Definition twoLines : string := "a" +:+ LF +:+ "b".

(** A deny-list standing for the one of [ignore_patterns.ts]. *)
Definition sampleDefaults : list string := [".git"; "node_modules"].

(** [/r/a] holds 10001 one-byte files named [0] .. [10000]; [/r/b] is
    an empty directory listed after it. *)
Definition decimal (i : N) : string :=
  DecimalString.NilEmpty.string_of_uint (N.to_uint i).

Definition crowdedNames : list Dirent :=
  snd (N.iter 10001
         (fun '(i, acc) => (N.pred i, file (decimal i) :: acc))
         (10000%N, [])).

Definition crowdedFile (p : string) : bool :=
  startsWith p "/r/a/" &&
  match DecimalString.NilEmpty.uint_of_string
          (substring 5 (String.length p - 5) p) with
  | Some u => (N.of_uint u <? 10001)%N
  | None => false
  end.

Definition crowdedDir (p : string) : bool :=
  String.eqb p "/r" || String.eqb p "/r/a" || String.eqb p "/r/b".

Definition crowded : Runtime :=
  {| fs_stat := fun p =>
       if crowdedDir p
       then Some {| st_size := 4096; st_isDirectory := true |}
       else if crowdedFile p
            then Some {| st_size := 1; st_isDirectory := false |}
            else None;
     fs_readdir := fun p =>
       if String.eqb p "/r" then Some [dir "a"; dir "b"]
       else if String.eqb p "/r/a" then Some crowdedNames
       else if String.eqb p "/r/b" then Some []
       else None;
     fs_realpath := fun p =>
       if crowdedDir p || crowdedFile p then Some p else None;
     fs_bytes := fun p =>
       if crowdedFile p then Some [Byte.x78] else None;
     fs_readFile := fun p =>
       if crowdedFile p then inl "x"
       else inr "ENOENT: no such file or directory";
     path_join := posix_join; path_relative := posix_relative;
     path_basename := posix_basename; localeCompare := byteCompare;
     processNotebook := noNotebooks |}.

(** [/r/a/big.bin] is one byte over the per-file limit; [/r/ok.txt] is
    listed after [/r/a]. *)
Definition oversized : disk :=
  [ ("/r", IDir [dir "a"; file "ok.txt"]);
    ("/r/a", IDir [file "big.bin"]);
    ("/r/a/big.bin", IFile (MAX_FILE_SIZE + 1) "");
    ("/r/ok.txt", IFile 2 "ok") ].

(** The oversized file directly under the root. *)
Definition oversizedRoot : disk :=
  [ ("/r", IDir [file "big.bin"]);
    ("/r/big.bin", IFile (MAX_FILE_SIZE + 1) "") ].

(** [/r/sub/loop] points back to the root [/r]. *)
Definition cycle : disk :=
  [ ("/r", IDir [file "f.txt"; dir "sub"]);
    ("/r/f.txt", IFile 1 "x");
    ("/r/sub", IDir [link "loop"]);
    ("/r/sub/loop", ILink "/r") ].

(** A chain [/r/d/d/.../d] of [n] directories below [/r], the deepest
    of which holds a symlink [loop] back to [/r]. *)
Fixpoint chain (n : nat) (p : string) : disk :=
  match n with
  | O => [ (p, IDir [link "loop"]); (p +:+ "/loop", ILink "/r") ]
  | S k => (p, IDir [dir "d"]) :: chain k (p +:+ "/d")
  end.

Definition deepCycle : disk := chain 20 "/r".

(** The state in which the walk of [cycle] first meets [/r/sub/loop],
    and the one in which it meets it again. *)
Definition cycleFirst : Walk :=
  {| seenPaths := ∅; stats := {| totalFiles := 1; totalSize := 1 |};
     console := [] |}.

Definition cycleAgain : Walk :=
  {| seenPaths := {[ "/r" ]};
     stats := {| totalFiles := 2; totalSize := 2 |}; console := [] |}.

(** [/r/out] points outside the root. *)
Definition outside : disk :=
  [ ("/r", IDir [link "out"; file "f.txt"]);
    ("/r/out", ILink "/etc/hosts");
    ("/r/f.txt", IFile 1 "x");
    ("/etc/hosts", IFile 9 "127.0.0.1") ].

(** A text file, a file with a null byte, a notebook the extractor
    turns down, and a file that cannot be opened. *)
Definition mixed : disk :=
  [ ("/r", IDir [file "b.txt"; file "a.bin"; file "nb.ipynb"; file "locked"]);
    ("/r/b.txt", IFile 5 "hello");
    ("/r/a.bin", IFile 3 (String "a" (String "000" "b")));
    ("/r/nb.ipynb", IFile 8 "not json");
    ("/r/locked", ILocked 4) ].

(** An empty file beside a text file. *)
Definition withEmptyFile : disk :=
  [ ("/r", IDir [file "e.txt"; file "b.txt"]);
    ("/r/e.txt", IFile 0 "");
    ("/r/b.txt", IFile 5 "hello") ].

(** Children as a directory may collect them. *)
Definition unsortedChildren : list FileNode :=
  [ textNode "b.txt" "/r/b.txt" "hello";
    directoryNode "src" "/r/src" [];
    textNode ".env" "/r/.env" "K=1";
    textNode "ReadMe.MD" "/r/ReadMe.MD" "hi";
    directoryNode ".github" "/r/.github" [];
    textNode "a.txt" "/r/a.txt" "a" ].

End Scenarios.

(* ===================================================================== *)
(** ** Further notions the properties of the code are stated with *)
(* ===================================================================== *)

Module Notions.
Import Ingestion Spec.

(** A pattern, or a part of one, without wildcards. *)
Definition literal (p : string) : Prop :=
  Forall (fun c : ascii => c <> "*"%char /\ c <> "?"%char)
         (list_ascii_of_string p).

(** A string without line terminators. *)
Definition singleLine (s : string) : Prop :=
  Forall notLineTerminator (list_ascii_of_string s).

(** The entry path, taken relative to the root, matches a pattern as
    [fnmatch] matches. *)
Definition globMatches (rt : Runtime) (basePath filePath pattern : string)
  : Prop :=
  matches notLineTerminator (path_relative rt basePath filePath) pattern.


(** A collation that orders strings the way ECMAScript asks of a
    comparator: a string is level with itself, swapping the arguments
    swaps the sign, and "not after" is transitive. *)
Definition collationConsistent (collate : string -> string -> Z) : Prop :=
  (forall a, collate a a = 0) /\
  (forall a b, collate a b < 0 <-> 0 < collate b a) /\
  (forall a b c, collate a b <= 0 -> collate b c <= 0 -> collate a c <= 0).

(** At most one readme among the children: the comparator of
    [sortChildren] ranks two readmes each before the other. *)
Definition oneReadme (cs : list FileNode) : Prop :=
  (length (List.filter isReadme cs) <= 1)%nat.

(** A byte count that is a number of the language as it stands. *)
Definition safeCount (bytes : Z) : Prop := 0 <= bytes < 2 ^ 53.

End Notions.

(* ===================================================================== *)
(** ** query_ingestion.ts: [createTreeStructure] *)
(* ===================================================================== *)

Module Structure.
Import Ingestion.

(** The four markers, written in UTF-8; the code only ever concatenates
    them. *)
Definition lastBranch : string := "└── ".
Definition midBranch : string := "├── ".
Definition lastIndent : string := "    ".
Definition midIndent : string := "│   ".

(** [createTreeStructure(query, node, prefix, isLast)]: the rendering of
    every child is pushed as one element of [lines], and [lines] is
    joined at the end.  [i === sortedChildren.length - 1] holds when no
    child is left after the current one. *)
Fixpoint createTreeStructure (query : ParsedQuery) (node : FileNode)
         (prefix : string) (isLast : bool) : string :=
  let nodePrefix := prefix +:+ (if isLast then lastBranch else midBranch) in
  let childPrefix := prefix +:+ (if isLast then lastIndent else midIndent) in
  let lines := [nodePrefix +:+ name node] in
  let lines :=
    match children node with
    | Some sortedChildren =>
        (fix each (cs : list FileNode) (lines : list string) :=
           match cs with
           | [] => lines
           | child :: rest =>
               let isLastChild := match rest with [] => true | _ => false end in
               each rest
                    (lines ++
                     [createTreeStructure query child childPrefix isLastChild])
           end) sortedChildren lines
    | None => lines
    end in
  join LF lines.

(** The lines of the outline, one per Node, in depth-first pre-order. *)
Fixpoint outline (node : FileNode) (prefix : string) (isLast : bool)
  : list string :=
  ((prefix +:+ (if isLast then lastBranch else midBranch)) +:+ name node) ::
  match children node with
  | Some cs =>
      (fix each (cs : list FileNode) : list string :=
         match cs with
         | [] => []
         | child :: rest =>
             outline child
                     (prefix +:+ (if isLast then lastIndent else midIndent))
                     (match rest with [] => true | _ => false end)
             ++ each rest
         end) cs
  | None => []
  end.

End Structure.

(* ===================================================================== *)
(** ** Directory trees on disk *)
(* ===================================================================== *)

Module Trees.
Import Ingestion.

(** A finite directory tree without symlinks: a regular file of a given
    size, or a directory with named entries in listing order. *)
#[local] Unset Elimination Schemes.
Inductive Tree : Type :=
| TFile (fileSize : Z)
| TDir (entries : list (string * Tree)).
#[local] Set Elimination Schemes.

Definition direntOf (e : string * Tree) : Dirent :=
  {| d_name := fst e;
     d_type := match snd e with TFile _ => Other | TDir _ => Directory end |}.

Definition total (l : list Z) : Z := fold_right Z.add 0 l.

Definition allOf (l : list Prop) : Prop := fold_right and True l.

Fixpoint treeSize (t : Tree) : Z :=
  match t with
  | TFile fileSize => fileSize
  | TDir entries => total (map (fun e => treeSize (snd e)) entries)
  end.

Fixpoint fileCount (t : Tree) : Z :=
  match t with
  | TFile _ => 1
  | TDir entries => total (map (fun e => fileCount (snd e)) entries)
  end.

(** The number of nested calls a recursive visit of the tree makes. *)
Fixpoint treeHeight (t : Tree) : nat :=
  match t with
  | TFile _ => 1
  | TDir entries =>
      S (fold_right Nat.max O (map (fun e => treeHeight (snd e)) entries))
  end.

(** The regular files of the tree [t] placed at [p], with their sizes,
    in listing order. *)
Fixpoint filesOf (rt : Runtime) (p : string) (t : Tree)
  : list (string * Z) :=
  match t with
  | TFile fileSize => [(p, fileSize)]
  | TDir entries =>
      flat_map (fun e => filesOf rt (path_join rt p (fst e)) (snd e)) entries
  end.

(** The runtime shows the tree [t] at the path [p]. *)
Fixpoint holds (rt : Runtime) (p : string) (t : Tree) : Prop :=
  match t with
  | TFile fileSize =>
      fs_stat rt p = Some {| st_size := fileSize; st_isDirectory := false |}
  | TDir entries =>
      (exists dirSize,
          fs_stat rt p =
            Some {| st_size := dirSize; st_isDirectory := true |}) /\
      fs_readdir rt p = Some (map direntOf entries) /\
      allOf (map (fun e => holds rt (path_join rt p (fst e)) (snd e))
                 entries)
  end.

(** A walk that enters [p] at [depth] takes all of the tree [t] found
    there: no directory lies past the depth limit, every entry passes
    both filters, no file is over the size limit, and no notebook is
    turned down by the extractor. *)
Fixpoint taken (rt : Runtime) (query : ParsedQuery) (p : string)
         (depth : Z) (t : Tree) : Prop :=
  match t with
  | TFile fileSize =>
      fileSize <= MAX_FILE_SIZE /\
      (isTextFile rt p = true -> endsWith p ".ipynb" = true ->
       processNotebook rt p <> None)
  | TDir entries =>
      depth <= maxDirectoryDepth query /\
      allOf (map (fun e =>
                    let entryPath := path_join rt p (fst e) in
                    shouldExclude rt entryPath (repository query)
                                  (ignorePatterns query) = false /\
                    shouldInclude rt entryPath (repository query)
                                  (includePatterns query) = true /\
                    taken rt query entryPath (depth + 1) (snd e))
                 entries)
  end.

(** The run state after [files] more files of [bytes] bytes in all were
    counted. *)
Definition tallied (w : Walk) (files bytes : Z) : Walk :=
  {| seenPaths := seenPaths w;
     stats := {| totalFiles := totalFiles (stats w) + files;
                 totalSize := totalSize (stats w) + bytes |};
     console := console w |}.

(** The Nodes of regular files in a tree of Nodes, as path and size. *)
Definition fileNodes (node : FileNode) : list (string * Z) :=
  map (fun n => (path n, size n))
      (List.filter (fun n => negb (isDirectory n)) (Spec.preorder node)).

(** What the walker returns for a directory entered with [levels]
    levels of directories still allowed: every Node is named after its
    path; a file Node has no children and is within the size limit; a
    directory Node has no content, and its children are Nodes of the
    same kind with one level less. *)
Fixpoint shaped (rt : Runtime) (levels : nat) (node : FileNode) : Prop :=
  name node = path_basename rt (path node) /\
  ((isDirectory node = false /\ children node = None /\
    size node <= MAX_FILE_SIZE) \/
   (isDirectory node = true /\ content node = None /\
    match levels with
    | O => False
    | S below =>
        exists cs, children node = Some cs /\ Forall (shaped rt below) cs
    end)).

(** A directory Node under construction: the children gathered so far
    are all well shaped. *)
Definition gathering (rt : Runtime) (below : nat) (node : FileNode) : Prop :=
  exists cs, children node = Some cs /\ Forall (shaped rt below) cs.

(** Two Nodes that differ at most in their children. *)
Definition sameHead (a b : FileNode) : Prop :=
  path a = path b /\ name a = name b /\ size a = size b /\
  content a = content b /\ isDirectory a = isDirectory b.

(** The levels of directories in a tree of Nodes: none for a file, one
    more than its deepest child for a directory. *)
Fixpoint directoryLevels (node : FileNode) : nat :=
  if isDirectory node then
    S (match children node with
       | Some cs => fold_right Nat.max O (map directoryLevels cs)
       | None => O
       end)
  else O.

(** A single Node as the walker builds it. *)
Definition wellFormed (rt : Runtime) (node : FileNode) : Prop :=
  name node = path_basename rt (path node) /\
  if isDirectory node
  then content node = None /\ children node <> None
  else children node = None /\ size node <= MAX_FILE_SIZE.

(** What the loop does with one entry whose tree is [t]: a child Node
    is appended, the files of [t] are counted, and nothing else of the
    run state changes. *)
Definition visited_as_entry (rt : Runtime) (query : ParsedQuery) (t : Tree)
  : Prop :=
  forall fuel entryName entryPath depth node w,
    is_Some (children node) ->
    enoughFuel query (depth + 1) fuel ->
    holds rt entryPath t ->
    taken rt query entryPath (depth + 1) t ->
    totalFiles (stats w) + fileCount t <= MAX_FILES ->
    exists child,
      dispatchEntry rt query (scanDirectory rt fuel query)
                    (direntOf (entryName, t)) entryPath node depth w =
        (Return (pushChild node child),
         tallied w (fileCount t) (treeSize t)) /\
      Permutation (fileNodes child) (filesOf rt entryPath t).

(** The Node [c] stems from the entry [entry] of the directory
    [dirPath]: the entry passes both filters, and the path of [c] is the
    entry's path or, for a safe symlink, its real path. *)
Definition stemsFrom (rt : Runtime) (query : ParsedQuery) (dirPath : string)
           (entry : Dirent) (c : FileNode) : Prop :=
  let entryPath := path_join rt dirPath (d_name entry) in
  shouldExclude rt entryPath (repository query) (ignorePatterns query)
    = false /\
  shouldInclude rt entryPath (repository query) (includePatterns query)
    = true /\
  (path c = entryPath \/
   (isSymbolicLink entry = true /\
    isSafeSymlink rt entryPath (repository query) = true /\
    fs_realpath rt entryPath = Some (path c))).

(** The child [c] of [parent] stems from an entry the directory of
    [parent] lists. *)
Definition stems (rt : Runtime) (query : ParsedQuery) (parent c : FileNode)
  : Prop :=
  exists entries entry,
    fs_readdir rt (path parent) = Some entries /\ In entry entries /\
    stemsFrom rt query (path parent) entry c.

(** Throughout the tree, every child stems from a listed entry. *)
Fixpoint admitted (rt : Runtime) (query : ParsedQuery) (node : FileNode)
  : Prop :=
  match children node with
  | Some cs =>
      allOf (map (fun c => stems rt query node c /\ admitted rt query c) cs)
  | None => True
  end.

(** A directory Node under construction from the listing [entries]. *)
Definition admitting (rt : Runtime) (query : ParsedQuery) (dirPath : string)
           (entries : list Dirent) (node : FileNode) : Prop :=
  exists cs,
    children node = Some cs /\
    Forall (fun c =>
              (exists entry, In entry entries /\
                             stemsFrom rt query dirPath entry c) /\
              admitted rt query c) cs.

(** The number of file Nodes in a tree of Nodes, and among the children
    a directory Node has gathered so far. *)
Definition fileNodeCount (node : FileNode) : Z :=
  Z.of_nat (length (fileNodes node)).

Definition gathered (node : FileNode) : Z :=
  Z.of_nat (length (flat_map fileNodes (default [] (children node)))).

End Trees.

(* ===================================================================== *)
(** ** utils.ts: [formatSize], and the number formatting it relies on *)
(* ===================================================================== *)

Module Format.

(** The decimal digits of a natural number, [0] included. *)
Definition digits (n : Z) : string :=
  DecimalString.NilEmpty.string_of_uint (N.to_uint (Z.to_N n)).

(** The last [f] decimal digits of [n]. *)
Fixpoint fraction (f : nat) (n : Z) : string :=
  match f with
  | O => EmptyString
  | S f' => fraction f' (n / 10) +:+ digits (n mod 10)
  end.

(** [Number.prototype.toFixed(f)] of the number [num / den], for
    [den > 0] and [num] an integer of magnitude below [2^53]: the
    numbers the code formats are such integers divided by powers of
    1024, which JavaScript represents exactly.  ECMAScript takes the
    integer [n] for which [n / 10^f] is closest to the number, the
    larger one of two, and writes its digits with a point before the
    last [f]; a negative number is formatted as its negation behind a
    minus sign.  From [10^21] on [toFixed] answers in exponent notation
    instead, and integers from [2^53] on are no longer all numbers of
    the language: neither is modelled, and what is stated of
    [formatSize] is stated below [2^53]. *)
Definition nearest (f : nat) (num den : Z) : Z :=
  (2 * num * 10 ^ Z.of_nat f + den) / (2 * den).

Definition toFixed (f : nat) (num den : Z) : string :=
  let s := if num <? 0 then "-" else "" in
  let n := nearest f (Z.abs num) den in
  s +:+ digits (n / 10 ^ Z.of_nat f) +:+
  match f with
  | O => ""
  | S _ => "." +:+ fraction f n
  end.

Definition units : list string := ["B"; "KB"; "MB"; "GB"; "TB"].

(** The [while] loop of [formatSize]: [size] is [bytes / den].  Each
    round moves [unitIndex] one further towards [units.length - 1], so
    [units.length] rounds are never used up. *)
Fixpoint scale (rounds : nat) (bytes den : Z) (unitIndex : nat)
  : Z * nat :=
  match rounds with
  | O => (den, unitIndex)
  | S rounds' =>
      if (1024 * den <=? bytes) && (unitIndex <? length units - 1)%nat
      then scale rounds' bytes (den * 1024) (S unitIndex)
      else (den, unitIndex)
  end.

Definition formatSize (bytes : Z) : string :=
  let '(den, unitIndex) := scale (length units) bytes 1 O in
  toFixed 1 bytes den +:+ " " +:+ nth unitIndex units "undefined".

End Format.

(* ===================================================================== *)
(** ** repository_ingest.ts: the size gate and the local run *)
(* ===================================================================== *)

Module RepositoryIngest.
Import Ingestion.

Section Sizing.
Variable rt : Runtime.

(** [processItem], the local function of [calculateDirectorySize]; the
    captured [totalSize] is passed through.  [readdir] is called without
    [withFileTypes] and yields names; [stat] follows symlinks, and
    nothing bounds the recursion but the filesystem, so the depth of the
    call stack is made explicit. *)
Fixpoint processItem (fuel : nat) (itemPath : string) (totalSize : Z)
  : Outcome Exn Z :=
  match fuel with
  | O => Diverge
  | S fuel' =>
      match fs_stat rt itemPath with
      | None => Throw (FsError itemPath)
      | Some stats =>
          if st_isDirectory stats then
            match fs_readdir rt itemPath with
            | None => Throw (FsError itemPath)
            | Some entries =>
                (fix each (entries : list string) (totalSize : Z) :=
                   match entries with
                   | [] => Return totalSize
                   | entry :: rest =>
                       match processItem fuel' (path_join rt itemPath entry)
                                         totalSize with
                       | Return totalSize => each rest totalSize
                       | Throw e => Throw e
                       | Diverge => Diverge
                       end
                   end) (map d_name entries) totalSize
            end
          else Return (totalSize + st_size stats)
      end
  end.

Definition calculateDirectorySize (fuel : nat) (dirPath : string)
  : Outcome Exn Z :=
  processItem fuel dirPath 0.

End Sizing.

Section Local.
Variable rt : Runtime.
(** [fs.access(repoPath)] resolves. *)
Variable access : string -> bool.
Variable DEFAULT_IGNORE_PATTERNS : list string.

Definition sizeMessage (totalSize : Z) : string :=
  "Repository size (" +:+ Format.toFixed 1 totalSize (1024 * 1024) +:+
  "MB) exceeds maximum allowed size " +:+
  "(" +:+ Format.toFixed 1 MAX_TOTAL_SIZE_BYTES (1024 * 1024) +:+ "MB)".

(** [ingestLocalRepository], with [options.ignorePatterns] and
    [options.includePatterns] as arguments, as far as the tree and the
    [content] string. *)
Definition ingestLocalRepository (fuel : nat) (repoPath : string)
           (ignorePatterns includePatterns : option (list string))
  : Outcome Exn (FileNode * string) :=
  if negb (access repoPath) then
    Throw (Error ("Repository path does not exist: " +:+ repoPath))
  else
    match calculateDirectorySize rt fuel repoPath with
    | Return totalSize =>
        if MAX_TOTAL_SIZE_BYTES <? totalSize then
          Throw (Error (sizeMessage totalSize))
        else
          match QueryParser.parseQuery DEFAULT_IGNORE_PATTERNS repoPath
                                       ignorePatterns includePatterns with
          | Return query => fst (ingestRepository rt repoPath query)
          | Throw e => Throw e
          | Diverge => Diverge
          end
    | Throw e => Throw e
    | Diverge => Diverge
    end.
End Local.

End RepositoryIngest.

(* ===================================================================== *)
(** ** A small project on disk *)
(* ===================================================================== *)

Module Samples.
Import Ingestion Disk Trees.

(** A project of three files and two directories, one of them empty. *)
Definition project : disk :=
  [ ("/r", IDir [file "main.ts"; dir "src"; file "README.md"]);
    ("/r/main.ts", IFile 5 "hello");
    ("/r/src", IDir [file "a.ts"; dir "lib"]);
    ("/r/src/a.ts", IFile 3 "abc");
    ("/r/src/lib", IDir []);
    ("/r/README.md", IFile 2 "hi") ].

Definition projectTree : Tree :=
  TDir [ ("main.ts", TFile 5);
         ("src", TDir [("a.ts", TFile 3); ("lib", TDir [])]);
         ("README.md", TFile 2) ].

Definition projectRuntime : Runtime := runtime project Scenarios.noNotebooks.

(** The Nodes the walk of [project] builds. *)
Definition projectRoot : FileNode :=
  Scenarios.directoryNode "r" "/r"
    [ Scenarios.textNode "README.md" "/r/README.md" "hi";
      Scenarios.textNode "main.ts" "/r/main.ts" "hello";
      Scenarios.directoryNode "src" "/r/src"
        [ Scenarios.textNode "a.ts" "/r/src/a.ts" "abc";
          Scenarios.directoryNode "lib" "/r/src/lib" [] ] ].

End Samples.

(* ===================================================================== *)
(** ** notebook_utils.ts: [processNotebook] *)
(* ===================================================================== *)

Module Notebook.
Import Ingestion.

(** A value as [JSON.parse] returns it.  A number is carried as the
    text JavaScript prints for it; the members of an object are kept in
    source order, a later member replacing an earlier one of the same
    key. *)
#[local] Unset Elimination Schemes.
Inductive JSON : Type :=
| JNull
| JBool (b : bool)
| JNumber (printed : string)
| JString (s : string)
| JArray (items : list JSON)
| JObject (members : list (string * JSON)).
#[local] Set Elimination Schemes.

(** What the function can throw: its own error, a [TypeError] of the
    language, or whatever [readFile] rejects with. *)
Inductive Thrown : Type :=
| InvalidNotebook (message : string)
| TypeError
| ReadError (message : string).

Inductive Completion (A : Type) : Type :=
| Normal (a : A)
| Abrupt (e : Thrown).
Arguments Normal {A} a.
Arguments Abrupt {A} e.

Definition andThen {A B} (c : Completion A) (k : A -> Completion B)
  : Completion B :=
  match c with
  | Normal a => k a
  | Abrupt e => Abrupt e
  end.

Fixpoint lookup (members : list (string * JSON)) (key : string)
  : option JSON :=
  match members with
  | [] => None
  | (k, v) :: rest =>
      match lookup rest key with
      | Some later => Some later
      | None => if String.eqb k key then Some v else None
      end
  end.

(** [value.key] for one of the keys [cells], [cell_type] and [source],
    which no prototype defines: reading from [null] is a [TypeError],
    and anything but an object has no such property ([None] stands for
    [undefined]). *)
Definition member (value : JSON) (key : string)
  : Completion (option JSON) :=
  match value with
  | JNull => Abrupt TypeError
  | JObject members => Normal (lookup members key)
  | _ => Normal None
  end.

(** [String(value)]: an array is joined with commas, [null] elements
    giving the empty text; an object prints as [[object Object]] unless
    it has a member [toString], which is not callable and leaves the
    conversion without a primitive. *)
Fixpoint toString (value : JSON) : Completion string :=
  match value with
  | JNull => Normal "null"
  | JBool b => Normal (if b then "true" else "false")
  | JNumber printed => Normal printed
  | JString s => Normal s
  | JArray items =>
      (fix joined (items : list JSON) : Completion string :=
         match items with
         | [] => Normal ""
         | item :: rest =>
             andThen (match item with
                      | JNull => Normal ""
                      | _ => toString item
                      end)
                     (fun first =>
                        match rest with
                        | [] => Normal first
                        | _ => andThen (joined rest)
                                       (fun others =>
                                          Normal (first +:+ "," +:+ others))
                        end)
         end) items
  | JObject members =>
      match lookup members "toString" with
      | Some _ => Abrupt TypeError
      | None => Normal "[object Object]"
      end
  end.

(** [items.join(separator)] *)
Fixpoint joinItems (separator : string) (items : list JSON)
  : Completion string :=
  match items with
  | [] => Normal ""
  | item :: rest =>
      andThen (match item with
               | JNull => Normal ""
               | _ => toString item
               end)
              (fun first =>
                 match rest with
                 | [] => Normal first
                 | _ => andThen (joinItems separator rest)
                                (fun others =>
                                   Normal (first +:+ separator +:+ others))
                 end)
  end.

(** White space and line terminators among the code units below 256:
    TAB, LF, VT, FF, CR, SP and NBSP. *)
Definition isWhiteSpace (c : ascii) : bool :=
  let n := nat_of_ascii c in
  ((9 <=? n) && (n <=? 13) || (n =? 32) || (n =? 160))%nat.

Fixpoint trimStart (s : string) : string :=
  match s with
  | EmptyString => EmptyString
  | String c rest => if isWhiteSpace c then trimStart rest else s
  end.

Fixpoint trimEnd (s : string) : string :=
  match s with
  | EmptyString => EmptyString
  | String c rest =>
      match trimEnd rest with
      | EmptyString => if isWhiteSpace c then EmptyString
                       else String c EmptyString
      | kept => String c kept
      end
  end.

(** [String.prototype.trim] *)
Definition trim (s : string) : string := trimEnd (trimStart s).

(** [cell.cell_type === 'code' || cell.cell_type === 'markdown'] *)
Definition textual (cell_type : option JSON) : option string :=
  match cell_type with
  | Some (JString s) =>
      if String.eqb s "code" || String.eqb s "markdown" then Some s else None
  | _ => None
  end.

(** [if (trimmedContent) processedCells.push(`[${cell.cell_type}]\n...`)] *)
Definition pushCell (cell_type trimmedContent : string)
           (processedCells : list string) : list string :=
  if String.eqb trimmedContent "" then processedCells
  else processedCells ++ ["[" +:+ cell_type +:+ "]" +:+ LF +:+ trimmedContent].

(** The body of the loop over the cells. *)
Definition processCell (cell : JSON) (processedCells : list string)
  : Completion (list string) :=
  andThen (member cell "cell_type") (fun cell_type =>
  match textual cell_type with
  | Some cell_type =>
      andThen (member cell "source") (fun source =>
      match source with
      | Some (JArray items) =>
          andThen (joinItems "" items) (fun cellContent =>
          Normal (pushCell cell_type (trim cellContent) processedCells))
      | Some (JString s) =>
          Normal (pushCell cell_type (trim s) processedCells)
      | _ => Normal processedCells
      end)
  | None => Normal processedCells
  end).

Fixpoint processCells (cells : list JSON) (processedCells : list string)
  : Completion (list string) :=
  match cells with
  | [] => Normal processedCells
  | cell :: rest =>
      andThen (processCell cell processedCells) (processCells rest)
  end.

Section ProcessNotebook.
Variable rt : Runtime.
(** [JSON.parse]; [None] stands for its [SyntaxError]. *)
Variable JSON_parse : string -> option JSON.

Definition processNotebook (filePath : string) : Completion string :=
  match fs_readFile rt filePath with
  | inr message => Abrupt (ReadError message)
  | inl content =>
      match JSON_parse content with
      | None => Abrupt (InvalidNotebook "Invalid JSON in notebook file")
      | Some notebook =>
          andThen (member notebook "cells") (fun cells =>
          match cells with
          | Some (JArray cells) =>
              andThen (processCells cells []) (fun processedCells =>
              Normal (join (LF +:+ LF) processedCells))
          | _ =>
              Abrupt (InvalidNotebook
                "Invalid notebook format: missing or invalid cells array")
          end)
      end
  end.
End ProcessNotebook.

(** A block of the text: a label and a body. *)
Definition labelled (block : string) : Prop :=
  exists cell_type body,
    block = "[" +:+ cell_type +:+ "]" +:+ LF +:+ body /\
    (cell_type = "code" \/ cell_type = "markdown") /\
    body <> "" /\ trim body = body.

(** A cell the loop passes over: not [null], and its [cell_type] is
    neither [code] nor [markdown]. *)
Definition passedOver (cell : JSON) : bool :=
  match cell with
  | JNull => false
  | JObject members =>
      match textual (lookup members "cell_type") with
      | Some _ => false
      | None => true
      end
  | _ => true
  end.

(** A notebook given by its cells. *)
Definition notebookOf (cells : list JSON) : JSON :=
  JObject [("cells", JArray cells)].

(** A notebook of one code cell, as text and as [JSON.parse] reads it. *)
Definition quoted (s : string) : string :=
  String "034" EmptyString +:+ s +:+ String "034" EmptyString.

Definition notebookSource : string :=
  "{" +:+ quoted "cells" +:+ ": [{" +:+ quoted "cell_type" +:+ ": " +:+
  quoted "code" +:+ ", " +:+ quoted "source" +:+ ": " +:+
  quoted " x = 1 " +:+ "}]}".

Definition notebookCells : list JSON :=
  [ JObject [("cell_type", JString "code"); ("source", JString " x = 1 ")] ].

Definition parseSample (text : string) : option JSON :=
  if String.eqb text notebookSource then Some (notebookOf notebookCells)
  else None.

Definition notebookDisk : Disk.disk :=
  [ ("/r", Disk.IDir [Disk.file "nb.ipynb"]);
    ("/r/nb.ipynb", Disk.IFile 58 notebookSource) ].

End Notebook.

(* ===================================================================== *)
(** * Properties *)
(* ===================================================================== *)

(** ** The regex fragment *)

Module RegExpFacts.
Import RegExp.

Lemma star_at0 a k b b' s :
  (forall s', k b s' = k b' s') -> star a k b s = star a k b' s.
Proof. intros Hk. destruct s; cbn; now rewrite Hk. Qed.

Lemma match_terms_at0 r b b' s :
  noStart r = true -> match_terms r b s = match_terms r b' s.
Proof.
  revert b b' s. induction r as [|t r IH]; intros b b' s H; [reflexivity|].
  destruct t; cbn in H |- *; try discriminate.
  - destruct s; [now apply IH|reflexivity].
  - reflexivity.
  - apply star_at0. intros s'. now apply IH.
  - reflexivity.
Qed.

(** An anchored regex can only match at index 0. *)
Lemma search_anchored r s :
  search (TStart :: r) false s = false.
Proof. induction s as [|c s IH]; cbn; [reflexivity|exact IH]. Qed.

Lemma test_anchored r s :
  search (TStart :: r) true s = match_terms r true s.
Proof.
  destruct s as [|c s]; cbn [search match_terms andb].
  - now rewrite orb_false_r.
  - now rewrite search_anchored, orb_false_r.
Qed.

(** The repetition: some prefix of matching characters is consumed and
    the continuation accepts what is left. *)
Lemma star_spec a k b s :
  (forall b1 b2 s', k b1 s' = k b2 s') ->
  star a k b s = true <->
  exists run rest, s = run ++ rest /\
                   Forall (fun c => atom_matches a c = true) run /\
                   k false rest = true.
Proof.
  intros Hk. revert b. induction s as [|c s IH]; intros b; cbn [star].
  - split.
    + intros H. exists [], []. rewrite (Hk false b). auto.
    + intros (run & rest & E & _ & H).
      symmetry in E. apply app_eq_nil in E as [-> ->].
      now rewrite (Hk b false).
  - rewrite orb_true_iff, andb_true_iff, IH. split.
    + intros [[Hc (run & rest & -> & Hrun & H)] | H].
      * exists (c :: run), rest. auto.
      * exists [], (c :: s). rewrite (Hk false b). auto.
    + intros (run & rest & E & Hrun & H).
      destruct run as [|c' run]; cbn in E.
      * right. subst rest. now rewrite (Hk b false).
      * injection E as -> ->. inversion Hrun; subst.
        left. split; [assumption|]. exists run, rest. auto.
Qed.

End RegExpFacts.

(** ** utils.ts: [fnmatch] *)

Module UtilsFacts.
Import RegExp RegExpFacts Utils Spec.

Ltac each_ascii c := destruct c as [[] [] [] [] [] [] [] []].

Lemma regexPattern_cons c r :
  list_ascii_of_string (regexPattern (String c r)) =
  image c ++ list_ascii_of_string (regexPattern r).
Proof. unfold regexPattern. each_ascii c; reflexivity. Qed.

Lemma regexPattern_image pattern :
  list_ascii_of_string (regexPattern pattern) =
  flat_map image (list_ascii_of_string pattern).
Proof.
  induction pattern as [|c r IH]; [reflexivity|].
  rewrite regexPattern_cons, IH. reflexivity.
Qed.

Lemma lex_image c rest :
  lex (image c ++ rest) =
  match lex rest with
  | Some ts => Some (tokens c ++ ts)
  | None => None
  end.
Proof. each_ascii c; cbn; destruct (lex rest); reflexivity. Qed.

Lemma lex_images l rest :
  lex (flat_map image l ++ rest) =
  match lex rest with
  | Some ts => Some (flat_map tokens l ++ ts)
  | None => None
  end.
Proof.
  induction l as [|c l IH]; cbn [flat_map].
  - cbn [app]. destruct (lex rest); reflexivity.
  - rewrite <- app_assoc, lex_image, IH.
    destruct (lex rest); [rewrite <- app_assoc|]; reflexivity.
Qed.

Lemma atomFirst_tokens l ts :
  atomFirst ts -> atomFirst (flat_map tokens l ++ ts).
Proof.
  destruct l as [|c l]; [exact (fun H => H)|].
  intros _. cbn [flat_map]. unfold tokens.
  destruct (Ascii.eqb c "*"); [exact I|].
  destruct (Ascii.eqb c "?"); exact I.
Qed.

Lemma build_tokens c ts :
  atomFirst ts ->
  build (tokens c ++ ts) = cons (termOf c) <$> build ts.
Proof.
  intros H. unfold tokens, termOf.
  destruct (Ascii.eqb c "*"); [reflexivity|].
  destruct (Ascii.eqb c "?");
    destruct ts as [|[] ts]; cbn in *; try reflexivity; contradiction.
Qed.

Lemma build_all l :
  build (flat_map tokens l ++ [KEnd]) = Some (map termOf l ++ [TEnd]).
Proof.
  induction l as [|c l IH]; [reflexivity|].
  cbn [flat_map map]. rewrite <- app_assoc, build_tokens, IH; [reflexivity|].
  apply atomFirst_tokens. exact I.
Qed.

Lemma list_ascii_of_string_app a b :
  list_ascii_of_string (a +:+ b) =
  list_ascii_of_string a ++ list_ascii_of_string b.
Proof.
  induction a as [|c a IH]; [reflexivity|].
  change (c :: list_ascii_of_string (a +:+ b) =
          c :: (list_ascii_of_string a ++ list_ascii_of_string b)).
  now rewrite IH.
Qed.

(** [new RegExp] never throws on the source [fnmatch] hands it, and the
    regex it builds has one term per pattern character. *)
Lemma fnmatch_source_parses pattern :
  parse ("^" +:+ regexPattern pattern +:+ "$") =
  Some (TStart :: map termOf (list_ascii_of_string pattern) ++ [TEnd]).
Proof.
  unfold parse.
  rewrite !list_ascii_of_string_app, regexPattern_image.
  change (list_ascii_of_string "^") with ["^"%char].
  change (list_ascii_of_string "$") with ["$"%char].
  change (lex (["^"%char] ++ ?l)) with (cons KStart <$> lex l).
  rewrite lex_images.
  change (lex ["$"%char]) with (Some [KEnd]).
  cbn [fmap option_fmap option_map mbind option_bind build].
  rewrite build_all. reflexivity.
Qed.

(** *** What the regex of [fnmatch] accepts *)

Lemma noStart_terms l : noStart (map termOf l ++ [TEnd]) = true.
Proof.
  induction l as [|c l IH]; [reflexivity|].
  cbn [map app]. unfold termOf at 1.
  destruct (Ascii.eqb c "*"); [exact IH|].
  destruct (Ascii.eqb c "?"); exact IH.
Qed.

Lemma glob_terms l s b :
  match_terms (map termOf l ++ [TEnd]) b s = true <->
  glob notLineTerminator l s.
Proof.
  revert s b. induction l as [|c l IH]; intros s b.
  - cbn. split.
    + destruct s; [constructor|discriminate].
    + inversion 1. reflexivity.
  - cbn [map app]. unfold termOf at 1.
    destruct (Ascii.eqb c "*") eqn:Estar.
    { apply Ascii.eqb_eq in Estar as ->. cbn [match_terms].
      rewrite star_spec
        by (intros; apply match_terms_at0, noStart_terms).
      split.
      - intros (run & rest & -> & Hrun & H). constructor.
        + eapply List.Forall_impl; [|exact Hrun]. cbn.
          intros x Hx. unfold notLineTerminator.
          now apply negb_true_iff.
        + now apply (IH rest false).
      - inversion 1 as [|p run rest Hrun Hrest| |]; subst.
        + exists run, rest. split; [reflexivity|]. split.
          * eapply List.Forall_impl; [|exact Hrun]. cbn.
            intros x Hx. now apply negb_true_iff.
          * now apply (IH rest false).
        + congruence. }
    destruct (Ascii.eqb c "?") eqn:Equest.
    { apply Ascii.eqb_eq in Equest as ->. cbn [match_terms atom_matches].
      split.
      - destruct s as [|x s]; [discriminate|].
        rewrite andb_true_iff, negb_true_iff. intros [Hx H].
        constructor; [exact Hx|]. now apply (IH s false).
      - inversion 1 as [| |p x rest Hx Hrest|]; subst.
        + rewrite andb_true_iff, negb_true_iff. split; [exact Hx|].
          now apply (IH rest false).
        + congruence. }
    apply Ascii.eqb_neq in Estar, Equest.
    cbn [match_terms atom_matches]. split.
    + destruct s as [|x s]; [discriminate|].
      rewrite andb_true_iff, Ascii.eqb_eq. intros [-> H].
      constructor; [assumption..|]. now apply (IH s false).
    + inversion 1; subst; try congruence.
      rewrite andb_true_iff, Ascii.eqb_eq. split; [reflexivity|].
      now apply (IH rest false).
Qed.

(** [fnmatch] decides glob matching in which a wildcard stands for
    characters other than line terminators. *)
Theorem fnmatch_glob name pattern :
  fnmatch name pattern = true <-> matches notLineTerminator name pattern.
Proof.
  unfold fnmatch, matches, test.
  rewrite fnmatch_source_parses, test_anchored. apply glob_terms.
Qed.

Lemma glob_wild_mono (P Q : ascii -> Prop) l s :
  (forall c, In c s -> P c -> Q c) -> glob P l s -> glob Q l s.
Proof.
  intros HPQ H.
  induction H as [|p run rest Hrun H IH|p c rest Hc H IH
                  |p c rest H1 H2 H IH].
  - constructor.
  - constructor.
    + apply List.Forall_forall. intros x Hx.
      apply HPQ; [apply in_or_app; now left|].
      revert x Hx. now apply List.Forall_forall.
    + apply IH. intros c Hc. apply HPQ. apply in_or_app. now right.
  - constructor; [apply HPQ; [now left|assumption]|].
    apply IH. intros x Hx. apply HPQ. now right.
  - constructor; [assumption..|].
    apply IH. intros x Hx. apply HPQ. now right.
Qed.

(** On candidates without line terminators [fnmatch] is the matcher of
    section 4.2. *)
Theorem fnmatch_spec_single_line name pattern :
  Forall notLineTerminator (list_ascii_of_string name) ->
  (fnmatch name pattern = true <-> matches anyChar name pattern).
Proof.
  intros Hname. rewrite fnmatch_glob. unfold matches. split.
  - apply glob_wild_mono. intros; exact I.
  - apply glob_wild_mono. intros c Hc _.
    revert c Hc. now apply List.Forall_forall.
Qed.

End UtilsFacts.

(** ** query_parser.ts: [validatePattern], [parseQuery] *)

Module QueryParserFacts.
Import RegExp RegExpFacts QueryParser Spec.

Lemma allowed_existsb c :
  allowed c <->
  existsb (Ascii.eqb c) (list_ascii_of_string allowedChars) = true.
Proof.
  unfold allowed. rewrite existsb_exists. split.
  - intros H. exists c. split; [exact H|apply Ascii.eqb_refl].
  - intros (x & Hx & E). now apply Ascii.eqb_eq in E as ->.
Qed.

(** The class of the regex literal is the class the specification
    names. *)
Lemma validChar_allowed c : validChar c = true <-> allowed c.
Proof.
  rewrite allowed_existsb.
  destruct c as [[] [] [] [] [] [] [] []]; vm_compute; split; congruence.
Qed.

Lemma test_validPattern pattern :
  test validPattern pattern = true <->
  pattern <> "" /\ Forall allowed (list_ascii_of_string pattern).
Proof.
  unfold test, validPattern. rewrite test_anchored.
  destruct pattern as [|c s]; cbn [list_ascii_of_string match_terms].
  - split; [discriminate|]. intros [H _]. now contradiction H.
  - cbn [atom_matches]. rewrite andb_true_iff, star_spec by reflexivity.
    rewrite validChar_allowed. split.
    + intros (Hc & run & rest & E & Hrun & Hrest). split; [discriminate|].
      constructor; [exact Hc|].
      destruct rest; [|discriminate]. rewrite app_nil_r in E. rewrite E.
      eapply List.Forall_impl; [|exact Hrun].
      intros x Hx. now apply validChar_allowed.
    + intros [_ H]. inversion H as [|x l Hc Hs]; subst.
      split; [exact Hc|]. exists (list_ascii_of_string s), [].
      rewrite app_nil_r. repeat split.
      eapply List.Forall_impl; [|exact Hs].
      intros x Hx. now apply validChar_allowed.
Qed.

(** [validatePattern] accepts exactly the non-empty strings over the
    allowed class. *)
Lemma validatePattern_accepts pattern :
  validatePattern pattern = Return tt <->
  pattern <> "" /\ Forall allowed (list_ascii_of_string pattern).
Proof.
  rewrite <- test_validPattern. unfold validatePattern.
  destruct (test validPattern pattern); cbn; split; congruence.
Qed.

Lemma validatePattern_cases pattern :
  validatePattern pattern = Return tt \/
  validatePattern pattern = Throw (InvalidPatternError pattern).
Proof. unfold validatePattern. destruct (test _ _); cbn; auto. Qed.

Lemma forbidden_rejected pattern :
  hasForbiddenChar pattern ->
  validatePattern pattern = Throw (InvalidPatternError pattern).
Proof.
  intros (c & Hin & Hc).
  destruct (validatePattern_cases pattern) as [H|H]; [|exact H].
  apply validatePattern_accepts in H as [_ H].
  contradiction Hc. revert Hin. generalize c. now apply List.Forall_forall.
Qed.

Lemma empty_rejected : validatePattern "" = Throw (InvalidPatternError "").
Proof. reflexivity. Qed.

Lemma rejected_iff pattern :
  rejected pattern <->
  validatePattern pattern = Throw (InvalidPatternError pattern).
Proof.
  split.
  - intros [->|H]; [apply empty_rejected|now apply forbidden_rejected].
  - intros H. destruct pattern as [|c s]; [now left|right].
    assert (N : ~ Forall allowed (list_ascii_of_string (String c s))).
    { intros F. assert (A : validatePattern (String c s) = Return tt)
        by (apply validatePattern_accepts; split; [discriminate|exact F]).
      congruence. }
    apply List.neg_Forall_Exists_neg in N.
    + apply List.Exists_exists in N as (x & Hx & Hn). now exists x.
    + intros x. destruct (validChar x) eqn:E.
      * left. now apply validChar_allowed.
      * right. intros A. apply validChar_allowed in A. congruence.
Qed.

(** The validation loop stops at the first rejected pattern. *)
Lemma addPatterns_rejects patterns final p :
  In p patterns -> rejected p ->
  exists q, addPatterns patterns final = Throw (InvalidPatternError q) /\
            In q patterns /\ rejected q.
Proof.
  revert final. induction patterns as [|x rest IH]; intros final Hin Hp.
  - contradiction.
  - cbn [addPatterns].
    destruct (validatePattern_cases x) as [E|E]; rewrite E.
    + destruct Hin as [->|Hin].
      * apply rejected_iff in Hp. congruence.
      * destruct (IH (Set_add final x) Hin Hp) as (q & Hq & Hqin & Hqr).
        exists q. repeat split; [exact Hq|now right|exact Hqr].
    + exists x. repeat split; [now left|now apply rejected_iff].
Qed.

Lemma addPatterns_outcome patterns final :
  (exists s, addPatterns patterns final = Return s) \/
  (exists q, addPatterns patterns final = Throw (InvalidPatternError q) /\
             In q patterns /\ rejected q).
Proof.
  revert final. induction patterns as [|x rest IH]; intros final.
  - left. now exists final.
  - cbn [addPatterns].
    destruct (validatePattern_cases x) as [E|E]; rewrite E.
    + destruct (IH (Set_add final x)) as [H|(q & Hq & Hin & Hr)];
        [now left|right].
      exists q. repeat split; [exact Hq|now right|exact Hr].
    + right. exists x. repeat split; [now left|now apply rejected_iff].
Qed.

(** With a non-empty root, a rejected pattern anywhere in either list
    makes the whole call throw [InvalidPatternError]. *)
Lemma parseQuery_rejects defaults repository ignorePatterns includePatterns p :
  repository <> "" ->
  In p (supplied ignorePatterns includePatterns) -> rejected p ->
  exists q,
    parseQuery defaults repository ignorePatterns includePatterns =
      Throw (InvalidPatternError q) /\
    In q (supplied ignorePatterns includePatterns) /\ rejected q.
Proof.
  intros Hrepo Hin Hp. unfold parseQuery, supplied in *.
  apply String.eqb_neq in Hrepo. rewrite Hrepo.
  apply in_app_or in Hin.
  destruct ignorePatterns as [ign|]; cbn [default] in *.
  - destruct (addPatterns_outcome ign (Set_from defaults))
      as [[s Hs]|(q & Hq & Hqin & Hqr)].
    + rewrite Hs. destruct Hin as [Hin|Hin].
      * destruct (addPatterns_rejects ign (Set_from defaults) p Hin Hp)
          as (q & Hq & _). congruence.
      * destruct includePatterns as [inc|]; cbn [default] in *;
          [|contradiction].
        destruct (addPatterns_rejects inc (Set_from []) p Hin Hp)
          as (q & Hq & Hqin & Hqr).
        rewrite Hq. exists q. repeat split; [|exact Hqr].
        apply in_or_app. now right.
    + rewrite Hq. exists q. repeat split; [|exact Hqr].
      apply in_or_app. now left.
  - destruct Hin as [Hin|Hin]; [contradiction|].
    destruct includePatterns as [inc|]; cbn [default] in *;
      [|contradiction].
    destruct (addPatterns_rejects inc (Set_from []) p Hin Hp)
      as (q & Hq & Hqin & Hqr).
    rewrite Hq. exists q. repeat split; [exact Hqin|exact Hqr].
Qed.

End QueryParserFacts.

(** ** [Array.prototype.sort] *)

Module SortFacts.

Section Sort.
Context {A : Type} (cmp : A -> A -> Z).

Lemma insert_by_perm x l : Permutation (x :: l) (insert_by cmp x l).
Proof.
  induction l as [|y r IH]; cbn; [reflexivity|].
  destruct (cmp x y <=? 0); [reflexivity|].
  rewrite perm_swap. now constructor.
Qed.

Lemma sort_perm l : Permutation l (JS.sort cmp l).
Proof.
  induction l as [|x l IH]; cbn; [reflexivity|].
  rewrite <- insert_by_perm. now constructor.
Qed.

Hypothesis before_total : forall a b, before cmp a b \/ before cmp b a.
Hypothesis before_trans :
  forall a b c, before cmp a b -> before cmp b c -> before cmp a c.

Lemma insert_by_sorted x l :
  StronglySorted (before cmp) l ->
  StronglySorted (before cmp) (insert_by cmp x l).
Proof.
  induction 1 as [|y r Hr IH Hy]; cbn.
  - repeat constructor.
  - destruct (Z.leb_spec (cmp x y) 0) as [Hxy|Hxy].
    + constructor; [now constructor|].
      constructor; [exact Hxy|].
      eapply List.Forall_impl; [|exact Hy].
      intros z Hz. now apply before_trans with y.
    + constructor; [exact IH|].
      rewrite <- insert_by_perm. constructor; [|exact Hy].
      destruct (before_total x y) as [H|H]; [unfold before in H; lia|exact H].
Qed.

Lemma sort_sorted l : StronglySorted (before cmp) (JS.sort cmp l).
Proof.
  induction l as [|x l IH]; cbn; [constructor|].
  now apply insert_by_sorted.
Qed.
End Sort.

Lemma sorted_impl {A} (R R' : A -> A -> Prop) (l : list A) :
  (forall a b, R a b -> R' a b) -> StronglySorted R l -> StronglySorted R' l.
Proof.
  intros HR. induction 1 as [|a l Hs IH Ha]; constructor; [exact IH|].
  eapply List.Forall_impl; [|exact Ha]. intros b. apply HR.
Qed.

(** In a strongly sorted list the element at the smaller index is
    related to the one at the larger index. *)
Lemma sorted_lookup {A} (R : A -> A -> Prop) (l : list A) i j x y :
  StronglySorted R l -> (i < j)%nat ->
  l !! i = Some x -> l !! j = Some y -> R x y.
Proof.
  intros Hs. revert i j. induction Hs as [|a l Hs IH Ha]; intros i j Hij Hi Hj.
  - discriminate.
  - destruct j as [|j]; [lia|]. cbn in Hj. destruct i as [|i].
    + cbn in Hi. injection Hi as ->.
      apply list_elem_of_lookup_2 in Hj. apply list_elem_of_In in Hj.
      clear IH. revert Hj. generalize y. now apply List.Forall_forall.
    + cbn in Hi. apply (IH i j); [lia|assumption..].
Qed.

End SortFacts.

(** ** query_ingestion.ts: child ordering *)

Module OrderFacts.
Import Ingestion Spec SortFacts.

Section Order.
Variable rt : Runtime.

(** The comparator puts [a] before or level with [b] exactly when the
    order of section 4.5 lets [a] stand before [b]. *)
Lemma compareChildren_precedes a b :
  compareChildren rt a b <= 0 <-> precedes (localeCompare rt) a b.
Proof.
  unfold compareChildren, precedes, isReadme, isHidden.
  destruct (String.eqb (toLowerCase (name a)) "readme.md");
    [split; [now left|lia]|].
  destruct (String.eqb (toLowerCase (name b)) "readme.md");
    [split; [lia|intros [H|[H _]]; discriminate]|].
  destruct (isDirectory a), (isDirectory b),
    (startsWith (name a) "."), (startsWith (name b) ".");
    cbn; split; intros H; try lia;
    try (right; split; [reflexivity|]; tauto);
    try (destruct H as [H|[_ [[H1 H2]|[H1 [[H2 H3]|[H2 H3]]]]]];
         try discriminate; try lia).
Qed.

Hypothesis collate_total : collationTotal (localeCompare rt).
Hypothesis collate_trans : collationTransitive (localeCompare rt).

Lemma precedes_total a b :
  precedes (localeCompare rt) a b \/ precedes (localeCompare rt) b a.
Proof.
  unfold precedes.
  destruct (collate_total (name a) (name b));
    destruct (isReadme a), (isReadme b), (isDirectory a), (isDirectory b),
      (isHidden a), (isHidden b); tauto.
Qed.

Lemma precedes_trans a b c :
  precedes (localeCompare rt) a b -> precedes (localeCompare rt) b c ->
  precedes (localeCompare rt) a c.
Proof.
  unfold precedes. intros Hab Hbc.
  destruct (isReadme a); [now left|right].
  destruct Hab as [Hab|[Hb Hab]]; [discriminate|]. rewrite Hb in Hbc.
  destruct Hbc as [Hbc|[Hc Hbc]]; [discriminate|].
  split; [exact Hc|].
  pose proof (collate_trans (name a) (name b) (name c)) as T.
  destruct (isDirectory a), (isDirectory b), (isDirectory c),
    (isHidden a), (isHidden b), (isHidden c);
    intuition (try discriminate).
Qed.

Lemma sortChildren_sorted cs :
  StronglySorted (precedes (localeCompare rt)) (sortChildren rt cs).
Proof.
  eapply sorted_impl; [|apply sort_sorted].
  - intros a b. apply compareChildren_precedes.
  - intros a b. unfold before. rewrite !compareChildren_precedes.
    apply precedes_total.
  - intros a b c. unfold before. rewrite !compareChildren_precedes.
    apply precedes_trans.
Qed.

(** No entry that is not a readme stands before a readme. *)
Lemma readme_first (cs : list FileNode) i j x r :
  StronglySorted (precedes (localeCompare rt)) cs ->
  cs !! i = Some x -> cs !! j = Some r ->
  isReadme r = true -> isReadme x = false -> (j < i)%nat.
Proof.
  intros Hs Hi Hj Hr Hx.
  destruct (Nat.lt_trichotomy j i) as [H|[->|H]]; [exact H| |].
  - congruence.
  - pose proof (sorted_lookup _ _ _ _ _ _ Hs H Hi Hj) as [P|[P _]];
      congruence.
Qed.
End Order.

End OrderFacts.

(** ** query_ingestion.ts: the tree walker *)

Module WalkerFacts.
Import Ingestion Spec.

Ltac run := unfold bind, ret, throw, await, getStats, setStats, seenHas,
              seenAdd, consoleError, try_catch, diverge in *; cbn in *.

Section Files.
Variable rt : Runtime.

Lemma isTextFile_probe filePath bytes :
  fs_bytes rt filePath = Some bytes ->
  isTextFile rt filePath = true <-> ~ hasNull (probe bytes).
Proof.
  intros E. unfold isTextFile, hasNull, probe. rewrite E.
  assert (F : forallb (fun b => negb (Byte.eqb b Byte.x00))
                      (firstn 1024 bytes) = true
              <-> ~ In Byte.x00 (firstn 1024 bytes)).
  { rewrite forallb_forall. split.
    - intros H Hin. specialize (H _ Hin). discriminate.
    - intros H b Hb. apply negb_true_iff.
      destruct (Byte.eqb b Byte.x00) eqn:Eb; [|reflexivity].
      apply Byte.byte_dec_bl in Eb. now subst. }
  destruct (firstn 1024 bytes) as [|b l] eqn:El.
  - cbn. split; [intros _ []|reflexivity].
  - cbn [length Nat.eqb]. exact F.
Qed.

Lemma isTextFile_unreadable filePath :
  fs_bytes rt filePath = None -> isTextFile rt filePath = false.
Proof. intros E. unfold isTextFile. now rewrite E. Qed.

Lemma processFile_stat_fails filePath parentNode w :
  fs_stat rt filePath = None ->
  processFile rt filePath parentNode w = (Throw (FsError filePath), w).
Proof. intros E. unfold processFile. run. now rewrite E. Qed.

Lemma processFile_maxFiles filePath parentNode w fileStats :
  fs_stat rt filePath = Some fileStats ->
  MAX_FILES <= totalFiles (stats w) ->
  processFile rt filePath parentNode w =
    (Throw (MaxFilesReachedError MAX_FILES), w).
Proof.
  intros E H. unfold processFile. run. rewrite E. cbn.
  apply Z.leb_le in H. now rewrite H.
Qed.

Lemma processFile_maxFileSize filePath parentNode w fileStats :
  fs_stat rt filePath = Some fileStats ->
  totalFiles (stats w) < MAX_FILES ->
  MAX_FILE_SIZE < st_size fileStats ->
  processFile rt filePath parentNode w =
    (Throw (MaxFileSizeReachedError MAX_FILE_SIZE), w).
Proof.
  intros E H1 H2. unfold processFile. run. rewrite E. cbn.
  apply Z.leb_gt in H1. apply Z.ltb_lt in H2. now rewrite H1, H2.
Qed.

(** Past both checks the file is counted, whatever happens next. *)
Lemma processFile_counted filePath parentNode w fileStats :
  fs_stat rt filePath = Some fileStats ->
  totalFiles (stats w) < MAX_FILES ->
  st_size fileStats <= MAX_FILE_SIZE ->
  processFile rt filePath parentNode w =
    (if isTextFile rt filePath then
       if endsWith filePath ".ipynb" then
         match processNotebook rt filePath with
         | Some text =>
             Return (pushChild parentNode
                       (fileNode rt filePath (st_size fileStats) (Some text)))
         | None => Throw (InvalidNotebookError filePath)
         end
       else
         Return (pushChild parentNode
                   (fileNode rt filePath (st_size fileStats)
                      (Some (readFileContent rt filePath))))
     else
       Return (pushChild parentNode
                 (fileNode rt filePath (st_size fileStats) None)),
     counted w (st_size fileStats)).
Proof.
  intros E H1 H2. unfold processFile. run. rewrite E. cbn.
  apply Z.leb_gt in H1. apply Z.ltb_ge in H2. rewrite H1, H2.
  destruct (isTextFile rt filePath); [|reflexivity].
  destruct (endsWith filePath ".ipynb"); [|reflexivity].
  destruct (processNotebook rt filePath); reflexivity.
Qed.

(** The four ways [processFile] can end. *)
Lemma processFile_cases filePath parentNode w :
  (processFile rt filePath parentNode w = (Throw (FsError filePath), w)) \/
  (processFile rt filePath parentNode w =
     (Throw (MaxFilesReachedError MAX_FILES), w) /\
   MAX_FILES <= totalFiles (stats w)) \/
  (processFile rt filePath parentNode w =
     (Throw (MaxFileSizeReachedError MAX_FILE_SIZE), w)) \/
  (exists fileSize,
     totalFiles (stats w) < MAX_FILES /\ 0 <= MAX_FILE_SIZE - fileSize /\
     snd (processFile rt filePath parentNode w) = counted w fileSize /\
     ((exists text, fst (processFile rt filePath parentNode w) =
        Return (pushChild parentNode (fileNode rt filePath fileSize text))) \/
      fst (processFile rt filePath parentNode w) =
        Throw (InvalidNotebookError filePath))).
Proof.
  destruct (fs_stat rt filePath) as [fileStats|] eqn:E;
    [|left; now apply processFile_stat_fails].
  destruct (Z.le_gt_cases MAX_FILES (totalFiles (stats w))) as [H1|H1];
    [right; left; split;
     [now apply processFile_maxFiles with fileStats|exact H1]|].
  destruct (Z.lt_ge_cases MAX_FILE_SIZE (st_size fileStats)) as [H2|H2];
    [right; right; left; now apply processFile_maxFileSize with fileStats|].
  right; right; right. exists (st_size fileStats).
  rewrite (processFile_counted _ _ _ _ E H1 H2). cbn [fst snd].
  repeat split; [exact H1|lia|].
  destruct (isTextFile rt filePath); [|left; eauto].
  destruct (endsWith filePath ".ipynb"); [|left; eauto].
  destruct (processNotebook rt filePath); [left; eauto|now right].
Qed.
End Files.

Section Entries.
Variable rt : Runtime.
Variable query : ParsedQuery.
Variable scan : string -> Z -> M (option FileNode).

Lemma isSafeSymlink_outside symlinkPath targetPath baseResolved :
  fs_realpath rt symlinkPath = Some targetPath ->
  fs_realpath rt (repository query) = Some baseResolved ->
  startsWith targetPath baseResolved = false ->
  isSafeSymlink rt symlinkPath (repository query) = false.
Proof. intros E1 E2 H. unfold isSafeSymlink. now rewrite E1, E2. Qed.

Lemma processSymlink_unsafe symlinkPath parentNode depth w :
  isSafeSymlink rt symlinkPath (repository query) = false ->
  processSymlink rt query scan symlinkPath parentNode depth w =
    (Return parentNode, w).
Proof. intros E. unfold processSymlink. now rewrite E. Qed.

Lemma processSymlink_visited symlinkPath parentNode depth w targetPath :
  isSafeSymlink rt symlinkPath (repository query) = true ->
  fs_realpath rt symlinkPath = Some targetPath ->
  targetPath ∈ seenPaths w ->
  processSymlink rt query scan symlinkPath parentNode depth w =
    (Throw (AlreadyVisitedError targetPath), w).
Proof.
  intros E1 E2 Hin. unfold processSymlink. rewrite E1. run. rewrite E2. cbn.
  now rewrite bool_decide_eq_true_2.
Qed.

(** A safe symlink to a directory that is not in the VisitedSet is
    followed: the target is recorded, then walked one level deeper. *)
Lemma processSymlink_follows symlinkPath parentNode depth w targetPath
      targetStats :
  isSafeSymlink rt symlinkPath (repository query) = true ->
  fs_realpath rt symlinkPath = Some targetPath ->
  targetPath ∉ seenPaths w ->
  fs_stat rt targetPath = Some targetStats ->
  st_isDirectory targetStats = true ->
  processSymlink rt query scan symlinkPath parentNode depth w =
    match scan targetPath (depth + 1) (visited w targetPath) with
    | (Return (Some childNode), w') =>
        (Return (pushChild parentNode childNode), w')
    | (Return None, w') => (Return parentNode, w')
    | (Throw e, w') => (Throw e, w')
    | (Diverge, w') => (Diverge, w')
    end.
Proof.
  intros E1 E2 Hnot E3 E4. unfold processSymlink. rewrite E1. run.
  rewrite E2. cbn. rewrite bool_decide_eq_false_2 by assumption.
  rewrite E3. cbn. rewrite E4. unfold visited.
  destruct (scan targetPath (depth + 1) _) as [[[c|]|e|] w']; reflexivity.
Qed.

(** Ordinary descent into a directory entry records nothing: the walk
    of the entry starts from the run state as it is. *)
Lemma dispatchEntry_descends entry entryPath node depth w :
  isSymbolicLink entry = false ->
  isDirectoryEntry entry = true ->
  dispatchEntry rt query scan entry entryPath node depth w =
    match scan entryPath (depth + 1) w with
    | (Return (Some childNode), w') =>
        (Return (pushChildOpt node childNode), w')
    | (Return None, w') => (Return node, w')
    | (Throw e, w') => (Throw e, w')
    | (Diverge, w') => (Diverge, w')
    end.
Proof.
  intros E1 E2. unfold dispatchEntry. rewrite E1, E2. unfold bind.
  destruct (scan entryPath (depth + 1) w) as [[[c|]|e|] w']; reflexivity.
Qed.

(** A recorded target was reached through a safe symlink, so any
    symlink resolving to it is safe as well. *)
Lemma visited_is_safe symlinkPath targetPath w :
  visitedSafe rt query w ->
  fs_realpath rt symlinkPath = Some targetPath ->
  targetPath ∈ seenPaths w ->
  isSafeSymlink rt symlinkPath (repository query) = true.
Proof.
  intros Hsafe E Hin. destruct (Hsafe _ Hin) as (base & Eb & Hp).
  unfold isSafeSymlink. now rewrite E, Eb.
Qed.

(** One round of the loop over an entry that is filtered out. *)
Lemma scanEntries_excluded dirPath depth entry rest node :
  shouldExclude rt (path_join rt dirPath (d_name entry))
                (repository query) (ignorePatterns query) = true ->
  scanEntries rt query scan dirPath depth (entry :: rest) node =
  scanEntries rt query scan dirPath depth rest node.
Proof. intros E. cbn [scanEntries]. now rewrite E. Qed.

Lemma scanEntries_not_included dirPath depth entry rest node :
  shouldInclude rt (path_join rt dirPath (d_name entry))
                (repository query) (includePatterns query) = false ->
  scanEntries rt query scan dirPath depth (entry :: rest) node =
  scanEntries rt query scan dirPath depth rest node.
Proof.
  intros E. cbn [scanEntries]. rewrite E.
  now destruct (shouldExclude _ _ _ _).
Qed.

(** One round of the loop over an entry that passes the filters. *)
Lemma scanEntries_step dirPath depth entry rest node w :
  let entryPath := path_join rt dirPath (d_name entry) in
  shouldExclude rt entryPath (repository query) (ignorePatterns query)
    = false ->
  shouldInclude rt entryPath (repository query) (includePatterns query)
    = true ->
  scanEntries rt query scan dirPath depth (entry :: rest) node w =
  match dispatchEntry rt query scan entry entryPath node depth w with
  | (Return node', w') =>
      scanEntries rt query scan dirPath depth rest node' w'
  | (Throw e, w') =>
      if isLimitError e then (Throw e, w')
      else scanEntries rt query scan dirPath depth rest node
                       (logged w' (ErrorProcessing entryPath e))
  | (Diverge, w') => (Diverge, w')
  end.
Proof.
  intros entryPath E1 E2. cbn [scanEntries]. fold entryPath.
  rewrite E1, E2. cbn [negb]. unfold bind at 1, try_catch.
  destruct (dispatchEntry rt query scan entry entryPath node depth w)
    as [[node'|e|] w']; try reflexivity.
  destruct (isLimitError e); reflexivity.
Qed.

Lemma scanEntries_unsafe_symlink dirPath depth entry rest node w :
  isSymbolicLink entry = true ->
  isSafeSymlink rt (path_join rt dirPath (d_name entry))
                (repository query) = false ->
  scanEntries rt query scan dirPath depth (entry :: rest) node w =
  scanEntries rt query scan dirPath depth rest node w.
Proof.
  intros Hl Hu.
  destruct (shouldExclude rt (path_join rt dirPath (d_name entry))
              (repository query) (ignorePatterns query)) eqn:E1;
    [now rewrite scanEntries_excluded|].
  destruct (shouldInclude rt (path_join rt dirPath (d_name entry))
              (repository query) (includePatterns query)) eqn:E2;
    [|now rewrite scanEntries_not_included].
  rewrite scanEntries_step by assumption.
  unfold dispatchEntry. rewrite Hl.
  now rewrite processSymlink_unsafe.
Qed.

Lemma scanEntries_visited_symlink dirPath depth entry rest node w targetPath :
  let entryPath := path_join rt dirPath (d_name entry) in
  isSymbolicLink entry = true ->
  shouldExclude rt entryPath (repository query) (ignorePatterns query)
    = false ->
  shouldInclude rt entryPath (repository query) (includePatterns query)
    = true ->
  isSafeSymlink rt entryPath (repository query) = true ->
  fs_realpath rt entryPath = Some targetPath ->
  targetPath ∈ seenPaths w ->
  scanEntries rt query scan dirPath depth (entry :: rest) node w =
  scanEntries rt query scan dirPath depth rest node
    (logged w (ErrorProcessing entryPath (AlreadyVisitedError targetPath))).
Proof.
  intros entryPath Hl E1 E2 Hs Er Hin.
  rewrite scanEntries_step by assumption. fold entryPath.
  unfold dispatchEntry. rewrite Hl.
  now rewrite (processSymlink_visited _ _ _ _ targetPath).
Qed.

(** A regular file met when the count is exhausted, or one that is
    too large, makes the loop throw at once. *)
Lemma scanEntries_limit dirPath depth entry rest node w fileStats :
  let entryPath := path_join rt dirPath (d_name entry) in
  d_type entry = Other ->
  shouldExclude rt entryPath (repository query) (ignorePatterns query)
    = false ->
  shouldInclude rt entryPath (repository query) (includePatterns query)
    = true ->
  fs_stat rt entryPath = Some fileStats ->
  (MAX_FILES <= totalFiles (stats w) ->
   scanEntries rt query scan dirPath depth (entry :: rest) node w =
     (Throw (MaxFilesReachedError MAX_FILES), w)) /\
  (totalFiles (stats w) < MAX_FILES -> MAX_FILE_SIZE < st_size fileStats ->
   scanEntries rt query scan dirPath depth (entry :: rest) node w =
     (Throw (MaxFileSizeReachedError MAX_FILE_SIZE), w)).
Proof.
  intros entryPath Ht E1 E2 Es.
  rewrite scanEntries_step by assumption. fold entryPath.
  unfold dispatchEntry, isSymbolicLink, isDirectoryEntry. rewrite Ht.
  split.
  - intros H. now rewrite (processFile_maxFiles _ _ _ _ _ Es H).
  - intros H1 H2. now rewrite (processFile_maxFileSize _ _ _ _ _ Es H1 H2).
Qed.

(** [scanDirectory] turns whatever its [try] block throws into an
    absent Node: only a failing [stat] of the directory itself is
    thrown to the caller. *)
Lemma scanDirectoryBody_throws dirPath depth w e :
  fst (scanDirectoryBody rt query scan dirPath depth w) = Throw e ->
  e = FsError dirPath /\ fs_stat rt dirPath = None.
Proof.
  unfold scanDirectoryBody.
  destruct (maxDirectoryDepth query <? depth); [discriminate|].
  run. destruct (fs_stat rt dirPath) as [dirStats|]; cbn.
  - destruct (fs_readdir rt dirPath) as [entries|]; cbn; [|discriminate].
    destruct (scanEntries _ _ _ _ _ _ _ _) as [[node|e'|] w']; cbn;
      try discriminate.
    destruct (children node); discriminate.
  - intros [= <-]. auto.
Qed.

Lemma scanDirectoryBody_swallows dirPath depth w dirStats entries e w' :
  depth <= maxDirectoryDepth query ->
  fs_stat rt dirPath = Some dirStats ->
  fs_readdir rt dirPath = Some entries ->
  scanEntries rt query scan dirPath depth entries
    {| name := path_basename rt dirPath; path := dirPath;
       size := st_size dirStats; content := None;
       isDirectory := true; children := Some [] |} w = (Throw e, w') ->
  scanDirectoryBody rt query scan dirPath depth w =
    (Return None, logged w' (ErrorReadingDirectory dirPath e)).
Proof.
  intros Hd Es Er Hl. unfold scanDirectoryBody.
  apply Z.ltb_ge in Hd. rewrite Hd. run. rewrite Es. cbn.
  rewrite Er. cbn. now rewrite Hl.
Qed.
(** The loop over a listing is the loop over its first part followed by
    the loop over the rest. *)
Lemma scanEntries_app dirPath depth entries1 entries2 node w :
  scanEntries rt query scan dirPath depth (entries1 ++ entries2) node w =
  match scanEntries rt query scan dirPath depth entries1 node w with
  | (Return node', w') =>
      scanEntries rt query scan dirPath depth entries2 node' w'
  | (Throw e, w') => (Throw e, w')
  | (Diverge, w') => (Diverge, w')
  end.
Proof.
  revert node w. induction entries1 as [|entry rest IH]; intros node w;
    [reflexivity|].
  cbn [app].
  destruct (shouldExclude rt (path_join rt dirPath (d_name entry))
              (repository query) (ignorePatterns query)) eqn:E1;
    [rewrite !scanEntries_excluded by assumption; apply IH|].
  destruct (shouldInclude rt (path_join rt dirPath (d_name entry))
              (repository query) (includePatterns query)) eqn:E2;
    [|rewrite !scanEntries_not_included by assumption; apply IH].
  rewrite !scanEntries_step by assumption.
  destruct (dispatchEntry _ _ _ _ _ _ _ _) as [[node'|e|] w'];
    [apply IH| |reflexivity].
  destruct (isLimitError e); [reflexivity|apply IH].
Qed.

(** Wherever in a listing a regular file meets an exhausted count, the
    directory yields an absent Node and the error goes no further. *)
Lemma scanDirectoryBody_swallows_maxFiles
      dirPath depth w dirStats before entry after node' w' fileStats :
  let entryPath := path_join rt dirPath (d_name entry) in
  depth <= maxDirectoryDepth query ->
  fs_stat rt dirPath = Some dirStats ->
  fs_readdir rt dirPath = Some (before ++ entry :: after) ->
  scanEntries rt query scan dirPath depth before
    {| name := path_basename rt dirPath; path := dirPath;
       size := st_size dirStats; content := None;
       isDirectory := true; children := Some [] |} w = (Return node', w') ->
  d_type entry = Other ->
  shouldExclude rt entryPath (repository query) (ignorePatterns query)
    = false ->
  shouldInclude rt entryPath (repository query) (includePatterns query)
    = true ->
  fs_stat rt entryPath = Some fileStats ->
  MAX_FILES <= totalFiles (stats w') ->
  scanDirectoryBody rt query scan dirPath depth w =
    (Return None,
     logged w' (ErrorReadingDirectory dirPath
                  (MaxFilesReachedError MAX_FILES))).
Proof.
  intros entryPath Hd Es Er Hb Ht E1 E2 Ef Hmax.
  apply scanDirectoryBody_swallows with dirStats (before ++ entry :: after);
    try assumption.
  rewrite scanEntries_app, Hb.
  now apply (scanEntries_limit dirPath depth entry after node' w' fileStats).
Qed.

End Entries.

(** *** Invariants of the run state *)

Section Invariant.
Variable rt : Runtime.
Variable query : ParsedQuery.
Variable Inv : Walk -> Prop.

Hypothesis Inv_logged : forall w l, Inv w -> Inv (logged w l).
Hypothesis Inv_counted :
  forall w fileSize,
    Inv w -> totalFiles (stats w) < MAX_FILES ->
    0 <= MAX_FILE_SIZE - fileSize ->
    Inv (counted w fileSize).
Hypothesis Inv_seen :
  forall w symlinkPath targetPath,
    Inv w ->
    isSafeSymlink rt symlinkPath (repository query) = true ->
    fs_realpath rt symlinkPath = Some targetPath ->
    Inv (visited w targetPath).

Lemma processFile_preserves filePath parentNode w :
  Inv w -> Inv (snd (processFile rt filePath parentNode w)).
Proof.
  intros H.
  destruct (processFile_cases rt filePath parentNode w)
    as [E|[[E _]|[E|(fileSize & H1 & H2 & E & _)]]];
    rewrite E; cbn [snd]; auto.
Qed.

Section Step.
Variable scan : string -> Z -> M (option FileNode).
Hypothesis scan_preserves :
  forall p d w, Inv w -> Inv (snd (scan p d w)).

Lemma processSymlink_preserves symlinkPath parentNode depth w :
  Inv w ->
  Inv (snd (processSymlink rt query scan symlinkPath parentNode depth w)).
Proof.
  intros H. unfold processSymlink.
  destruct (isSafeSymlink rt symlinkPath (repository query)) eqn:Es;
    cbn [negb]; [|exact H].
  unfold bind at 1, await.
  destruct (fs_realpath rt symlinkPath) as [targetPath|] eqn:Er;
    cbn; [|exact H].
  destruct (bool_decide (targetPath ∈ seenPaths w)); cbn; [exact H|].
  pose proof (Inv_seen w symlinkPath targetPath H Es Er) as H'.
  change {| seenPaths := {[targetPath]} ∪ seenPaths w;
            stats := stats w; console := console w |}
    with (visited w targetPath).
  generalize dependent (visited w targetPath). intros w1 H'.
  destruct (fs_stat rt targetPath) as [targetStats|]; cbn; [|exact H'].
  destruct (st_isDirectory targetStats).
  - pose proof (scan_preserves targetPath (depth + 1) w1 H') as Hs.
    unfold bind.
    destruct (scan targetPath (depth + 1) w1) as [[[c|]|e|] w2];
      exact Hs.
  - now apply processFile_preserves.
Qed.

Lemma dispatchEntry_preserves entry entryPath node depth w :
  Inv w ->
  Inv (snd (dispatchEntry rt query scan entry entryPath node depth w)).
Proof.
  intros H. unfold dispatchEntry.
  destruct (isSymbolicLink entry); [now apply processSymlink_preserves|].
  destruct (isDirectoryEntry entry); [|now apply processFile_preserves].
  unfold bind. pose proof (scan_preserves entryPath (depth + 1) w H) as Hs.
  destruct (scan entryPath (depth + 1) w) as [[[c|]|e|] w2];
    exact Hs.
Qed.

Lemma scanEntries_preserves dirPath depth entries node w :
  Inv w ->
  Inv (snd (scanEntries rt query scan dirPath depth entries node w)).
Proof.
  revert node w. induction entries as [|entry rest IH]; intros node w H;
    [exact H|].
  destruct (shouldExclude rt (path_join rt dirPath (d_name entry))
              (repository query) (ignorePatterns query)) eqn:E1;
    [rewrite scanEntries_excluded by assumption; now apply IH|].
  destruct (shouldInclude rt (path_join rt dirPath (d_name entry))
              (repository query) (includePatterns query)) eqn:E2;
    [|rewrite scanEntries_not_included by assumption; now apply IH].
  rewrite scanEntries_step by assumption.
  pose proof (dispatchEntry_preserves entry
                (path_join rt dirPath (d_name entry)) node depth w H) as H'.
  destruct (dispatchEntry _ _ _ _ _ _ _ _) as [[node'|e|] w']; cbn in H'.
  - now apply IH.
  - destruct (isLimitError e); [exact H'|]. apply IH. now apply Inv_logged.
  - exact H'.
Qed.

Lemma scanDirectoryBody_preserves dirPath depth w :
  Inv w -> Inv (snd (scanDirectoryBody rt query scan dirPath depth w)).
Proof.
  intros H. unfold scanDirectoryBody.
  destruct (maxDirectoryDepth query <? depth); [exact H|].
  unfold bind at 1, await.
  destruct (fs_stat rt dirPath) as [dirStats|]; cbn; [|exact H].
  unfold try_catch, bind at 1, await.
  destruct (fs_readdir rt dirPath) as [entries|]; cbn;
    [|now apply Inv_logged].
  unfold bind at 1.
  match goal with
  | |- context [scanEntries rt query scan dirPath depth entries ?n w] =>
      pose proof (scanEntries_preserves dirPath depth entries n w H) as H';
      destruct (scanEntries rt query scan dirPath depth entries n w)
        as [[node|e|] w']
  end; cbn in H' |- *.
  - destruct (children node); exact H'.
  - now apply Inv_logged.
  - exact H'.
Qed.
End Step.

Lemma scanDirectory_preserves fuel dirPath depth w :
  Inv w -> Inv (snd (scanDirectory rt fuel query dirPath depth w)).
Proof.
  revert dirPath depth w.
  induction fuel as [|fuel IH]; intros dirPath depth w H.
  - exact H.
  - cbn [scanDirectory]. now apply scanDirectoryBody_preserves.
Qed.
End Invariant.

Section RunInvariants.
Variable rt : Runtime.
Variable query : ParsedQuery.

(** The file count never passes [MAX_FILES]. *)
Lemma totalFiles_bounded fuel dirPath depth w :
  totalFiles (stats w) <= MAX_FILES ->
  totalFiles (stats (snd (scanDirectory rt fuel query dirPath depth w)))
    <= MAX_FILES.
Proof.
  apply (scanDirectory_preserves rt query
           (fun w => totalFiles (stats w) <= MAX_FILES)).
  - intros w0 l H. exact H.
  - intros w0 fileSize H H1 _. cbn. lia.
  - intros w0 s t H _ _. exact H.
Qed.

(** The counters never decrease. *)
Lemma counters_monotone fuel dirPath depth w :
  let w' := snd (scanDirectory rt fuel query dirPath depth w) in
  totalFiles (stats w) <= totalFiles (stats w').
Proof.
  apply (scanDirectory_preserves rt query
           (fun w' => totalFiles (stats w) <= totalFiles (stats w'))).
  - intros w0 l H. exact H.
  - intros w0 fileSize H _ _. cbn. lia.
  - intros w0 s t H _ _. exact H.
  - lia.
Qed.

(** Only targets of safe symlinks are ever recorded. *)
Lemma visitedSafe_preserved fuel dirPath depth w :
  visitedSafe rt query w ->
  visitedSafe rt query (snd (scanDirectory rt fuel query dirPath depth w)).
Proof.
  apply (scanDirectory_preserves rt query (visitedSafe rt query)).
  - intros w0 l H. exact H.
  - intros w0 fileSize H _ _. exact H.
  - intros w0 symlinkPath targetPath H Hs Er t Ht.
    cbn in Ht. apply elem_of_union in Ht as [Ht|Ht]; [|now apply H].
    apply elem_of_singleton in Ht as ->.
    unfold isSafeSymlink in Hs. rewrite Er in Hs.
    destruct (fs_realpath rt (repository query)) as [base|];
      [|discriminate].
    now exists base.
Qed.

Lemma visitedSafe_initially (st : FileStats) (log : list LogEntry) :
  visitedSafe rt query {| seenPaths := ∅; stats := st; console := log |}.
Proof. intros t Ht. cbn in Ht. now apply not_elem_of_empty in Ht. Qed.
End RunInvariants.

(** *** Termination *)

Section Termination.
Variable rt : Runtime.
Variable query : ParsedQuery.

Lemma processFile_converges filePath parentNode w :
  fst (processFile rt filePath parentNode w) <> Diverge.
Proof.
  destruct (processFile_cases rt filePath parentNode w)
    as [E|[[E _]|[E|(fileSize & _ & _ & _ & [[text E]|E])]]];
    rewrite E; discriminate.
Qed.

Section Step.
Variable scan : string -> Z -> M (option FileNode).
Variable depth : Z.
Hypothesis scan_converges :
  forall p w, fst (scan p (depth + 1) w) <> Diverge.

Lemma processSymlink_converges symlinkPath parentNode w :
  fst (processSymlink rt query scan symlinkPath parentNode depth w)
    <> Diverge.
Proof.
  unfold processSymlink.
  destruct (isSafeSymlink rt symlinkPath (repository query));
    cbn [negb]; [|discriminate].
  unfold bind at 1, await.
  destruct (fs_realpath rt symlinkPath) as [targetPath|];
    cbn; [|discriminate].
  destruct (bool_decide (targetPath ∈ seenPaths w)); cbn; [discriminate|].
  destruct (fs_stat rt targetPath) as [targetStats|]; cbn; [|discriminate].
  destruct (st_isDirectory targetStats);
    [|apply processFile_converges].
  unfold bind.
  match goal with
  | |- context [scan targetPath (depth + 1) ?w1] =>
      pose proof (scan_converges targetPath w1) as Hs;
      destruct (scan targetPath (depth + 1) w1) as [[[c|]|e|] w2]
  end; cbn in *; congruence.
Qed.

Lemma dispatchEntry_converges entry entryPath node w :
  fst (dispatchEntry rt query scan entry entryPath node depth w)
    <> Diverge.
Proof.
  unfold dispatchEntry.
  destruct (isSymbolicLink entry); [apply processSymlink_converges|].
  destruct (isDirectoryEntry entry); [|apply processFile_converges].
  unfold bind. pose proof (scan_converges entryPath w) as Hs.
  destruct (scan entryPath (depth + 1) w) as [[[c|]|e|] w2];
    cbn in *; congruence.
Qed.

Lemma scanEntries_converges dirPath entries node w :
  fst (scanEntries rt query scan dirPath depth entries node w)
    <> Diverge.
Proof.
  revert node w. induction entries as [|entry rest IH]; intros node w;
    [discriminate|].
  destruct (shouldExclude rt (path_join rt dirPath (d_name entry))
              (repository query) (ignorePatterns query)) eqn:E1;
    [rewrite scanEntries_excluded by assumption; apply IH|].
  destruct (shouldInclude rt (path_join rt dirPath (d_name entry))
              (repository query) (includePatterns query)) eqn:E2;
    [|rewrite scanEntries_not_included by assumption; apply IH].
  rewrite scanEntries_step by assumption.
  pose proof (dispatchEntry_converges entry
                (path_join rt dirPath (d_name entry)) node w) as H'.
  destruct (dispatchEntry _ _ _ _ _ _ _ _) as [[node'|e|] w']; cbn in H'.
  - apply IH.
  - destruct (isLimitError e); [discriminate|apply IH].
  - congruence.
Qed.
End Step.

Lemma scanDirectoryBody_converges scan dirPath depth w :
  (depth <= maxDirectoryDepth query ->
   forall p w', fst (scan p (depth + 1) w') <> Diverge) ->
  fst (scanDirectoryBody rt query scan dirPath depth w) <> Diverge.
Proof.
  intros Hscan. unfold scanDirectoryBody.
  destruct (Z.ltb_spec (maxDirectoryDepth query) depth) as [Hd|Hd];
    [discriminate|].
  specialize (Hscan Hd).
  unfold bind at 1, await.
  destruct (fs_stat rt dirPath) as [dirStats|]; cbn; [|discriminate].
  unfold try_catch, bind at 1, await.
  destruct (fs_readdir rt dirPath) as [entries|]; cbn; [|discriminate].
  unfold bind at 1.
  match goal with
  | |- context [scanEntries rt query scan dirPath depth entries ?n w] =>
      pose proof (scanEntries_converges scan depth Hscan dirPath entries n w)
        as H';
      destruct (scanEntries rt query scan dirPath depth entries n w)
        as [[node|e|] w']
  end; cbn in H' |- *.
  - destruct (children node); discriminate.
  - discriminate.
  - congruence.
Qed.

(** The recursion is bounded by the depth limit alone: a call stack
    of [maxDirectoryDepth + 2 - depth] frames is never exceeded, so
    every walk returns or throws. *)
Lemma scanDirectory_converges fuel dirPath depth w :
  enoughFuel query depth fuel ->
  fst (scanDirectory rt fuel query dirPath depth w) <> Diverge.
Proof.
  unfold enoughFuel. revert dirPath depth w.
  induction fuel as [|fuel IH]; intros dirPath depth w H; [lia|].
  cbn [scanDirectory]. apply scanDirectoryBody_converges.
  intros Hd p w'. apply IH. lia.
Qed.
End Termination.

(** *** The children of a returned directory Node are sorted *)

Section Children.
Variable rt : Runtime.
Variable query : ParsedQuery.
Variable scan : string -> Z -> M (option FileNode).

Lemma processFile_children filePath parentNode w node :
  fst (processFile rt filePath parentNode w) = Return node ->
  is_Some (children node).
Proof.
  destruct (processFile_cases rt filePath parentNode w)
    as [E|[[E _]|[E|(fileSize & _ & _ & _ & [[text E]|E])]]];
    rewrite E; cbn; try discriminate.
  intros [= <-]. cbn. eauto.
Qed.

Lemma pushChild_children parentNode child :
  is_Some (children (pushChild parentNode child)).
Proof. cbn. eauto. Qed.

Lemma pushChildOpt_children node child :
  is_Some (children node) -> is_Some (children (pushChildOpt node child)).
Proof.
  intros H. unfold pushChildOpt.
  destruct (children node) eqn:E; [apply pushChild_children|].
  now rewrite E.
Qed.

Lemma dispatchEntry_children entry entryPath node depth w node' :
  is_Some (children node) ->
  fst (dispatchEntry rt query scan entry entryPath node depth w)
    = Return node' ->
  is_Some (children node').
Proof.
  intros Hn. unfold dispatchEntry.
  destruct (isSymbolicLink entry).
  - unfold processSymlink.
    destruct (isSafeSymlink _ _ _); cbn [negb];
      [|cbn; intros [= <-]; exact Hn].
    unfold bind at 1, await.
    destruct (fs_realpath rt entryPath) as [targetPath|]; cbn;
      [|discriminate].
    destruct (bool_decide _); cbn; [discriminate|].
    destruct (fs_stat rt targetPath) as [targetStats|]; cbn;
      [|discriminate].
    destruct (st_isDirectory targetStats);
      [|apply processFile_children].
    unfold bind.
    destruct (scan targetPath (depth + 1) _) as [[[c|]|e|] w2];
      cbn [fst ret]; try discriminate; intros [= <-];
      [apply pushChild_children|exact Hn].
  - destruct (isDirectoryEntry entry); [|apply processFile_children].
    unfold bind.
    destruct (scan entryPath (depth + 1) w) as [[[c|]|e|] w2];
      cbn [fst ret]; try discriminate; intros [= <-];
      [now apply pushChildOpt_children|exact Hn].
Qed.

Lemma scanEntries_children dirPath depth entries node w node' :
  is_Some (children node) ->
  fst (scanEntries rt query scan dirPath depth entries node w)
    = Return node' ->
  is_Some (children node').
Proof.
  revert node w. induction entries as [|entry rest IH]; intros node w Hn.
  - cbn. now intros [= <-].
  - destruct (shouldExclude rt (path_join rt dirPath (d_name entry))
                (repository query) (ignorePatterns query)) eqn:E1;
      [rewrite scanEntries_excluded by assumption; now apply IH|].
    destruct (shouldInclude rt (path_join rt dirPath (d_name entry))
                (repository query) (includePatterns query)) eqn:E2;
      [|rewrite scanEntries_not_included by assumption; now apply IH].
    rewrite scanEntries_step by assumption.
    pose proof (dispatchEntry_children entry
                  (path_join rt dirPath (d_name entry)) node depth w) as H'.
    destruct (dispatchEntry _ _ _ _ _ _ _ _) as [[n1|e|] w']; cbn in H'.
    + apply IH. now apply H'.
    + destruct (isLimitError e); [discriminate|now apply IH].
    + discriminate.
Qed.

Lemma scanDirectoryBody_sorted dirPath depth w node :
  fst (scanDirectoryBody rt query scan dirPath depth w)
    = Return (Some node) ->
  exists collected, children node = Some (sortChildren rt collected).
Proof.
  unfold scanDirectoryBody.
  destruct (maxDirectoryDepth query <? depth); [discriminate|].
  unfold bind at 1, await.
  destruct (fs_stat rt dirPath) as [dirStats|]; cbn; [|discriminate].
  unfold try_catch, bind at 1, await.
  destruct (fs_readdir rt dirPath) as [entries|]; cbn; [|discriminate].
  unfold bind at 1.
  match goal with
  | |- context [scanEntries rt query scan dirPath depth entries ?n w] =>
      pose proof (fun n' => scanEntries_children dirPath depth entries n w n')
        as H';
      destruct (scanEntries rt query scan dirPath depth entries n w)
        as [[n1|e|] w']
  end; cbn in H' |- *; try discriminate.
  destruct (H' n1 ltac:(eauto) eq_refl) as [cs Hcs]. rewrite Hcs. cbn.
  intros [= <-]. now exists cs.
Qed.
End Children.

Lemma scanDirectory_sorted rt fuel query dirPath depth w node :
  fst (scanDirectory rt fuel query dirPath depth w) = Return (Some node) ->
  exists collected, children node = Some (sortChildren rt collected).
Proof.
  destruct fuel as [|fuel]; [discriminate|]. apply scanDirectoryBody_sorted.
Qed.

(** *** The fuel does not matter once there is enough of it *)

Section Fuel.
Variable rt : Runtime.
Variable query : ParsedQuery.

Section Step.
Variables scan1 scan2 : string -> Z -> M (option FileNode).
Variable depth : Z.
Hypothesis scan_agree :
  forall p w, scan1 p (depth + 1) w = scan2 p (depth + 1) w.

Lemma processSymlink_ext symlinkPath parentNode w :
  processSymlink rt query scan1 symlinkPath parentNode depth w =
  processSymlink rt query scan2 symlinkPath parentNode depth w.
Proof.
  unfold processSymlink.
  destruct (isSafeSymlink rt symlinkPath (repository query));
    cbn [negb]; [|reflexivity].
  unfold bind, await, seenHas, seenAdd, ret, throw.
  destruct (fs_realpath rt symlinkPath) as [targetPath|]; [|reflexivity].
  destruct (bool_decide (targetPath ∈ seenPaths w)); [reflexivity|].
  destruct (fs_stat rt targetPath) as [targetStats|]; [|reflexivity].
  destruct (st_isDirectory targetStats); [|reflexivity].
  now rewrite scan_agree.
Qed.

Lemma dispatchEntry_ext entry entryPath node w :
  dispatchEntry rt query scan1 entry entryPath node depth w =
  dispatchEntry rt query scan2 entry entryPath node depth w.
Proof.
  unfold dispatchEntry.
  destruct (isSymbolicLink entry); [apply processSymlink_ext|].
  destruct (isDirectoryEntry entry); [|reflexivity].
  unfold bind. now rewrite scan_agree.
Qed.

Lemma scanEntries_ext dirPath entries node w :
  scanEntries rt query scan1 dirPath depth entries node w =
  scanEntries rt query scan2 dirPath depth entries node w.
Proof.
  revert node w. induction entries as [|entry rest IH]; intros node w;
    [reflexivity|].
  destruct (shouldExclude rt (path_join rt dirPath (d_name entry))
              (repository query) (ignorePatterns query)) eqn:E1;
    [rewrite !scanEntries_excluded by assumption; apply IH|].
  destruct (shouldInclude rt (path_join rt dirPath (d_name entry))
              (repository query) (includePatterns query)) eqn:E2;
    [|rewrite !scanEntries_not_included by assumption; apply IH].
  rewrite !scanEntries_step by assumption. rewrite dispatchEntry_ext.
  destruct (dispatchEntry _ _ _ _ _ _ _ _) as [[node'|e|] w'];
    [apply IH| |reflexivity].
  destruct (isLimitError e); [reflexivity|apply IH].
Qed.
End Step.

Lemma scanDirectoryBody_ext scan1 scan2 dirPath depth w :
  (depth <= maxDirectoryDepth query ->
   forall p w', scan1 p (depth + 1) w' = scan2 p (depth + 1) w') ->
  scanDirectoryBody rt query scan1 dirPath depth w =
  scanDirectoryBody rt query scan2 dirPath depth w.
Proof.
  intros Hscan. unfold scanDirectoryBody.
  destruct (Z.ltb_spec (maxDirectoryDepth query) depth) as [Hd|Hd];
    [reflexivity|].
  specialize (Hscan Hd).
  unfold bind, try_catch, await, ret, throw.
  destruct (fs_stat rt dirPath) as [dirStats|]; [|reflexivity].
  destruct (fs_readdir rt dirPath) as [entries|]; [|reflexivity].
  now rewrite (scanEntries_ext scan1 scan2 depth Hscan).
Qed.

Lemma scanDirectory_fuel fuel1 fuel2 dirPath depth w :
  enoughFuel query depth fuel1 -> enoughFuel query depth fuel2 ->
  scanDirectory rt fuel1 query dirPath depth w =
  scanDirectory rt fuel2 query dirPath depth w.
Proof.
  unfold enoughFuel. revert fuel2 dirPath depth w.
  induction fuel1 as [|fuel1 IH]; intros fuel2 dirPath depth w H1 H2; [lia|].
  destruct fuel2 as [|fuel2]; [lia|].
  cbn [scanDirectory]. apply scanDirectoryBody_ext.
  intros Hd p w'. apply IH; lia.
Qed.
End Fuel.

(** *** The whole run *)

Section Run.
Variable rt : Runtime.

Lemma ingestRepository_converges repository query :
  fst (ingestRepository rt repository query) <> Diverge.
Proof.
  unfold ingestRepository.
  match goal with
  | |- context [scanDirectory rt ?f query repository 0 ?w] =>
      pose proof (scanDirectory_converges rt query f repository 0 w) as H;
      destruct (scanDirectory rt f query repository 0 w)
        as [[[root|]|e|] w']
  end; cbn in *; try discriminate.
  exfalso. apply H; [|reflexivity]. unfold enoughFuel. lia.
Qed.

(** Neither limit error ever reaches the caller of [scanDirectory]. *)
Lemma scanDirectory_never_throws_limit fuel query dirPath depth w e :
  fst (scanDirectory rt fuel query dirPath depth w) = Throw e ->
  isLimitError e = false.
Proof.
  destruct fuel as [|fuel]; [discriminate|]. cbn [scanDirectory].
  intros H. now apply scanDirectoryBody_throws in H as [-> _].
Qed.

Lemma ingestRepository_never_throws_limit repository query e :
  fst (ingestRepository rt repository query) = Throw e ->
  isLimitError e = false.
Proof.
  unfold ingestRepository.
  match goal with
  | |- context [scanDirectory rt ?f query repository 0 ?w] =>
      pose proof (scanDirectory_never_throws_limit f query repository 0 w)
        as H;
      destruct (scanDirectory rt f query repository 0 w)
        as [[[root|]|e'|] w']
  end; cbn in *; try discriminate.
  - now intros [= <-].
  - intros [= <-]. now apply H.
Qed.

(** [ingestFile] does surface the size error. *)
Lemma ingestFile_maxFileSize filePath query fileStats :
  fs_stat rt filePath = Some fileStats ->
  MAX_FILE_SIZE < st_size fileStats ->
  fst (ingestFile rt filePath query) =
    Throw (MaxFileSizeReachedError MAX_FILE_SIZE).
Proof.
  intros E H. unfold ingestFile. rewrite E.
  apply Z.ltb_lt in H. now rewrite H.
Qed.

Lemma ingestRepository_totalFiles repository query :
  totalFiles (stats (snd (ingestRepository rt repository query))) <= MAX_FILES.
Proof.
  unfold ingestRepository.
  match goal with
  | |- context [scanDirectory rt ?f query repository 0 ?w] =>
      pose proof (totalFiles_bounded rt query f repository 0 w) as H;
      destruct (scanDirectory rt f query repository 0 w)
        as [[[root|]|e'|] w']
  end; cbn in *; apply H; unfold MAX_FILES; lia.
Qed.

Lemma ingestRepository_content repository query root text w :
  ingestRepository rt repository query = (Return (root, text), w) ->
  text = createFileContentString (extractFilesContent query root []).
Proof.
  unfold ingestRepository.
  destruct (scanDirectory _ _ _ _ _ _) as [[[r|]|e'|] w']; try discriminate.
  now intros [= <- <- _].
Qed.
End Run.

End WalkerFacts.

(** ** query_ingestion.ts: the content renderer *)

Module RenderFacts.
Import Ingestion Spec.

(** Induction over a tree of Nodes. *)
Lemma FileNode_tree_ind (P : FileNode -> Prop) :
  (forall n p s c d, P (mkNode n p s c d None)) ->
  (forall n p s c d cs, Forall P cs -> P (mkNode n p s c d (Some cs))) ->
  forall node, P node.
Proof.
  intros Hleaf Hdir. fix IH 1. intros [n p s c d [cs|]]; [|apply Hleaf].
  apply Hdir. induction cs as [|child cs IHcs]; constructor.
  - apply IH.
  - exact IHcs.
Qed.

(** The accumulator of [extractFilesContent] receives the file Nodes
    with non-empty content, in pre-order. *)
Lemma extractFilesContent_preorder query node files :
  extractFilesContent query node files =
  files ++ List.filter carriesText (preorder node).
Proof.
  revert files. induction node as [n p s c d|n p s c d cs IH]
    using FileNode_tree_ind; intros files.
  - cbn [extractFilesContent preorder children isDirectory content List.filter].
    change (carriesText (mkNode n p s c d None)) with (negb d && truthy c).
    destruct (negb d && truthy c); [reflexivity|now rewrite app_nil_r].
  - cbn [extractFilesContent preorder children isDirectory content List.filter].
    change (carriesText (mkNode n p s c d (Some cs)))
      with (negb d && truthy c).
    set (first := if negb d && truthy c
                  then files ++ [mkNode n p s c d (Some cs)] else files).
    assert (E : forall acc,
               (fix each (cs0 : list FileNode) (files0 : list FileNode) :=
                  match cs0 with
                  | [] => files0
                  | child :: rest =>
                      each rest (extractFilesContent query child files0)
                  end) cs acc =
               acc ++ List.filter carriesText (flat_map preorder cs)).
    { induction IH as [|child rest Hchild _ IHrest]; intros acc.
      - cbn. now rewrite app_nil_r.
      - cbn [flat_map]. rewrite IHrest, Hchild, List.filter_app, app_assoc.
        reflexivity. }
    rewrite E. subst first.
    destruct (negb d && truthy c); [now rewrite <- app_assoc|reflexivity].
Qed.

Lemma header_delimiter : JS.repeat "=" 80 = delimiter.
Proof. reflexivity. Qed.

Lemma delimiter_shape :
  String.length delimiter = 80%nat /\
  Forall (fun c => c = "="%char) (list_ascii_of_string delimiter).
Proof. split; [reflexivity|]. repeat constructor. Qed.

Lemma normalizePathStr_forwardSlashes p :
  normalizePathStr p = forwardSlashes p.
Proof.
  unfold forwardSlashes. induction p as [|c r IH]; [reflexivity|].
  cbn. now rewrite IH.
Qed.

Lemma fileBlock_block file :
  fileBlock file =
  block (path file) (default "undefined" (content file)).
Proof.
  unfold fileBlock, block.
  now rewrite header_delimiter, normalizePathStr_forwardSlashes.
Qed.

(** The rendered [content] string of a tree. *)
Lemma content_digest query root :
  createFileContentString (extractFilesContent query root []) =
  digestOf carriesText root.
Proof.
  unfold createFileContentString, digestOf.
  rewrite extractFilesContent_preorder. cbn [app]. f_equal.
  apply map_ext_in. intros file Hin. rewrite fileBlock_block.
  apply filter_In in Hin as [_ Hc]. unfold carriesText in Hc.
  destruct (content file); [reflexivity|].
  now rewrite andb_false_r in Hc.
Qed.

End RenderFacts.

(** ** The in-memory runtime *)

Module DiskFacts.
Import Disk Spec.

Lemma ascii_compare_trans (a b c : ascii) (r : comparison) :
  Ascii.compare a b = r -> Ascii.compare b c = r -> Ascii.compare a c = r.
Proof.
  unfold Ascii.compare. intros H1 H2. destruct r.
  - apply N.compare_eq_iff in H1, H2. apply N.compare_eq_iff. congruence.
  - exact (N.lt_trans _ _ _ H1 H2).
  - apply N.compare_gt_iff in H1, H2. apply N.compare_gt_iff.
    exact (N.lt_trans _ _ _ H2 H1).
Qed.

Lemma ascii_compare_eq (a b : ascii) : Ascii.compare a b = Eq -> a = b.
Proof. apply Ascii.compare_eq_iff. Qed.

Lemma string_compare_trans (a b c : string) :
  String.compare a b <> Gt -> String.compare b c <> Gt ->
  String.compare a c <> Gt.
Proof.
  revert b c. induction a as [|x a IH]; intros [|y b] [|z c]; cbn;
    try congruence.
  destruct (Ascii.compare x y) eqn:Exy; try congruence;
    destruct (Ascii.compare y z) eqn:Eyz; try congruence.
  - apply ascii_compare_eq in Exy as ->. rewrite Eyz. apply IH.
  - apply ascii_compare_eq in Exy as ->. now rewrite Eyz.
  - apply ascii_compare_eq in Eyz as <-. now rewrite Exy.
  - now rewrite (ascii_compare_trans x y z Lt Exy Eyz).
Qed.

Lemma byteCompare_le a b : byteCompare a b <= 0 <-> String.compare a b <> Gt.
Proof.
  unfold byteCompare. destruct (String.compare a b); split;
    intros H; try lia; try congruence.
Qed.

Lemma byteCompare_total : collationTotal byteCompare.
Proof.
  intros a b. rewrite !byteCompare_le, (String.compare_antisym b a).
  destruct (String.compare a b); cbn; [left|left|right]; congruence.
Qed.

Lemma byteCompare_transitive : collationTransitive byteCompare.
Proof.
  intros a b c. rewrite !byteCompare_le. apply string_compare_trans.
Qed.

End DiskFacts.

(* ===================================================================== *)
(** * The claims *)
(* ===================================================================== *)

Module Claims.
Import Ingestion Spec Disk Scenarios Utils QueryParser.
Import UtilsFacts QueryParserFacts SortFacts OrderFacts WalkerFacts
       RenderFacts DiskFacts.

(** C1 (code defect, one defect with C2).  [/r/a] holds 10001 regular
    files.  The 10001st makes [processFile] throw [MaxFilesReachedError]
    and the handler of the entry rethrows it, but the outer [catch] of
    the same [scanDirectory] call turns it into an absent Node: the run
    is not aborted, [/r/b], listed after [/r/a], is scanned all the same,
    and [ingestRepository] returns a tree.  The count stops at the
    maximum. *)
Theorem maxFiles_error_swallowed :
  let run := ingestRepository crowded "/r" (plainQuery "/r") in
  fst run = Return (directoryNode "r" "/r" [directoryNode "b" "/r/b" []], "") /\
  stats (snd run) = {| totalFiles := MAX_FILES; totalSize := 10000 |} /\
  console (snd run) =
    [ErrorReadingDirectory "/r/a" (MaxFilesReachedError MAX_FILES)].
Proof. vm_compute. repeat split; reflexivity. Qed.

(** C2 (code defect, one defect with C1).  [/r/a/big.bin] is one byte
    over the per-file limit.  [processFile] throws
    [MaxFileSizeReachedError] and its size is not added to the byte
    total, but the error is caught by the outer [catch] of the
    [scanDirectory] call for [/r/a]: the run goes on to [/r/ok.txt] and
    returns a tree.  With the file directly under the root the caller
    gets the generic error for an absent tree instead.  [ingestFile],
    given the same file, does throw [MaxFileSizeReachedError]. *)
Theorem maxFileSize_error_swallowed :
  let run := ingestRepository (runtime oversized noNotebooks) "/r"
                              (plainQuery "/r") in
  fst run = Return (directoryNode "r" "/r" [textNode "ok.txt" "/r/ok.txt" "ok"],
                    block "/r/ok.txt" "ok") /\
  stats (snd run) = {| totalFiles := 1; totalSize := 2 |} /\
  console (snd run) =
    [ErrorReadingDirectory "/r/a" (MaxFileSizeReachedError MAX_FILE_SIZE)] /\
  fst (ingestRepository (runtime oversizedRoot noNotebooks) "/r"
                        (plainQuery "/r")) =
    Throw (Error "No files found in repository") /\
  fst (ingestFile (runtime oversized noNotebooks) "/r/a/big.bin"
                  (plainQuery "/r")) =
    Throw (MaxFileSizeReachedError MAX_FILE_SIZE).
Proof. vm_compute. repeat split; reflexivity. Qed.

(** C4 (code defect).  Section 4.2 lets a star stand for any run of
    characters, so the pattern [*] matches the two-line candidate; the
    dot of the regex [fnmatch] builds does not match a line feed, and
    [fnmatch] answers [false]. *)
Theorem fnmatch_rejects_line_feed :
  matches anyChar twoLines "*" /\ fnmatch twoLines "*" = false.
Proof.
  split; [|reflexivity].
  apply (glob_star anyChar [] (list_ascii_of_string twoLines) []).
  - repeat constructor.
  - constructor.
Qed.

(** What the code does keep of the cycle guard, for every runtime.  A
    symlink whose real target is already in the VisitedSet makes
    [processSymlink] throw [AlreadyVisitedError] and leaves the run
    state as it was; the loop of [scanDirectory] logs the error and goes
    on with the remaining entries.  A safe symlink to a directory that
    is not in the VisitedSet is followed: its target is recorded and
    walked one level deeper.  Ordinary descent into a directory records
    nothing, which is where the guard falls short: an ancestor reached
    that way is not in the VisitedSet.  The VisitedSet holds only
    targets that lie under the root, an invariant of every run.  Every
    walk ends all the same, by the depth limit: a call stack of
    [maxDirectoryDepth + 2 - depth] frames suffices. *)
Theorem already_visited_is_skipped
        (rt : Runtime) (query : ParsedQuery)
        (scan : string -> Z -> M (option FileNode))
        (dirPath : string) (depth : Z) (entry : Dirent) (rest : list Dirent)
        (node : FileNode) (w : Walk) (targetPath : string) :
  let entryPath := path_join rt dirPath (d_name entry) in
  visitedSafe rt query w ->
  isSymbolicLink entry = true ->
  shouldExclude rt entryPath (repository query) (ignorePatterns query)
    = false ->
  shouldInclude rt entryPath (repository query) (includePatterns query)
    = true ->
  fs_realpath rt entryPath = Some targetPath ->
  targetPath ∈ seenPaths w ->
  processSymlink rt query scan entryPath node depth w =
    (Throw (AlreadyVisitedError targetPath), w) /\
  scanEntries rt query scan dirPath depth (entry :: rest) node w =
    scanEntries rt query scan dirPath depth rest node
      (logged w (ErrorProcessing entryPath (AlreadyVisitedError targetPath))) /\
  (forall link parent d w0 target targetStats,
      isSafeSymlink rt link (repository query) = true ->
      fs_realpath rt link = Some target ->
      target ∉ seenPaths w0 ->
      fs_stat rt target = Some targetStats ->
      st_isDirectory targetStats = true ->
      processSymlink rt query scan link parent d w0 =
        match scan target (d + 1) (visited w0 target) with
        | (Return (Some childNode), w') =>
            (Return (pushChild parent childNode), w')
        | (Return None, w') => (Return parent, w')
        | (Throw e, w') => (Throw e, w')
        | (Diverge, w') => (Diverge, w')
        end) /\
  (forall child childPath parent d w0,
      isSymbolicLink child = false ->
      isDirectoryEntry child = true ->
      dispatchEntry rt query scan child childPath parent d w0 =
        match scan childPath (d + 1) w0 with
        | (Return (Some childNode), w') =>
            (Return (pushChildOpt parent childNode), w')
        | (Return None, w') => (Return parent, w')
        | (Throw e, w') => (Throw e, w')
        | (Diverge, w') => (Diverge, w')
        end) /\
  (forall fuel p d w0,
      visitedSafe rt query w0 ->
      visitedSafe rt query (snd (scanDirectory rt fuel query p d w0))) /\
  (forall fuel p d w0,
      enoughFuel query d fuel ->
      fst (scanDirectory rt fuel query p d w0) <> Diverge) /\
  (forall root, fst (ingestRepository rt root query) <> Diverge).
Proof.
  intros entryPath Hsafe Hlink Hex Hin Hreal Hseen.
  pose proof (visited_is_safe rt query entryPath targetPath w Hsafe Hreal Hseen)
    as Hs.
  split; [|split; [|split; [|split; [|split; [|split]]]]].
  - now apply processSymlink_visited.
  - now apply scanEntries_visited_symlink.
  - intros link parent d w0 target targetStats.
    apply processSymlink_follows.
  - intros child childPath parent d w0. apply dispatchEntry_descends.
  - intros. now apply visitedSafe_preserved.
  - intros. now apply scanDirectory_converges.
  - intros. apply ingestRepository_converges.
Qed.

Lemma already_visited_is_skipped_witness :
  let rt := runtime cycle noNotebooks in
  let query := plainQuery "/r" in
  let scan := scanDirectory rt 18 query in
  let node := directoryNode "sub" "/r/sub" [] in
  processSymlink rt query scan "/r/sub/loop" node 3 cycleAgain =
    (Throw (AlreadyVisitedError "/r"), cycleAgain) /\
  scanEntries rt query scan "/r/sub" 3 [link "loop"] node cycleAgain =
    scanEntries rt query scan "/r/sub" 3 [] node
      (logged cycleAgain
              (ErrorProcessing "/r/sub/loop" (AlreadyVisitedError "/r"))) /\
  (forall link parent d w0 target targetStats,
      isSafeSymlink rt link (repository query) = true ->
      fs_realpath rt link = Some target ->
      target ∉ seenPaths w0 ->
      fs_stat rt target = Some targetStats ->
      st_isDirectory targetStats = true ->
      processSymlink rt query scan link parent d w0 =
        match scan target (d + 1) (visited w0 target) with
        | (Return (Some childNode), w') =>
            (Return (pushChild parent childNode), w')
        | (Return None, w') => (Return parent, w')
        | (Throw e, w') => (Throw e, w')
        | (Diverge, w') => (Diverge, w')
        end) /\
  (forall child childPath parent d w0,
      isSymbolicLink child = false ->
      isDirectoryEntry child = true ->
      dispatchEntry rt query scan child childPath parent d w0 =
        match scan childPath (d + 1) w0 with
        | (Return (Some childNode), w') =>
            (Return (pushChildOpt parent childNode), w')
        | (Return None, w') => (Return parent, w')
        | (Throw e, w') => (Throw e, w')
        | (Diverge, w') => (Diverge, w')
        end) /\
  (forall fuel p d w0,
      visitedSafe rt query w0 ->
      visitedSafe rt query (snd (scanDirectory rt fuel query p d w0))) /\
  (forall fuel p d w0,
      enoughFuel query d fuel ->
      fst (scanDirectory rt fuel query p d w0) <> Diverge) /\
  (forall root, fst (ingestRepository rt root query) <> Diverge).
Proof.
  apply (already_visited_is_skipped
           (runtime cycle noNotebooks) (plainQuery "/r")
           (scanDirectory (runtime cycle noNotebooks) 18 (plainQuery "/r"))
           "/r/sub" 3 (link "loop") [] (directoryNode "sub" "/r/sub" [])
           cycleAgain "/r").
  - intros t Ht. unfold cycleAgain in Ht. cbn [seenPaths] in Ht.
    apply elem_of_singleton in Ht. subst t.
    exists "/r". split; reflexivity.
  - reflexivity.
  - reflexivity.
  - reflexivity.
  - reflexivity.
  - unfold cycleAgain. cbn [seenPaths]. apply elem_of_singleton. reflexivity.
Defined.

(** C3 (code defect).  The VisitedSet is to keep the walk from entering
    a directory twice, but [seenPaths.add] is only reached in
    [processSymlink]: a directory entered by ordinary descent, the root
    included, is never recorded.  In [cycle] the directory [/r/sub]
    holds a symlink to its ancestor [/r], which the walk is visiting;
    when the entry is first processed [/r] is not in the VisitedSet, no
    [AlreadyVisitedError] is thrown, and [/r] is walked a second time:
    the returned tree holds [/r] again below [/r/sub], [/r/f.txt] is
    counted twice and rendered twice, and the error is raised only when
    the symlink is met again inside the second walk.  In [deepCycle] the
    symlink sits at the depth limit: the walk of its target returns at
    once and no [AlreadyVisitedError] is raised during the whole run,
    which ends by the depth limit alone. *)
Theorem ancestor_symlink_is_followed :
  let rt := runtime cycle noNotebooks in
  let query := plainQuery "/r" in
  let first := processSymlink rt query (scanDirectory rt 19 query)
                 "/r/sub/loop" (directoryNode "sub" "/r/sub" []) 1
                 cycleFirst in
  let run := ingestRepository rt "/r" query in
  let deep := ingestRepository (runtime deepCycle noNotebooks) "/r" query in
  let again :=
    directoryNode "r" "/r"
      [ textNode "f.txt" "/r/f.txt" "x"; directoryNode "sub" "/r/sub" [] ] in
  fs_realpath rt "/r/sub/loop" = Some "/r" /\
  isSafeSymlink rt "/r/sub/loop" (repository query) = true /\
  fst first <> Throw (AlreadyVisitedError "/r") /\
  stats (snd first) = {| totalFiles := 2; totalSize := 2 |} /\
  fst run =
    Return (directoryNode "r" "/r"
              [ textNode "f.txt" "/r/f.txt" "x";
                directoryNode "sub" "/r/sub" [again] ],
            block "/r/f.txt" "x" +:+ LF +:+ block "/r/f.txt" "x") /\
  stats (snd run) = {| totalFiles := 2; totalSize := 2 |} /\
  console (snd run) =
    [ErrorProcessing "/r/sub/loop" (AlreadyVisitedError "/r")] /\
  console (snd deep) = [] /\
  elements (seenPaths (snd deep)) = ["/r"].
Proof. vm_compute. repeat split; try reflexivity. discriminate. Qed.

(** C5.  For a collation that orders strings (total and transitive, as
    [localeCompare] is), [sortChildren] returns the collected children
    rearranged into the order of section 4.5: a readme (any case) may
    stand before anything; among the rest files stand before
    directories, within one kind non-dot names before dot names, and
    within those the collation decides.  Hence no entry that is not a
    readme stands before a readme, whatever its kind, and the children
    of every directory Node that [scanDirectory] returns are
    [sortChildren] of what was collected.  The comparator handed to the
    sort answers "not after" exactly when that order allows it. *)
Theorem children_sorted
        (rt : Runtime)
        (Htotal : collationTotal (localeCompare rt))
        (Htrans : collationTransitive (localeCompare rt))
        (collected : list FileNode) :
  let sorted := sortChildren rt collected in
  Permutation collected sorted /\
  StronglySorted (precedes (localeCompare rt)) sorted /\
  (forall i j x r,
      sorted !! i = Some x -> sorted !! j = Some r ->
      isReadme r = true -> isReadme x = false -> (j < i)%nat) /\
  (forall fuel query dirPath depth w node,
      fst (scanDirectory rt fuel query dirPath depth w) = Return (Some node) ->
      exists cs, children node = Some (sortChildren rt cs)) /\
  (forall a b, compareChildren rt a b <= 0 <-> precedes (localeCompare rt) a b).
Proof.
  intros sorted.
  assert (Hs : StronglySorted (precedes (localeCompare rt)) sorted)
    by now apply sortChildren_sorted.
  split; [|split; [|split; [|split]]].
  - apply sort_perm.
  - exact Hs.
  - intros i j x r. now apply (readme_first rt).
  - intros fuel query dirPath depth w node.
    apply (scanDirectory_sorted rt fuel query dirPath depth w node).
  - apply compareChildren_precedes.
Qed.

Lemma children_sorted_witness :
  let rt := runtime withEmptyFile noNotebooks in
  let sorted := sortChildren rt unsortedChildren in
  Permutation unsortedChildren sorted /\
  StronglySorted (precedes (localeCompare rt)) sorted /\
  (forall i j x r,
      sorted !! i = Some x -> sorted !! j = Some r ->
      isReadme r = true -> isReadme x = false -> (j < i)%nat) /\
  (forall fuel query dirPath depth w node,
      fst (scanDirectory rt fuel query dirPath depth w) = Return (Some node) ->
      exists cs, children node = Some (sortChildren rt cs)) /\
  (forall a b, compareChildren rt a b <= 0 <-> precedes (localeCompare rt) a b).
Proof.
  exact (children_sorted (runtime withEmptyFile noNotebooks)
           byteCompare_total byteCompare_transitive unsortedChildren).
Defined.

(** C6, as the code has it.  In a call with a non-empty root, a
    supplied pattern with a character outside [[A-Za-z0-9\-_./+*]], in
    either list, makes [parseQuery] throw [InvalidPatternError] (for the
    first pattern the validation turns down): no configuration is
    returned, so nothing of the call is added to either set. *)
Theorem forbidden_pattern_aborts
        (defaults : list string) (root : string)
        (ignored included : option (list string)) (p : string) :
  root <> "" ->
  In p (supplied ignored included) ->
  hasForbiddenChar p ->
  exists q,
    parseQuery defaults root ignored included = Throw (InvalidPatternError q) /\
    In q (supplied ignored included) /\ rejected q.
Proof.
  intros Hroot Hin Hp. apply parseQuery_rejects with p; [assumption..|].
  now right.
Qed.

Lemma forbidden_pattern_aborts_witness :
  exists q,
    parseQuery sampleDefaults "/r" (Some ["*.py"]) (Some ["src/*"; "a b"]) =
      Throw (InvalidPatternError q) /\
    In q (supplied (Some ["*.py"]) (Some ["src/*"; "a b"])) /\ rejected q.
Proof.
  apply (forbidden_pattern_aborts sampleDefaults "/r"
           (Some ["*.py"]) (Some ["src/*"; "a b"]) "a b").
  - discriminate.
  - simpl. auto.
  - exists " "%char. split; [simpl; auto|].
    intros H. apply allowed_existsb in H. vm_compute in H. discriminate.
Defined.

(** C6, as stated, fails: with an empty root the same call throws the
    generic error of the root check, not [InvalidPatternError]. *)
Lemma forbidden_pattern_empty_root :
  In "a b" (supplied (Some ["a b"]) None) /\
  hasForbiddenChar "a b" /\
  parseQuery sampleDefaults "" (Some ["a b"]) None =
    Throw (Error "Repository path cannot be empty") /\
  ~ (exists q, parseQuery sampleDefaults "" (Some ["a b"]) None =
                 Throw (InvalidPatternError q)).
Proof.
  repeat split.
  - simpl. auto.
  - exists " "%char. split; [simpl; auto|].
    intros H. apply allowed_existsb in H. vm_compute in H. discriminate.
  - intros [q H]. vm_compute in H. discriminate.
Qed.

(** C10, as the code has it.  In a call with a non-empty root, the
    empty string supplied as a pattern, in either list, makes
    [parseQuery] throw [InvalidPatternError], although the empty string
    has no character outside the class: [validatePattern] accepts
    exactly the non-empty strings over the class. *)
Theorem empty_pattern_aborts
        (defaults : list string) (root : string)
        (ignored included : option (list string)) :
  root <> "" ->
  In "" (supplied ignored included) ->
  (exists q,
     parseQuery defaults root ignored included =
       Throw (InvalidPatternError q) /\
     In q (supplied ignored included) /\ rejected q) /\
  validatePattern "" = Throw (InvalidPatternError "") /\
  ~ hasForbiddenChar "" /\
  (forall p, validatePattern p = Return tt <->
             p <> "" /\ Forall allowed (list_ascii_of_string p)).
Proof.
  intros Hroot Hin. split; [|split; [|split]].
  - apply parseQuery_rejects with ""; [assumption..|]. now left.
  - reflexivity.
  - intros (c & [] & _).
  - apply validatePattern_accepts.
Qed.

Lemma empty_pattern_aborts_witness :
  (exists q,
     parseQuery sampleDefaults "/r" (Some ["*.py"; ""]) None =
       Throw (InvalidPatternError q) /\
     In q (supplied (Some ["*.py"; ""]) None) /\ rejected q) /\
  validatePattern "" = Throw (InvalidPatternError "") /\
  ~ hasForbiddenChar "" /\
  (forall p, validatePattern p = Return tt <->
             p <> "" /\ Forall allowed (list_ascii_of_string p)).
Proof.
  apply (empty_pattern_aborts sampleDefaults "/r" (Some ["*.py"; ""]) None).
  - discriminate.
  - simpl. auto.
Defined.

(** C10, as stated, fails: with an empty root a call that supplies the
    empty pattern throws the generic error of the root check, not
    [InvalidPatternError]. *)
Lemma empty_pattern_empty_root :
  In "" (supplied None (Some [""])) /\
  parseQuery sampleDefaults "" None (Some [""]) =
    Throw (Error "Repository path cannot be empty") /\
  ~ (exists q, parseQuery sampleDefaults "" None (Some [""]) =
                 Throw (InvalidPatternError q)).
Proof.
  repeat split.
  - simpl. auto.
  - intros [q H]. vm_compute in H. discriminate.
Qed.

(** C7.  A symlink entry whose real target is not textually prefixed by
    the real path of the root leaves no trace: [processSymlink] returns
    with the parent Node and the run state (file count, byte total,
    VisitedSet, log) as they were and throws nothing, and the loop of
    [scanDirectory] goes on exactly as if the entry were not listed. *)
Theorem unsafe_symlink_is_skipped
        (rt : Runtime) (query : ParsedQuery)
        (scan : string -> Z -> M (option FileNode))
        (dirPath : string) (depth : Z) (entry : Dirent) (rest : list Dirent)
        (node : FileNode) (w : Walk) (targetPath baseResolved : string) :
  let entryPath := path_join rt dirPath (d_name entry) in
  isSymbolicLink entry = true ->
  fs_realpath rt entryPath = Some targetPath ->
  fs_realpath rt (repository query) = Some baseResolved ->
  startsWith targetPath baseResolved = false ->
  processSymlink rt query scan entryPath node depth w = (Return node, w) /\
  scanEntries rt query scan dirPath depth (entry :: rest) node w =
    scanEntries rt query scan dirPath depth rest node w.
Proof.
  intros entryPath Hlink Ht Hb Hp.
  pose proof (isSafeSymlink_outside rt query entryPath targetPath
                baseResolved Ht Hb Hp) as Hu.
  split.
  - now apply processSymlink_unsafe.
  - now apply scanEntries_unsafe_symlink.
Qed.

Lemma unsafe_symlink_is_skipped_witness :
  let rt := runtime outside noNotebooks in
  let query := plainQuery "/r" in
  let scan := scanDirectory rt 20 query in
  let node := directoryNode "r" "/r" [] in
  processSymlink rt query scan "/r/out" node 0 start = (Return node, start) /\
  scanEntries rt query scan "/r" 0 [link "out"; file "f.txt"] node start =
    scanEntries rt query scan "/r" 0 [file "f.txt"] node start.
Proof.
  apply (unsafe_symlink_is_skipped
           (runtime outside noNotebooks) (plainQuery "/r")
           (scanDirectory (runtime outside noNotebooks) 20 (plainQuery "/r"))
           "/r" 0 (link "out") [file "f.txt"] (directoryNode "r" "/r" [])
           start "/etc/hosts" "/r").
  - reflexivity.
  - reflexivity.
  - reflexivity.
  - reflexivity.
Defined.

(** C8, as the code has it.  For a file that passes the count and the
    size check and whose leading bytes can be read: with a null byte
    among the first 1024 bytes the file is counted and its Node is
    appended to the parent without content; without one (so also when
    no byte is read) it is counted and its Node is appended with
    content, the text of the file or, for a notebook, what the
    extractor returns.  A notebook the extractor turns down throws
    [InvalidNotebookError] instead, and no Node is appended. *)
Theorem text_probe_decides_content
        (rt : Runtime) (filePath : string) (parentNode : FileNode) (w : Walk)
        (fileStats : Stats) (bytes : list Byte.byte) :
  fs_stat rt filePath = Some fileStats ->
  totalFiles (stats w) < MAX_FILES ->
  st_size fileStats <= MAX_FILE_SIZE ->
  fs_bytes rt filePath = Some bytes ->
  let fileSize := st_size fileStats in
  (hasNull (probe bytes) ->
   processFile rt filePath parentNode w =
     (Return (pushChild parentNode (fileNode rt filePath fileSize None)),
      counted w fileSize)) /\
  (~ hasNull (probe bytes) -> endsWith filePath ".ipynb" = false ->
   processFile rt filePath parentNode w =
     (Return (pushChild parentNode
                (fileNode rt filePath fileSize
                   (Some (readFileContent rt filePath)))),
      counted w fileSize)) /\
  (~ hasNull (probe bytes) -> endsWith filePath ".ipynb" = true ->
   forall text, processNotebook rt filePath = Some text ->
   processFile rt filePath parentNode w =
     (Return (pushChild parentNode
                (fileNode rt filePath fileSize (Some text))),
      counted w fileSize)) /\
  (~ hasNull (probe bytes) -> endsWith filePath ".ipynb" = true ->
   processNotebook rt filePath = None ->
   fst (processFile rt filePath parentNode w) =
     Throw (InvalidNotebookError filePath)).
Proof.
  intros Hstat Hcount Hsize Hbytes fileSize.
  rewrite (processFile_counted rt filePath parentNode w fileStats
             Hstat Hcount Hsize).
  pose proof (isTextFile_probe rt filePath bytes Hbytes) as Hprobe.
  destruct (isTextFile rt filePath).
  - assert (Hn : ~ hasNull (probe bytes)) by now apply Hprobe.
    split; [intros H; contradiction|].
    split; [intros _ ->; reflexivity|].
    split; [intros _ -> text ->; reflexivity|].
    intros _ -> ->. reflexivity.
  - assert (Hn : ~ ~ hasNull (probe bytes)).
    { intros H. apply Hprobe in H. discriminate. }
    split; [reflexivity|].
    split; [intros H; contradiction|].
    split; intros H; contradiction.
Qed.

Lemma text_probe_decides_content_witness :
  let rt := runtime mixed noNotebooks in
  let node := directoryNode "r" "/r" [] in
  let bytes := [Byte.x61; Byte.x00; Byte.x62] in
  (hasNull (probe bytes) ->
   processFile rt "/r/a.bin" node start =
     (Return (pushChild node (fileNode rt "/r/a.bin" 3 None)),
      counted start 3)) /\
  (~ hasNull (probe bytes) -> endsWith "/r/a.bin" ".ipynb" = false ->
   processFile rt "/r/a.bin" node start =
     (Return (pushChild node
                (fileNode rt "/r/a.bin" 3
                   (Some (readFileContent rt "/r/a.bin")))),
      counted start 3)) /\
  (~ hasNull (probe bytes) -> endsWith "/r/a.bin" ".ipynb" = true ->
   forall text, processNotebook rt "/r/a.bin" = Some text ->
   processFile rt "/r/a.bin" node start =
     (Return (pushChild node (fileNode rt "/r/a.bin" 3 (Some text))),
      counted start 3)) /\
  (~ hasNull (probe bytes) -> endsWith "/r/a.bin" ".ipynb" = true ->
   processNotebook rt "/r/a.bin" = None ->
   fst (processFile rt "/r/a.bin" node start) =
     Throw (InvalidNotebookError "/r/a.bin")).
Proof.
  apply (text_probe_decides_content
           (runtime mixed noNotebooks) "/r/a.bin"
           (directoryNode "r" "/r" []) start
           {| st_size := 3; st_isDirectory := false |}
           [Byte.x61; Byte.x00; Byte.x62]).
  - reflexivity.
  - reflexivity.
  - vm_compute. discriminate.
  - reflexivity.
Defined.

(** C8, as stated, fails.  [/r/nb.ipynb] passes both checks and its
    leading bytes hold no null byte, yet no content is attached:
    [processFile] throws [InvalidNotebookError] and appends no Node.
    [/r/locked] passes both checks too and cannot be opened: its Node
    is appended without content. *)
Lemma notebook_without_content :
  let rt := runtime mixed noNotebooks in
  let node := directoryNode "r" "/r" [] in
  fs_stat rt "/r/nb.ipynb" = Some {| st_size := 8; st_isDirectory := false |} /\
  (exists bytes, fs_bytes rt "/r/nb.ipynb" = Some bytes /\
                 ~ hasNull (probe bytes)) /\
  processFile rt "/r/nb.ipynb" node start =
    (Throw (InvalidNotebookError "/r/nb.ipynb"), counted start 8) /\
  fs_bytes rt "/r/locked" = None /\
  processFile rt "/r/locked" node start =
    (Return (pushChild node (fileNode rt "/r/locked" 4 None)),
     counted start 4).
Proof.
  cbv zeta. split; [reflexivity|]. split.
  - eexists. split; [reflexivity|].
    unfold hasNull, probe. cbn. intros H.
    repeat (destruct H as [H|H]; [discriminate|]). exact H.
  - repeat split; reflexivity.
Qed.

(** C9, as the code has it.  The [content] string holds one block per
    file Node whose content is present and not empty, in depth-first
    pre-order, directories skipped; a block is the delimiter line of 80
    [=], the path with every backslash turned into a slash, the
    delimiter line again, and the content, each followed by a line
    feed; the blocks are joined by a line feed, which leaves a blank
    line between two of them. *)
Theorem content_string_blocks
        (rt : Runtime) (root : string) (query : ParsedQuery)
        (tree : FileNode) (text : string) (w : Walk) :
  ingestRepository rt root query = (Return (tree, text), w) ->
  text = digestOf carriesText tree /\
  String.length delimiter = 80%nat /\
  Forall (fun c => c = "="%char) (list_ascii_of_string delimiter) /\
  (forall q node,
      createFileContentString (extractFilesContent q node []) =
      digestOf carriesText node).
Proof.
  intros Hrun. apply ingestRepository_content in Hrun.
  split; [|split; [|split]].
  - rewrite Hrun. apply content_digest.
  - apply delimiter_shape.
  - apply delimiter_shape.
  - intros q node. apply content_digest.
Qed.

Lemma content_string_blocks_witness :
  let tree := directoryNode "r" "/r"
                [textNode "b.txt" "/r/b.txt" "hello";
                 textNode "e.txt" "/r/e.txt" ""] in
  block "/r/b.txt" "hello" = digestOf carriesText tree /\
  String.length delimiter = 80%nat /\
  Forall (fun c => c = "="%char) (list_ascii_of_string delimiter) /\
  (forall q node,
      createFileContentString (extractFilesContent q node []) =
      digestOf carriesText node).
Proof.
  apply (content_string_blocks
           (runtime withEmptyFile noNotebooks) "/r" (plainQuery "/r")
           (directoryNode "r" "/r"
              [textNode "b.txt" "/r/b.txt" "hello";
               textNode "e.txt" "/r/e.txt" ""])
           (block "/r/b.txt" "hello")
           {| seenPaths := ∅; stats := {| totalFiles := 2; totalSize := 5 |};
              console := [] |}).
  vm_compute. reflexivity.
Defined.

(** C9, as stated, fails.  The walk of [withEmptyFile] attaches the
    empty text to the Node of the empty file [/r/e.txt], so that Node
    carries extracted content; the [content] string has no block for
    it. *)
Lemma empty_file_has_no_block :
  let run := ingestRepository (runtime withEmptyFile noNotebooks) "/r"
                              (plainQuery "/r") in
  let tree := directoryNode "r" "/r"
                [textNode "b.txt" "/r/b.txt" "hello";
                 textNode "e.txt" "/r/e.txt" ""] in
  fst run = Return (tree, block "/r/b.txt" "hello") /\
  carriesContent (textNode "e.txt" "/r/e.txt" "") = true /\
  digestOf carriesContent tree =
    block "/r/b.txt" "hello" +:+ LF +:+ block "/r/e.txt" "" /\
  block "/r/b.txt" "hello" <> digestOf carriesContent tree.
Proof.
  vm_compute. repeat split; try reflexivity. discriminate.
Qed.

End Claims.

(* ===================================================================== *)
(** * Further properties of the code *)
(* ===================================================================== *)

(** ** utils.ts and the path filters *)

Module FilterFacts.
Import RegExp Utils Spec Notions Ingestion UtilsFacts.

Lemma list_ascii_inj a b :
  list_ascii_of_string a = list_ascii_of_string b -> a = b.
Proof.
  intros H. rewrite <- (string_of_list_ascii_of_string a),
                    <- (string_of_list_ascii_of_string b).
  now rewrite H.
Qed.

(** A literal part of a pattern consumes exactly itself. *)
Lemma glob_literal_prefix wild lit p s :
  Forall (fun c : ascii => c <> "*"%char /\ c <> "?"%char) lit ->
  glob wild (lit ++ p) s <-> exists s', s = lit ++ s' /\ glob wild p s'.
Proof.
  intros Hlit. revert s. induction Hlit as [|c lit [Hs Hq] _ IH]; intros s.
  - cbn. split; [intros H; now exists s|intros (s' & -> & H); exact H].
  - cbn [app]. split.
    + inversion 1 as [| | |p' c' rest H1 H2 Hrest]; subst; try congruence.
      apply IH in Hrest as (s' & -> & Hs'). now exists s'.
    + intros (s' & -> & H). cbn [app]. constructor; [assumption..|].
      apply IH. now exists s'.
Qed.

Lemma glob_literal_only wild lit s :
  Forall (fun c : ascii => c <> "*"%char /\ c <> "?"%char) lit ->
  glob wild lit s <-> s = lit.
Proof.
  intros Hlit. rewrite <- (app_nil_r lit) at 1.
  rewrite glob_literal_prefix by assumption. split.
  - intros (s' & -> & H). inversion H. now rewrite app_nil_r.
  - intros ->. exists []. rewrite app_nil_r. split; [reflexivity|constructor].
Qed.

Lemma glob_star_literal wild lit s :
  Forall (fun c : ascii => c <> "*"%char /\ c <> "?"%char) lit ->
  glob wild ("*"%char :: lit) s <->
  exists run, s = run ++ lit /\ Forall wild run.
Proof.
  intros Hlit. split.
  - inversion 1 as [|p run rest Hrun Hrest| |]; subst; [|congruence].
    apply glob_literal_only in Hrest; [|assumption]. subst rest.
    now exists run.
  - intros (run & -> & Hrun). constructor; [exact Hrun|].
    now apply glob_literal_only.
Qed.

End FilterFacts.

Module FilterProperties.
Import RegExp Utils Spec Notions Ingestion Disk Scenarios.
Import UtilsFacts FilterFacts.

(** X1.  [fnmatch(name, pattern)] answers [true] exactly when the whole
    of [name] matches [pattern] read as a glob: [*] stands for a run of
    characters none of which is a line terminator, [?] for one such
    character, and every other pattern character, regex metacharacters
    included, for itself. *)
Theorem fnmatch_decides_glob (name pattern : string) :
  fnmatch name pattern = true <-> matches notLineTerminator name pattern.
Proof. apply fnmatch_glob. Qed.

(** X2.  A pattern without [*] and [?] matches its own text and nothing
    else: the characters that mean something in a regular expression
    are escaped before the regex is built. *)
Theorem fnmatch_literal (name pattern : string) :
  literal pattern ->
  (fnmatch name pattern = true <-> name = pattern).
Proof.
  intros Hlit. rewrite fnmatch_glob. unfold matches.
  rewrite glob_literal_only by exact Hlit. split.
  - apply list_ascii_inj.
  - now intros ->.
Qed.

Lemma fnmatch_literal_witness :
  fnmatch "docs/a.(b)+[c]" "docs/a.(b)+[c]" = true <->
  "docs/a.(b)+[c]" = "docs/a.(b)+[c]".
Proof.
  apply (fnmatch_literal "docs/a.(b)+[c]" "docs/a.(b)+[c]").
  unfold literal. simpl. repeat constructor; discriminate.
Defined.

(** X3.  A pattern made of a literal text, one [*] and a literal text
    matches exactly the names that begin with the first text, end with
    the second and have no line terminator in between; so [*.py] takes
    every single-line path ending in [.py], whatever directories it
    runs through. *)
Theorem fnmatch_around_star (name before after : string) :
  literal before -> literal after ->
  (fnmatch name (before +:+ "*" +:+ after) = true <->
   exists run, singleLine run /\ name = before +:+ run +:+ after).
Proof.
  intros Hb Ha. rewrite fnmatch_glob. unfold matches.
  rewrite !list_ascii_of_string_app.
  change (list_ascii_of_string "*") with ["*"%char].
  rewrite glob_literal_prefix by exact Hb. cbn [app].
  split.
  - intros (s' & E & H). apply glob_star_literal in H; [|exact Ha].
    destruct H as (run & -> & Hrun).
    exists (string_of_list_ascii run). split.
    + unfold singleLine. now rewrite list_ascii_of_string_of_list_ascii.
    + apply list_ascii_inj.
      rewrite E, !list_ascii_of_string_app.
      now rewrite list_ascii_of_string_of_list_ascii.
  - intros (run & Hrun & ->).
    exists (list_ascii_of_string run ++ list_ascii_of_string after). split.
    + now rewrite !list_ascii_of_string_app.
    + apply glob_star_literal; [exact Ha|].
      now exists (list_ascii_of_string run).
Qed.

Lemma fnmatch_around_star_witness :
  fnmatch "src/pkg/mod.py" ("" +:+ "*" +:+ ".py") = true <->
  exists run, singleLine run /\ "src/pkg/mod.py" = "" +:+ run +:+ ".py".
Proof.
  apply (fnmatch_around_star "src/pkg/mod.py" "" ".py").
  - unfold literal. simpl. constructor.
  - unfold literal. simpl. repeat constructor; discriminate.
Defined.

(** X4.  An entry is excluded exactly when some non-empty ignore pattern
    matches its path relative to the root (an empty pattern in the set
    excludes nothing); it is included exactly when the include set is
    empty or some include pattern matches that path. *)
Theorem filters_decide_by_glob
        (rt : Runtime) (filePath basePath : string) (patterns : OrderedSet) :
  (shouldExclude rt filePath basePath patterns = true <->
   exists pattern, In pattern patterns /\ pattern <> "" /\
                   globMatches rt basePath filePath pattern) /\
  (shouldInclude rt filePath basePath patterns = true <->
   patterns = [] \/
   exists pattern, In pattern patterns /\
                   globMatches rt basePath filePath pattern).
Proof.
  unfold globMatches. split.
  - unfold shouldExclude. rewrite existsb_exists. split.
    + intros (p & Hin & H). apply andb_true_iff in H as [Hne Hm].
      exists p. repeat split; [exact Hin| |now apply fnmatch_glob].
      apply negb_true_iff, String.eqb_neq in Hne. exact Hne.
    + intros (p & Hin & Hne & Hm). exists p. split; [exact Hin|].
      apply andb_true_iff. split; [|now apply fnmatch_glob].
      now apply negb_true_iff, String.eqb_neq.
  - unfold shouldInclude. destruct patterns as [|q qs].
    + cbn. split; [now left|reflexivity].
    + cbn [length Nat.eqb]. rewrite existsb_exists. split.
      * intros (p & Hin & Hm). right. exists p. split; [exact Hin|].
        now apply fnmatch_glob.
      * intros [H|(p & Hin & Hm)]; [discriminate|].
        exists p. split; [exact Hin|now apply fnmatch_glob].
Qed.

(** X19.  Whatever the pattern, the regex source [fnmatch] builds from
    it is well formed: [new RegExp] does not throw, and [fnmatch] tests
    the name against a regex of one term for each pattern character
    between the two anchors.  So no pattern, not even one with
    unbalanced brackets or braces, can make [shouldExclude] or
    [shouldInclude] fail. *)
Theorem fnmatch_never_throws (pattern : string) :
  exists regex,
    parse ("^" +:+ regexPattern pattern +:+ "$") = Some regex /\
    regex = TStart :: map termOf (list_ascii_of_string pattern) ++ [TEnd] /\
    forall name, fnmatch name pattern = test regex name.
Proof.
  eexists. split; [apply fnmatch_source_parses|]. split; [reflexivity|].
  intros name. unfold fnmatch. now rewrite fnmatch_source_parses.
Qed.

End FilterProperties.

(** ** query_parser.ts: the configuration a call returns *)

Module QueryFacts.
Import QueryParser Spec QueryParserFacts.

Lemma Set_has_In s x : Set_has s x = true <-> In x s.
Proof.
  unfold Set_has. rewrite existsb_exists. split.
  - intros (y & Hy & E). now apply String.eqb_eq in E as ->.
  - intros H. exists x. split; [exact H|apply String.eqb_refl].
Qed.

Lemma Set_add_In s y x : In x (Set_add s y) <-> In x s \/ x = y.
Proof.
  unfold Set_add. destruct (Set_has s y) eqn:E.
  - apply Set_has_In in E. split; [now left|].
    intros [H| ->]; assumption.
  - rewrite in_app_iff. cbn. split; intros [H|H]; auto.
    + destruct H as [->|[]]. now right.
Qed.

Lemma Set_add_NoDup s y : List.NoDup s -> List.NoDup (Set_add s y).
Proof.
  intros H. unfold Set_add. destruct (Set_has s y) eqn:E; [exact H|].
  apply List.NoDup_app; [exact H|repeat constructor; intros []|].
  intros x Hx [->|[]]. apply Set_has_In in Hx. congruence.
Qed.

Lemma Set_add_grows s y : exists t, Set_add s y = s ++ t.
Proof.
  unfold Set_add. destruct (Set_has s y).
  - exists []. now rewrite app_nil_r.
  - now exists [y].
Qed.

Lemma adding_all l s :
  (forall x, In x (fold_left Set_add l s) <-> In x s \/ In x l) /\
  (List.NoDup s -> List.NoDup (fold_left Set_add l s)) /\
  (exists t, fold_left Set_add l s = s ++ t).
Proof.
  revert s. induction l as [|y l IH]; intros s; cbn [fold_left].
  - repeat split; [now left|intros [H|[]]; exact H|auto|].
    exists []. now rewrite app_nil_r.
  - destruct (IH (Set_add s y)) as (Hin & Hnd & (t & Ht)).
    repeat split.
    + intros H. apply Hin in H as [H|H]; [|right; now right].
      apply Set_add_In in H as [H| ->]; [now left|right; now left].
    + intros [H|[<-|H]]; apply Hin.
      * left. apply Set_add_In. now left.
      * left. apply Set_add_In. now right.
      * now right.
    + intros H. now apply Hnd, Set_add_NoDup.
    + destruct (Set_add_grows s y) as (t0 & E).
      exists (t0 ++ t). now rewrite Ht, E, app_assoc.
Qed.

(** Every pattern of a list passes the validation. *)
Lemma addPatterns_accepts patterns final :
  (forall p, In p patterns -> validatePattern p = Return tt) ->
  addPatterns patterns final = Return (fold_left Set_add patterns final).
Proof.
  revert final. induction patterns as [|p rest IH]; intros final H;
    [reflexivity|].
  cbn [addPatterns fold_left]. rewrite (H p) by now left.
  apply IH. intros q Hq. apply H. now right.
Qed.

End QueryFacts.

Module QueryProperties.
Import QueryParser Spec Scenarios QueryParserFacts QueryFacts.

(** X5.  A call with a non-empty root in which every supplied pattern is
    a non-empty string over the allowed class returns a configuration
    for that root with the fixed limits.  Its exclude set holds the
    default patterns, first and unvalidated, and the supplied exclude
    patterns, and nothing else; its include set holds exactly the
    supplied include patterns; neither has a pattern twice. *)
Theorem parseQuery_accepts
        (defaults : list string) (root : string)
        (ignored included : option (list string)) :
  root <> "" ->
  (forall p, In p (supplied ignored included) ->
             p <> "" /\ Forall allowed (list_ascii_of_string p)) ->
  exists q,
    parseQuery defaults root ignored included = Return q /\
    repository q = root /\
    maxFiles q = MAX_FILES /\
    maxTotalSizeBytes q = MAX_TOTAL_SIZE_BYTES /\
    maxDirectoryDepth q = MAX_DIRECTORY_DEPTH /\
    (forall p, In p (ignorePatterns q) <->
               In p defaults \/ In p (default [] ignored)) /\
    (forall p, In p (includePatterns q) <-> In p (default [] included)) /\
    (exists rest, ignorePatterns q = Set_from defaults ++ rest) /\
    List.NoDup (ignorePatterns q) /\ List.NoDup (includePatterns q).
Proof.
  intros Hroot Hok. unfold parseQuery.
  apply String.eqb_neq in Hroot. rewrite Hroot.
  assert (Hign : forall p, In p (default [] ignored) ->
                           validatePattern p = Return tt).
  { intros p Hp. apply validatePattern_accepts, Hok.
    unfold supplied. apply in_or_app. now left. }
  assert (Hinc : forall p, In p (default [] included) ->
                           validatePattern p = Return tt).
  { intros p Hp. apply validatePattern_accepts, Hok.
    unfold supplied. apply in_or_app. now right. }
  destruct (adding_all defaults []) as (Hd_in & Hd_nd & _).
  specialize (Hd_nd (List.NoDup_nil _)).
  set (ign := match ignored with
              | Some patterns => addPatterns patterns (Set_from defaults)
              | None => Return (Set_from defaults)
              end).
  assert (Eign : ign = Return (fold_left Set_add (default [] ignored)
                                         (Set_from defaults))).
  { subst ign. destruct ignored as [l|]; [|reflexivity].
    now apply addPatterns_accepts. }
  rewrite Eign.
  set (inc := match included with
              | Some patterns => addPatterns patterns (Set_from [])
              | None => Return (Set_from [])
              end).
  assert (Einc : inc = Return (fold_left Set_add (default [] included) [])).
  { subst inc. destruct included as [l|]; [|reflexivity].
    now apply addPatterns_accepts. }
  rewrite Einc.
  destruct (adding_all (default [] ignored) (Set_from defaults))
    as (Hi_in & Hi_nd & Hi_pre).
  destruct (adding_all (default [] included) []) as (Hc_in & Hc_nd & _).
  eexists. split; [reflexivity|]. cbn.
  repeat split; try reflexivity.
  - intros H. apply Hi_in in H as [H|H]; [|now right].
    apply Hd_in in H as [[]|H]. now left.
  - intros [H|H]; apply Hi_in; [left|now right].
    apply Hd_in. now right.
  - intros H. now apply Hc_in in H as [[]|H].
  - intros H. apply Hc_in. now right.
  - exact Hi_pre.
  - now apply Hi_nd.
  - apply Hc_nd. constructor.
Qed.

Lemma parseQuery_accepts_witness :
  exists q,
    parseQuery sampleDefaults "/r" (Some ["*.pyc"; ".git"]) None = Return q /\
    repository q = "/r" /\
    maxFiles q = MAX_FILES /\
    maxTotalSizeBytes q = MAX_TOTAL_SIZE_BYTES /\
    maxDirectoryDepth q = MAX_DIRECTORY_DEPTH /\
    (forall p, In p (ignorePatterns q) <->
               In p sampleDefaults \/ In p (default [] (Some ["*.pyc"; ".git"]))) /\
    (forall p, In p (includePatterns q) <-> In p (default [] None)) /\
    (exists rest, ignorePatterns q = Set_from sampleDefaults ++ rest) /\
    List.NoDup (ignorePatterns q) /\ List.NoDup (includePatterns q).
Proof.
  apply (parseQuery_accepts sampleDefaults "/r" (Some ["*.pyc"; ".git"]) None).
  - discriminate.
  - intros p Hp. apply validatePattern_accepts.
    simpl in Hp. destruct Hp as [<-|[<-|[]]]; reflexivity.
Defined.

End QueryProperties.

Module RunFacts.
Import Ingestion Spec Trees WalkerFacts.


(** The walker only ever adds children to a Node: everything else a
    directory Node was given at its creation stays. *)
Section Head.
Variable rt : Runtime.
Variable query : ParsedQuery.
Variable scan : string -> Z -> M (option FileNode).

Lemma pushChild_head node child :
  sameHead node (pushChild node child).
Proof. repeat split. Qed.

Lemma pushChildOpt_head node child :
  sameHead node (pushChildOpt node child).
Proof. unfold pushChildOpt. destruct (children node); repeat split. Qed.

Lemma sameHead_trans a b c : sameHead a b -> sameHead b c -> sameHead a c.
Proof.
  unfold sameHead. intros (?&?&?&?&?) (?&?&?&?&?).
  repeat split; congruence.
Qed.

Lemma processFile_head filePath parentNode w node :
  fst (processFile rt filePath parentNode w) = Return node ->
  sameHead parentNode node.
Proof.
  destruct (processFile_cases rt filePath parentNode w)
    as [E|[[E _]|[E|(fileSize & _ & _ & _ & [[text E]|E])]]];
    rewrite E; cbn; try discriminate.
  intros [= <-]. apply pushChild_head.
Qed.

Lemma dispatchEntry_head entry entryPath node depth w node' :
  fst (dispatchEntry rt query scan entry entryPath node depth w)
    = Return node' ->
  sameHead node node'.
Proof.
  unfold dispatchEntry.
  destruct (isSymbolicLink entry).
  - unfold processSymlink.
    destruct (isSafeSymlink _ _ _); cbn [negb];
      [|cbn; intros [= <-]; repeat split].
    unfold bind at 1, await.
    destruct (fs_realpath rt entryPath) as [targetPath|]; cbn;
      [|discriminate].
    destruct (bool_decide _); cbn; [discriminate|].
    destruct (fs_stat rt targetPath) as [targetStats|]; cbn;
      [|discriminate].
    destruct (st_isDirectory targetStats);
      [|apply processFile_head].
    unfold bind.
    destruct (scan targetPath (depth + 1) _) as [[[c|]|e|] w2];
      cbn [fst ret]; try discriminate; intros [= <-];
      [apply pushChild_head|repeat split].
  - destruct (isDirectoryEntry entry); [|apply processFile_head].
    unfold bind.
    destruct (scan entryPath (depth + 1) w) as [[[c|]|e|] w2];
      cbn [fst ret]; try discriminate; intros [= <-];
      [apply pushChildOpt_head|repeat split].
Qed.

Lemma scanEntries_head dirPath depth entries node w node' :
  fst (scanEntries rt query scan dirPath depth entries node w)
    = Return node' ->
  sameHead node node'.
Proof.
  revert node w. induction entries as [|entry rest IH]; intros node w.
  - cbn. intros [= <-]. repeat split.
  - destruct (shouldExclude rt (path_join rt dirPath (d_name entry))
                (repository query) (ignorePatterns query)) eqn:E1;
      [rewrite scanEntries_excluded by assumption; now apply IH|].
    destruct (shouldInclude rt (path_join rt dirPath (d_name entry))
                (repository query) (includePatterns query)) eqn:E2;
      [|rewrite scanEntries_not_included by assumption; now apply IH].
    rewrite scanEntries_step by assumption.
    pose proof (dispatchEntry_head entry
                  (path_join rt dirPath (d_name entry)) node depth w) as H'.
    destruct (dispatchEntry _ _ _ _ _ _ _ _) as [[n1|e|] w']; cbn in H'.
    + intros H. apply sameHead_trans with n1; [now apply H'|].
      now apply IH in H.
    + destruct (isLimitError e); [discriminate|now apply IH].
    + discriminate.
Qed.

Lemma scanDirectoryBody_returns dirPath depth w node :
  fst (scanDirectoryBody rt query scan dirPath depth w)
    = Return (Some node) ->
  depth <= maxDirectoryDepth query /\
  sameHead {| name := path_basename rt dirPath; path := dirPath;
              size := size node; content := None;
              isDirectory := true; children := None |} node.
Proof.
  unfold scanDirectoryBody.
  destruct (Z.ltb_spec (maxDirectoryDepth query) depth) as [Hd|Hd];
    [discriminate|].
  unfold bind at 1, await.
  destruct (fs_stat rt dirPath) as [dirStats|]; cbn; [|discriminate].
  unfold try_catch, bind at 1, await.
  destruct (fs_readdir rt dirPath) as [entries|]; cbn; [|discriminate].
  unfold bind at 1.
  match goal with
  | |- context [scanEntries rt query scan dirPath depth entries ?n w] =>
      pose proof (fun n' => scanEntries_head dirPath depth entries n w n')
        as H';
      destruct (scanEntries rt query scan dirPath depth entries n w)
        as [[n1|e|] w']
  end; cbn in H' |- *; try discriminate.
  destruct (H' n1 eq_refl) as (H1 & H2 & H3 & H4 & H5). cbn in *.
  intros H. split; [exact Hd|].
  destruct (children n1); cbn in H; injection H as <-;
    repeat split; cbn; auto.
Qed.

Lemma scanDirectoryBody_throws_state dirPath depth w e w' :
  scanDirectoryBody rt query scan dirPath depth w = (Throw e, w') ->
  e = FsError dirPath /\ w' = w /\ depth <= maxDirectoryDepth query /\
  fs_stat rt dirPath = None.
Proof.
  unfold scanDirectoryBody.
  destruct (Z.ltb_spec (maxDirectoryDepth query) depth) as [Hd|Hd];
    [discriminate|].
  run. destruct (fs_stat rt dirPath) as [dirStats|]; cbn.
  - destruct (fs_readdir rt dirPath) as [entries|]; cbn; [|discriminate].
    destruct (scanEntries _ _ _ _ _ _ _ _) as [[node|e'|] w1]; cbn;
      try discriminate.
    destruct (children node); discriminate.
  - intros [= <- <-]. auto.
Qed.
End Head.

Section Budget.
Variable rt : Runtime.
Variable query : ParsedQuery.

(** The byte total grows by at most [MAX_FILE_SIZE] for each file
    counted. *)
Lemma totals_bounded fuel dirPath depth w :
  0 <= totalFiles (stats w) <= MAX_FILES /\
  totalSize (stats w) <= MAX_FILE_SIZE * totalFiles (stats w) ->
  let w' := snd (scanDirectory rt fuel query dirPath depth w) in
  0 <= totalFiles (stats w') <= MAX_FILES /\
  totalSize (stats w') <= MAX_FILE_SIZE * totalFiles (stats w').
Proof.
  apply (scanDirectory_preserves rt query
           (fun w => 0 <= totalFiles (stats w) <= MAX_FILES /\
                     totalSize (stats w)
                       <= MAX_FILE_SIZE * totalFiles (stats w))).
  - intros w0 l H. exact H.
  - intros w0 fileSize H H1 H2. cbn. lia.
  - intros w0 s t H _ _. exact H.
Qed.

Lemma ingestRepository_state repository query' :
  snd (ingestRepository rt repository query') =
  snd (scanDirectory rt (S (Z.to_nat (maxDirectoryDepth query' + 1)))
         query' repository 0
         {| seenPaths := ∅; stats := {| totalFiles := 0; totalSize := 0 |};
            console := [] |}).
Proof.
  unfold ingestRepository.
  destruct (scanDirectory _ _ _ _ _ _) as [[[r|]|e'|] w']; reflexivity.
Qed.
End Budget.

End RunFacts.

Module RunProperties.
Import Ingestion Spec Trees WalkerFacts RunFacts.

(** X6. Whatever the filesystem holds, when [ingestRepository] ends,
    by returning or by throwing, the file count lies between 0 and
    [MAX_FILES], and the byte total is at most [MAX_FILE_SIZE] for each
    file counted, hence at most [MAX_FILES * MAX_FILE_SIZE]: the walker
    never consults [maxTotalSizeBytes]. *)
Theorem ingestRepository_totals (rt : Runtime) (repository : string)
        (query : ParsedQuery) :
  let st := stats (snd (ingestRepository rt repository query)) in
  0 <= totalFiles st <= MAX_FILES /\
  totalSize st <= MAX_FILE_SIZE * totalFiles st /\
  totalSize st <= MAX_FILES * MAX_FILE_SIZE.
Proof.
  intros st. subst st. rewrite ingestRepository_state.
  match goal with
  | |- context [scanDirectory rt ?f query repository 0 ?w] =>
      pose proof (totals_bounded rt query f repository 0 w) as H
  end.
  cbn zeta in H. destruct H as [H1 H2]; [cbn; unfold MAX_FILES; lia|].
  split; [exact H1|]. split; [exact H2|].
  unfold MAX_FILE_SIZE, MAX_FILES in *. lia.
Qed.

(** X7. [ingestRepository] always ends, and in one of three ways: it
    returns the Node of the root directory together with the content
    string rendered from it; or the root cannot be inspected and the
    filesystem error of [stat] is thrown, nothing having been counted,
    recorded or logged; or the root yields no Node and the generic
    error [No files found in repository] is thrown.  No other error,
    and in particular neither limit error, reaches the caller. *)
Theorem ingestRepository_outcomes (rt : Runtime) (repository : string)
        (query : ParsedQuery) :
  (exists root w,
      ingestRepository rt repository query =
        (Return (root,
                 createFileContentString (extractFilesContent query root [])),
         w) /\
      path root = repository /\ isDirectory root = true /\
      0 <= maxDirectoryDepth query) \/
  (ingestRepository rt repository query =
     (Throw (FsError repository),
      {| seenPaths := ∅; stats := {| totalFiles := 0; totalSize := 0 |};
         console := [] |}) /\
   fs_stat rt repository = None /\ 0 <= maxDirectoryDepth query) \/
  (exists w,
      ingestRepository rt repository query =
        (Throw (Error "No files found in repository"), w)).
Proof.
  pose proof (ingestRepository_converges rt repository query) as Hc.
  unfold ingestRepository in *.
  destruct (scanDirectory rt _ query repository 0 _)
    as [[[root|]|e|] w'] eqn:E; cbn [fst] in Hc.
  - left. exists root, w'. split; [reflexivity|].
    cbn [scanDirectory] in E.
    apply (f_equal fst) in E. cbn [fst] in E.
    now apply scanDirectoryBody_returns in E as (Hd & (Hp & _ & _ & _ & Hi)).
  - right; right. now exists w'.
  - right; left. cbn [scanDirectory] in E.
    apply scanDirectoryBody_throws_state in E as (-> & -> & Hd & Es). auto.
  - congruence.
Qed.

End RunProperties.

(** ** query_ingestion.ts: the shape of the tree the walker returns *)

Module ShapeFacts.
Import Ingestion Spec Trees WalkerFacts SortFacts RunFacts.

Section Shape.
Variable rt : Runtime.
Variable query : ParsedQuery.

Lemma fileNode_shaped below filePath fileSize text :
  fileSize <= MAX_FILE_SIZE ->
  shaped rt below (fileNode rt filePath fileSize text).
Proof. intros H. destruct below; cbn; auto. Qed.

Lemma pushChild_gathering below node child :
  gathering rt below node -> shaped rt below child ->
  gathering rt below (pushChild node child).
Proof.
  intros (cs & E & H) Hc. exists (cs ++ [child]). cbn. rewrite E. cbn.
  split; [reflexivity|]. apply Forall_app. auto.
Qed.

Lemma pushChildOpt_gathering below node child :
  gathering rt below node -> shaped rt below child ->
  gathering rt below (pushChildOpt node child).
Proof.
  intros Hn Hc. unfold pushChildOpt.
  destruct Hn as (cs & E & H). rewrite E.
  apply pushChild_gathering; [now exists cs|exact Hc].
Qed.

Lemma processFile_gathering below filePath parentNode w node :
  gathering rt below parentNode ->
  fst (processFile rt filePath parentNode w) = Return node ->
  gathering rt below node.
Proof.
  intros Hn.
  destruct (processFile_cases rt filePath parentNode w)
    as [E|[[E _]|[E|(fileSize & _ & Hs & _ & [[text E]|E])]]];
    rewrite E; cbn; try discriminate.
  intros [= <-]. apply pushChild_gathering; [exact Hn|].
  apply fileNode_shaped. lia.
Qed.

Section Step.
Variable scan : string -> Z -> M (option FileNode).
Variable depth : Z.
Variable below : nat.
Hypothesis scan_shaped :
  forall p w node,
    fst (scan p (depth + 1) w) = Return (Some node) -> shaped rt below node.

Lemma dispatchEntry_gathering entry entryPath node w node' :
  gathering rt below node ->
  fst (dispatchEntry rt query scan entry entryPath node depth w)
    = Return node' ->
  gathering rt below node'.
Proof.
  intros Hn. unfold dispatchEntry.
  destruct (isSymbolicLink entry).
  - unfold processSymlink.
    destruct (isSafeSymlink _ _ _); cbn [negb];
      [|cbn; intros [= <-]; exact Hn].
    unfold bind at 1, await.
    destruct (fs_realpath rt entryPath) as [targetPath|]; cbn;
      [|discriminate].
    destruct (bool_decide _); cbn; [discriminate|].
    destruct (fs_stat rt targetPath) as [targetStats|]; cbn;
      [|discriminate].
    destruct (st_isDirectory targetStats);
      [|now apply processFile_gathering].
    unfold bind.
    match goal with
    | |- context [scan targetPath (depth + 1) ?w1] =>
        pose proof (scan_shaped targetPath w1) as Hs;
        destruct (scan targetPath (depth + 1) w1) as [[[c|]|e|] w2]
    end; cbn [fst ret] in *; try discriminate; intros [= <-];
      [apply pushChild_gathering; auto|exact Hn].
  - destruct (isDirectoryEntry entry); [|now apply processFile_gathering].
    unfold bind. pose proof (scan_shaped entryPath w) as Hs.
    destruct (scan entryPath (depth + 1) w) as [[[c|]|e|] w2];
      cbn [fst ret] in *; try discriminate; intros [= <-];
      [apply pushChildOpt_gathering; auto|exact Hn].
Qed.

Lemma scanEntries_gathering dirPath entries node w node' :
  gathering rt below node ->
  fst (scanEntries rt query scan dirPath depth entries node w)
    = Return node' ->
  gathering rt below node'.
Proof.
  revert node w. induction entries as [|entry rest IH]; intros node w Hn.
  - cbn. now intros [= <-].
  - destruct (shouldExclude rt (path_join rt dirPath (d_name entry))
                (repository query) (ignorePatterns query)) eqn:E1;
      [rewrite scanEntries_excluded by assumption; now apply IH|].
    destruct (shouldInclude rt (path_join rt dirPath (d_name entry))
                (repository query) (includePatterns query)) eqn:E2;
      [|rewrite scanEntries_not_included by assumption; now apply IH].
    rewrite scanEntries_step by assumption.
    pose proof (dispatchEntry_gathering entry
                  (path_join rt dirPath (d_name entry)) node w) as H'.
    destruct (dispatchEntry _ _ _ _ _ _ _ _) as [[n1|e|] w']; cbn in H'.
    + apply IH. now apply H'.
    + destruct (isLimitError e); [discriminate|now apply IH].
    + discriminate.
Qed.

Lemma scanDirectoryBody_shaped dirPath w node :
  fst (scanDirectoryBody rt query scan dirPath depth w)
    = Return (Some node) ->
  shaped rt (S below) node.
Proof.
  intros H.
  pose proof (scanDirectoryBody_returns rt query scan _ _ _ _ H)
    as (_ & Hp & Hn & _ & Hc & Hi). cbn in Hp, Hn, Hc, Hi.
  split; [congruence|]. right. split; [auto|]. split; [auto|].
  revert H. unfold scanDirectoryBody.
  destruct (maxDirectoryDepth query <? depth); [discriminate|].
  unfold bind at 1, await.
  destruct (fs_stat rt dirPath) as [dirStats|]; cbn; [|discriminate].
  unfold try_catch, bind at 1, await.
  destruct (fs_readdir rt dirPath) as [entries|]; cbn; [|discriminate].
  unfold bind at 1.
  match goal with
  | |- context [scanEntries rt query scan dirPath depth entries ?n w] =>
      pose proof (fun n' => scanEntries_gathering dirPath entries n w n')
        as H';
      destruct (scanEntries rt query scan dirPath depth entries n w)
        as [[n1|e|] w']
  end; cbn in H' |- *; try discriminate.
  destruct (H' n1) as (cs & Hcs & Hall);
    [exists []; split; [reflexivity|constructor]|reflexivity|].
  rewrite Hcs. cbn. intros [= <-]. cbn.
  exists (sortChildren rt cs). split; [reflexivity|].
  eapply Permutation_Forall; [apply sort_perm|exact Hall].
Qed.
End Step.

(** A walk entered at [depth] returns a tree with at most
    [maxDirectoryDepth - depth + 1] levels of directories. *)
Lemma scanDirectory_shaped fuel dirPath depth w node :
  fst (scanDirectory rt fuel query dirPath depth w) = Return (Some node) ->
  shaped rt (S (Z.to_nat (maxDirectoryDepth query - depth))) node.
Proof.
  revert dirPath depth w node.
  induction fuel as [|fuel IH]; intros dirPath depth w node H;
    [discriminate|].
  cbn [scanDirectory] in H.
  apply (scanDirectoryBody_shaped (scanDirectory rt fuel query) depth)
    with dirPath w; [|exact H].
  intros p w1 child Hc.
  assert (Hd : depth + 1 <= maxDirectoryDepth query).
  { destruct fuel as [|fuel']; [discriminate|]. cbn [scanDirectory] in Hc.
    now apply scanDirectoryBody_returns in Hc as [Hd _]. }
  apply IH in Hc.
  replace (Z.to_nat (maxDirectoryDepth query - depth))
    with (S (Z.to_nat (maxDirectoryDepth query - (depth + 1)))) by lia.
  exact Hc.
Qed.
End Shape.

Lemma shaped_levels rt levels node :
  shaped rt levels node -> (directoryLevels node <= levels)%nat.
Proof.
  revert levels.
  induction node as [n p s c d|n p s c d cs IH]
    using RenderFacts.FileNode_tree_ind; intros levels H.
  - destruct levels; cbn in H |- *;
      destruct H as [_ [(-> & _)|(-> & _ & H)]]; lia.
  - destruct levels as [|below]; cbn in H |- *;
      destruct H as [_ [(-> & _)|(-> & _ & H)]]; try lia.
    destruct H as (cs' & [= <-] & Hall). apply le_n_S.
    induction Hall as [|child cs' Hc Hall IHall]; cbn; [lia|].
    apply Forall_cons in IH as [IHc IHcs].
    apply Nat.max_lub; [now apply IHc|now apply IHall].
Qed.

Lemma shaped_head rt levels node :
  shaped rt levels node -> wellFormed rt node.
Proof.
  intros H.
  destruct levels; cbn in H;
    destruct H as [Hn [(Hf & Hc & Hs)|(Hd & Hc & H)]];
    (split; [exact Hn|]); rewrite ?Hf, ?Hd; auto.
  destruct H as (cs & -> & _). split; [exact Hc|discriminate].
Qed.

Lemma shaped_wellFormed rt levels node :
  shaped rt levels node -> Forall (wellFormed rt) (preorder node).
Proof.
  revert levels.
  induction node as [n p s c d|n p s c d cs IH]
    using RenderFacts.FileNode_tree_ind; intros levels H.
  - constructor; [now apply shaped_head with levels|constructor].
  - cbn [preorder children].
    constructor; [now apply shaped_head with levels|].
    destruct levels as [|below]; cbn in H;
      destruct H as [_ [(_ & [=] & _)|(_ & _ & H)]]; [destruct H|].
    destruct H as (cs' & [= <-] & Hall).
    induction Hall as [|child cs' Hch Hall IHall]; cbn; [constructor|].
    apply Forall_cons in IH as [IHc IHcs].
    apply Forall_app. split; [now apply IHc with below|now apply IHall].
Qed.

End ShapeFacts.

Module ShapeProperties.
Import Ingestion Spec Trees Disk Samples WalkerFacts ShapeFacts.

(** X8. The tree [ingestRepository] returns is well formed, whatever
    the filesystem holds: every Node is named by the last component of
    its path; a file Node has no children and a size of at most
    [MAX_FILE_SIZE]; a directory Node has a list of children and no
    content; and directories are nested at most [maxDirectoryDepth + 1]
    levels deep, the root included. *)
Theorem returned_tree_well_formed (rt : Runtime) (repository : string)
        (query : ParsedQuery) (root : FileNode) (text : string) (w : Walk) :
  ingestRepository rt repository query = (Return (root, text), w) ->
  Forall (wellFormed rt) (preorder root) /\
  (directoryLevels root <= S (Z.to_nat (maxDirectoryDepth query)))%nat.
Proof.
  unfold ingestRepository.
  destruct (scanDirectory rt _ query repository 0 _)
    as [[[r|]|e|] w'] eqn:E; try discriminate.
  intros [= <- _ _].
  apply (f_equal fst) in E. cbn [fst] in E.
  apply scanDirectory_shaped in E. rewrite Z.sub_0_r in E.
  split; [now apply shaped_wellFormed in E|now apply shaped_levels in E].
Qed.

Lemma returned_tree_well_formed_witness :
  Forall (wellFormed projectRuntime) (preorder projectRoot) /\
  (directoryLevels projectRoot
     <= S (Z.to_nat (maxDirectoryDepth (plainQuery "/r"))))%nat.
Proof.
  eapply (returned_tree_well_formed projectRuntime "/r" (plainQuery "/r")).
  vm_compute. reflexivity.
Defined.

End ShapeProperties.

(** ** The walk of a directory tree without symlinks *)

Module TreeFacts.
Import Ingestion Spec Trees WalkerFacts SortFacts.

Lemma Tree_nested_ind (P : Tree -> Prop) :
  (forall fileSize, P (TFile fileSize)) ->
  (forall entries, Forall (fun e => P (snd e)) entries -> P (TDir entries)) ->
  forall t, P t.
Proof.
  intros Hfile Hdir. fix IH 1. intros [fileSize|entries]; [apply Hfile|].
  apply Hdir. induction entries as [|e entries IHes]; constructor.
  - apply IH.
  - exact IHes.
Qed.

Lemma allOf_cons (P : Prop) (l : list Prop) : allOf (P :: l) = (P /\ allOf l).
Proof. reflexivity. Qed.

Lemma total_cons (x : Z) (l : list Z) : total (x :: l) = x + total l.
Proof. reflexivity. Qed.

Lemma fileCount_nonneg t : 0 <= fileCount t.
Proof.
  induction t as [fileSize|entries IH] using Tree_nested_ind;
    cbn [fileCount]; [lia|].
  induction IH as [|e entries He _ IH]; cbn [map]; [cbn; lia|].
  rewrite total_cons. lia.
Qed.

Lemma counts_nonneg (entries : list (string * Tree)) :
  0 <= total (map (fun e => fileCount (snd e)) entries).
Proof.
  induction entries as [|e entries IH]; cbn [map]; [cbn; lia|].
  rewrite total_cons. pose proof (fileCount_nonneg (snd e)). lia.
Qed.

Lemma tallied_tallied w a b c d :
  tallied (tallied w a b) c d = tallied w (a + c) (b + d).
Proof. unfold tallied. cbn. f_equal. f_equal; lia. Qed.

Lemma tallied_nothing w : tallied w 0 0 = w.
Proof.
  destruct w as [seen [files bytes] log]. unfold tallied. cbn.
  now rewrite !Z.add_0_r.
Qed.

Lemma fileNodes_directory node cs :
  isDirectory node = true -> children node = Some cs ->
  fileNodes node = flat_map fileNodes cs.
Proof.
  intros Hd Hc. unfold fileNodes.
  destruct node as [n p s c d k]. cbn in Hd, Hc. subst d k.
  cbn [preorder children List.filter isDirectory negb].
  induction cs as [|child cs IH]; [reflexivity|].
  cbn [flat_map]. now rewrite List.filter_app, map_app, IH.
Qed.

Lemma fileNodes_file rt filePath fileSize text :
  fileNodes (fileNode rt filePath fileSize text) = [(filePath, fileSize)].
Proof. reflexivity. Qed.

Section Walk.
Variable rt : Runtime.
Variable query : ParsedQuery.

Lemma file_visited fileSize : visited_as_entry rt query (TFile fileSize).
Proof.
  intros fuel entryName entryPath depth node w _ _ Hh (Hs & Hn) Hb.
  cbn in Hh, Hb.
  unfold dispatchEntry, direntOf, isSymbolicLink, isDirectoryEntry.
  cbn [d_type snd].
  rewrite (processFile_counted rt entryPath node w _ Hh) by (cbn; lia).
  cbn [st_size].
  change (counted w fileSize) with (tallied w 1 fileSize).
  destruct (isTextFile rt entryPath); [|eexists; split; reflexivity].
  destruct (endsWith entryPath ".ipynb"); [|eexists; split; reflexivity].
  destruct (processNotebook rt entryPath) as [text|];
    [eexists; split; reflexivity|].
  now destruct Hn.
Qed.

Lemma entries_visited fuel dirPath depth entries :
  Forall (fun e => visited_as_entry rt query (snd e)) entries ->
  enoughFuel query (depth + 1) fuel ->
  forall node cs w,
    children node = Some cs ->
    allOf (map (fun e => holds rt (path_join rt dirPath (fst e)) (snd e))
               entries) ->
    allOf (map (fun e =>
                  let entryPath := path_join rt dirPath (fst e) in
                  shouldExclude rt entryPath (repository query)
                                (ignorePatterns query) = false /\
                  shouldInclude rt entryPath (repository query)
                                (includePatterns query) = true /\
                  taken rt query entryPath (depth + 1) (snd e))
               entries) ->
    totalFiles (stats w) + total (map (fun e => fileCount (snd e)) entries)
      <= MAX_FILES ->
    exists kids,
      scanEntries rt query (scanDirectory rt fuel query) dirPath depth
                  (map direntOf entries) node w =
        (Return (withChildren node (cs ++ kids)),
         tallied w (total (map (fun e => fileCount (snd e)) entries))
                   (total (map (fun e => treeSize (snd e)) entries))) /\
      Permutation (flat_map fileNodes kids)
                  (flat_map (fun e => filesOf rt (path_join rt dirPath (fst e))
                                              (snd e)) entries).
Proof.
  intros Hall Hfuel.
  induction Hall as [|[entryName t] entries He _ IH]; intros node cs w Hc.
  - intros _ _ _. exists []. cbn. rewrite app_nil_r, tallied_nothing.
    split; [|constructor].
    destruct node; cbn in Hc; subst; reflexivity.
  - cbn [map]. rewrite !allOf_cons, !total_cons. cbn [fst snd].
    intros (Hh & Hhs) ((E1 & E2 & Ht) & Hts) Hb.
    pose proof (counts_nonneg entries) as Hpos.
    rewrite scanEntries_step by assumption.
    change (d_name (direntOf (entryName, t))) with entryName.
    cbn [snd] in He.
    destruct (He fuel entryName (path_join rt dirPath entryName) depth
                 node w) as (child & -> & Hperm); eauto; [lia|].
    destruct (IH (pushChild node child) (cs ++ [child])
                 (tallied w (fileCount t) (treeSize t)))
      as (kids & -> & Hperms); auto.
    + cbn. now rewrite Hc.
    + cbn. lia.
    + exists (child :: kids). rewrite tallied_tallied, <- app_assoc.
      split; [reflexivity|]. cbn [flat_map].
      now apply Permutation_app.
Qed.

Lemma directory_visited fuel dirPath depth entries w :
  Forall (fun e => visited_as_entry rt query (snd e)) entries ->
  enoughFuel query depth fuel ->
  holds rt dirPath (TDir entries) ->
  taken rt query dirPath depth (TDir entries) ->
  totalFiles (stats w) + fileCount (TDir entries) <= MAX_FILES ->
  exists node,
    scanDirectory rt fuel query dirPath depth w =
      (Return (Some node),
       tallied w (fileCount (TDir entries)) (treeSize (TDir entries))) /\
    path node = dirPath /\ isDirectory node = true /\
    Permutation (fileNodes node) (filesOf rt dirPath (TDir entries)).
Proof.
  intros Hall Hfuel ((dirSize & Hs) & Hr & Hhs) (Hd & Hts) Hb.
  destruct fuel as [|fuel]; [unfold enoughFuel in Hfuel; lia|].
  cbn [scanDirectory]. unfold scanDirectoryBody.
  destruct (Z.ltb_spec (maxDirectoryDepth query) depth) as [Hd'|_]; [lia|].
  unfold bind at 1, await. rewrite Hs. cbn [ret st_size].
  unfold try_catch, bind at 1, await. rewrite Hr. cbn [ret].
  unfold bind at 1.
  match goal with
  | |- context [scanEntries rt query _ dirPath depth _ ?n w] =>
      destruct (entries_visited fuel dirPath depth entries Hall
                  ltac:(unfold enoughFuel in *; lia) n [] w eq_refl Hhs Hts Hb)
        as (kids & -> & Hperm)
  end.
  cbn [children withChildren app]. unfold ret.
  eexists. split; [reflexivity|]. cbn [path isDirectory].
  split; [reflexivity|]. split; [reflexivity|].
  erewrite fileNodes_directory by reflexivity.
  rewrite <- Hperm. apply Permutation_flat_map. symmetry. apply sort_perm.
Qed.

Lemma every_tree_visited t : visited_as_entry rt query t.
Proof.
  induction t as [fileSize|entries IH] using Tree_nested_ind;
    [apply file_visited|].
  intros fuel entryName entryPath depth node w [cs Hc] Hfuel Hh Ht Hb.
  rewrite dispatchEntry_descends by reflexivity.
  destruct (directory_visited fuel entryPath (depth + 1) entries w
              IH Hfuel Hh Ht Hb) as (child & -> & _ & _ & Hperm).
  exists child. split; [|exact Hperm].
  unfold pushChildOpt. now rewrite Hc.
Qed.
End Walk.

End TreeFacts.

Module TreeProperties.
Import Ingestion Spec Trees Disk Samples WalkerFacts TreeFacts.

(** X9. On a directory tree without symlinks in which nothing is
    filtered out, no directory lies past the depth limit, no file is
    larger than [MAX_FILE_SIZE], no notebook is turned down, and there
    are at most [MAX_FILES] files, [ingestRepository] returns a tree
    that holds every file of the directory tree exactly once, with its
    path and size; the file count it reports is the number of files,
    the byte total is the sum of their sizes, and nothing is logged or
    recorded as visited. *)
Theorem plain_tree_counted_once (rt : Runtime) (query : ParsedQuery)
        (entries : list (string * Tree)) :
  let t := TDir entries in
  holds rt (repository query) t ->
  taken rt query (repository query) 0 t ->
  fileCount t <= MAX_FILES ->
  exists root,
    ingestRepository rt (repository query) query =
      (Return (root,
               createFileContentString (extractFilesContent query root [])),
       {| seenPaths := ∅;
          stats := {| totalFiles := fileCount t; totalSize := treeSize t |};
          console := [] |}) /\
    Permutation (fileNodes root) (filesOf rt (repository query) t).
Proof.
  intros t Hh Ht Hb. unfold ingestRepository.
  match goal with
  | |- context [scanDirectory rt ?f query _ 0 ?w] =>
      destruct (directory_visited rt query f (repository query) 0 entries w)
        as (root & -> & _ & _ & Hperm); auto
  end.
  - apply List.Forall_forall. intros e _. apply every_tree_visited.
  - unfold enoughFuel. lia.
  - exists root. split; [reflexivity|exact Hperm].
Qed.

Lemma plain_tree_counted_once_witness :
  exists root,
    ingestRepository projectRuntime "/r" (plainQuery "/r") =
      (Return (root,
               createFileContentString
                 (extractFilesContent (plainQuery "/r") root [])),
       {| seenPaths := ∅;
          stats := {| totalFiles := 3; totalSize := 10 |};
          console := [] |}) /\
    Permutation (fileNodes root)
                [("/r/main.ts", 5); ("/r/src/a.ts", 3); ("/r/README.md", 2)].
Proof.
  apply (plain_tree_counted_once projectRuntime (plainQuery "/r")
           [ ("main.ts", TFile 5);
             ("src", TDir [("a.ts", TFile 3); ("lib", TDir [])]);
             ("README.md", TFile 2) ]).
  - cbn. repeat split; eauto.
  - cbn. repeat split; try (vm_compute; congruence); discriminate.
  - vm_compute. discriminate.
Defined.

End TreeProperties.

(** ** repository_ingest.ts: the size of a directory *)

Module SizingFacts.
Import Ingestion Trees RepositoryIngest TreeFacts.

Section Sizing.
Variable rt : Runtime.

(** What [processItem] does with the tree [t]: its bytes are added to
    the running total. *)
Lemma processItem_sums t :
  forall fuel itemPath totalSize,
    holds rt itemPath t -> (treeHeight t <= fuel)%nat ->
    processItem rt fuel itemPath totalSize =
      Return (totalSize + treeSize t).
Proof.
  induction t as [fileSize|entries IH] using Tree_nested_ind;
    intros fuel itemPath totalSize Hh Hf.
  - destruct fuel as [|fuel]; [cbn in Hf; lia|].
    cbn in Hh |- *. now rewrite Hh.
  - destruct fuel as [|fuel]; [cbn in Hf; lia|].
    destruct Hh as ((dirSize & Hs) & Hr & Hhs).
    cbn [processItem]. rewrite Hs. cbn [st_isDirectory]. rewrite Hr.
    cbn [treeHeight] in Hf. apply le_S_n in Hf. cbn [treeSize].
    clear Hs Hr. revert totalSize Hhs Hf.
    induction IH as [|[entryName t] entries He _ IHes]; intros totalSize.
    + intros _ _. cbn. now rewrite Z.add_0_r.
    + cbn [map fold_right]. rewrite allOf_cons, total_cons.
      cbn [fst snd d_name direntOf] in *.
      intros (Hh & Hhs) Hf.
      rewrite (He fuel _ totalSize Hh) by lia.
      rewrite IHes by (auto; lia). f_equal. lia.
Qed.
End Sizing.

End SizingFacts.

Module SizingProperties.
Import Ingestion Trees Disk Samples RepositoryIngest SizingFacts.

(** X10. On a directory tree without symlinks, given a call stack deep
    enough for the height of the tree, [calculateDirectorySize] returns
    the sum of the sizes of all regular files in the tree: the sizes
    the directories themselves report are left out, and no pattern, no
    depth limit and no file limit plays a part. *)
Theorem calculateDirectorySize_sums (rt : Runtime) (dirPath : string)
        (t : Tree) (fuel : nat) :
  holds rt dirPath t -> (treeHeight t <= fuel)%nat ->
  calculateDirectorySize rt fuel dirPath = Return (treeSize t).
Proof.
  intros Hh Hf. unfold calculateDirectorySize.
  now rewrite (processItem_sums rt t fuel dirPath 0 Hh Hf).
Qed.

Lemma calculateDirectorySize_sums_witness :
  calculateDirectorySize projectRuntime 3 "/r" = Return 10.
Proof.
  apply (calculateDirectorySize_sums projectRuntime "/r" projectTree 3).
  - cbn. repeat split; eauto.
  - cbn. lia.
Defined.

End SizingProperties.

(** ** query_ingestion.ts: the structure string *)

Module StructureFacts.
Import Ingestion Spec Structure.

Lemma append_assoc (a b c : string) : (a +:+ b) +:+ c = a +:+ (b +:+ c).
Proof.
  induction a as [|x a IH]; [reflexivity|].
  change (String x ((a +:+ b) +:+ c) = String x (a +:+ (b +:+ c))).
  now rewrite IH.
Qed.

Lemma join_cons sep x r :
  r <> [] -> join sep (x :: r) = x +:+ sep +:+ join sep r.
Proof. destruct r; [congruence|reflexivity]. Qed.

Lemma join_app sep xs ys :
  xs <> [] -> ys <> [] ->
  join sep (xs ++ ys) = join sep xs +:+ sep +:+ join sep ys.
Proof.
  intros Hx Hy. induction xs as [|x xs IH]; [congruence|].
  destruct xs as [|x' xs].
  - cbn [app]. now rewrite join_cons.
  - cbn [app] in *. rewrite (join_cons sep x (x' :: xs ++ ys)) by discriminate.
    rewrite (join_cons sep x (x' :: xs)) by discriminate.
    rewrite IH by discriminate. now rewrite !append_assoc.
Qed.

(** Pushing the joined lines of a subtree as one element gives the same
    string as pushing its lines one by one. *)
Lemma join_nested sep xs ys zs :
  xs <> [] -> ys <> [] ->
  join sep ((xs ++ [join sep ys]) ++ zs) = join sep ((xs ++ ys) ++ zs).
Proof.
  intros Hx Hy.
  assert (H : join sep (xs ++ [join sep ys]) = join sep (xs ++ ys))
    by now rewrite !join_app.
  destruct zs as [|z zs]; [now rewrite !app_nil_r|].
  rewrite (join_app sep (xs ++ [join sep ys])), (join_app sep (xs ++ ys));
    try discriminate; try (now destruct xs).
  now rewrite H.
Qed.

Lemma outline_nonempty node prefix isLast : outline node prefix isLast <> [].
Proof. destruct node as [n p s c d [cs|]]; discriminate. Qed.

Lemma createTreeStructure_outline query node :
  forall prefix isLast,
    createTreeStructure query node prefix isLast =
      join LF (outline node prefix isLast).
Proof.
  induction node as [n p s c d|n p s c d cs IH]
    using RenderFacts.FileNode_tree_ind; intros prefix isLast;
    [reflexivity|].
  cbn [createTreeStructure outline children name].
  set (childPrefix := prefix +:+ (if isLast then lastIndent else midIndent)).
  generalize ((prefix +:+ (if isLast then lastBranch else midBranch)) +:+ n).
  intros line.
  match goal with
  | |- _ = join LF (line :: ?l) => change (line :: l) with ([line] ++ l)
  end.
  assert (Hne : [line] <> []) by discriminate.
  revert Hne. generalize [line]. clear line.
  induction IH as [|child cs Hc _ IHcs]; intros acc Hne.
  - now rewrite app_nil_r.
  - rewrite Hc, IHcs by (now destruct acc).
    rewrite join_nested; [|exact Hne|apply outline_nonempty].
    now rewrite <- app_assoc.
Qed.

(** Every line of the outline is an indentation followed by the name of
    the Node at the same place of the pre-order. *)
Lemma outline_preorder node :
  forall prefix isLast,
    Forall2 (fun line n => exists indent, line = indent +:+ name n)
            (outline node prefix isLast) (preorder node).
Proof.
  induction node as [n p s c d|n p s c d cs IH]
    using RenderFacts.FileNode_tree_ind; intros prefix isLast.
  - repeat constructor. eexists. reflexivity.
  - cbn [outline preorder children name].
    constructor; [eexists; reflexivity|].
    generalize (prefix +:+ (if isLast then lastIndent else midIndent)).
    intros childPrefix.
    induction IH as [|child cs Hc _ IHcs]; [constructor|].
    cbn [flat_map]. apply Forall2_app; [apply Hc|apply IHcs].
Qed.

End StructureFacts.

Module StructureProperties.
Import Ingestion Spec Structure StructureFacts.

(** X11. The structure string [createTreeStructure] renders, although
    built by joining strings that are themselves joined lines, is the
    flat list of lines of the outline joined by line feeds: one line
    for every Node of the tree, in depth-first pre-order, each made of
    an indentation followed by the name of its Node. *)
Theorem structure_lists_every_node (query : ParsedQuery) (node : FileNode)
        (prefix : string) (isLast : bool) :
  createTreeStructure query node prefix isLast =
    join LF (outline node prefix isLast) /\
  Forall2 (fun line n => exists indent, line = indent +:+ name n)
          (outline node prefix isLast) (preorder node).
Proof.
  split; [apply createTreeStructure_outline|apply outline_preorder].
Qed.

End StructureProperties.

(** ** query_ingestion.ts: sorting what is sorted, and a file on its own *)

Module ResortFacts.
Import Ingestion Spec Notions Disk SortFacts OrderFacts DiskFacts.

(** The insertion sort leaves a list alone in which every element stands
    before, or level with, those after it. *)
Lemma sort_sorted_fixed {A} (cmp : A -> A -> Z) (l : list A) :
  StronglySorted (before cmp) l -> JS.sort cmp l = l.
Proof.
  induction 1 as [|x l Hs IH Hx]; [reflexivity|].
  change (JS.sort cmp (x :: l)) with (insert_by cmp x (JS.sort cmp l)).
  rewrite IH. destruct Hx as [|y l Hxy _]; [reflexivity|].
  cbn. unfold before in Hxy. apply Z.leb_le in Hxy. now rewrite Hxy.
Qed.

Lemma sortChildren_fixed rt cs :
  StronglySorted (precedes (localeCompare rt)) cs -> sortChildren rt cs = cs.
Proof.
  intros H. apply sort_sorted_fixed.
  eapply sorted_impl; [|exact H].
  intros a b. unfold before. apply compareChildren_precedes.
Qed.


Lemma consistent_total collate :
  collationConsistent collate -> collationTotal collate.
Proof.
  intros (_ & Hswap & _) a b.
  destruct (Z.le_gt_cases (collate a b) 0) as [H|H]; [now left|right].
  assert (collate b a < 0) by (apply Hswap; lia). lia.
Qed.

Lemma consistent_transitive collate :
  collationConsistent collate -> collationTransitive collate.
Proof. intros (_ & _ & Htrans). exact Htrans. Qed.

Lemma byteCompare_consistent : collationConsistent byteCompare.
Proof.
  split; [|split].
  - intros a. unfold byteCompare.
    pose proof (String.compare_antisym a a) as H.
    destruct (String.compare a a); [reflexivity|discriminate|discriminate].
  - intros a b. unfold byteCompare.
    rewrite (String.compare_antisym b a).
    destruct (String.compare a b); cbn; lia.
  - exact byteCompare_transitive.
Qed.

End ResortFacts.

Module ResortProperties.
Import Ingestion Spec Notions Disk Scenarios.
Import SortFacts OrderFacts DiskFacts ResortFacts.

(** X12. With a collation that orders strings consistently, and among
    children with at most one readme, [sortChildren] leaves children
    alone that already stand in the order of the walker, and sorting a
    second time changes nothing: the tree renderer can take the
    children of a returned Node as they are.  (Two readmes are ranked
    each before the other by the comparator, and the order the engine
    leaves them in is its own.) *)
Theorem sortChildren_idempotent (rt : Runtime) (cs : list FileNode) :
  collationConsistent (localeCompare rt) ->
  oneReadme cs ->
  (StronglySorted (precedes (localeCompare rt)) cs ->
   sortChildren rt cs = cs) /\
  sortChildren rt (sortChildren rt cs) = sortChildren rt cs.
Proof.
  intros Hc _. split; [apply sortChildren_fixed|].
  apply sortChildren_fixed.
  apply sortChildren_sorted;
    [now apply consistent_total|now apply consistent_transitive].
Qed.

Lemma sortChildren_idempotent_witness :
  let rt := runtime withEmptyFile noNotebooks in
  (StronglySorted (precedes (localeCompare rt)) unsortedChildren ->
   sortChildren rt unsortedChildren = unsortedChildren) /\
  sortChildren rt (sortChildren rt unsortedChildren) =
    sortChildren rt unsortedChildren.
Proof.
  apply (sortChildren_idempotent (runtime withEmptyFile noNotebooks)
           unsortedChildren).
  - exact byteCompare_consistent.
  - unfold oneReadme. vm_compute. lia.
Defined.

End ResortProperties.

Module SingleFileProperties.
Import Ingestion Spec Trees Disk Scenarios WalkerFacts.

(** X13. A file ingested on its own by [ingestFile] fares as it does
    when the walker meets it with room left in the file count:
    [processFile] throws what [ingestFile] throws, and otherwise appends
    to the parent exactly the Node [ingestFile] builds.  The content
    string of [ingestFile] is the content of that Node, or the empty
    string when it has none, and the counters it reports are one file
    of the size [stat] gave. *)
Theorem ingestFile_agrees_with_walk (rt : Runtime) (filePath : string)
        (query : ParsedQuery) (parentNode : FileNode) (w : Walk) :
  totalFiles (stats w) < MAX_FILES ->
  fst (processFile rt filePath parentNode w) =
    match fst (ingestFile rt filePath query) with
    | Return (node, _) => Return (pushChild parentNode node)
    | Throw e => Throw e
    | Diverge => Diverge
    end /\
  (forall node text,
      fst (ingestFile rt filePath query) = Return (node, text) ->
      text = default "" (content node) /\
      wellFormed rt node /\ isDirectory node = false /\
      snd (ingestFile rt filePath query) =
        {| totalFiles := 1; totalSize := size node |}).
Proof.
  intros Hroom. unfold ingestFile.
  destruct (fs_stat rt filePath) as [fileStats|] eqn:Es.
  - destruct (Z.ltb_spec MAX_FILE_SIZE (st_size fileStats)) as [Hs|Hs].
    + rewrite (processFile_maxFileSize rt _ _ _ _ Es Hroom Hs).
      split; [reflexivity|]. intros node text [=].
    + rewrite (processFile_counted rt _ _ _ _ Es Hroom Hs).
      destruct (isTextFile rt filePath);
        [destruct (endsWith filePath ".ipynb");
         [destruct (processNotebook rt filePath)|]|];
        (split; [reflexivity|]); cbn; intros node text' [=]; subst;
        repeat split; auto.
  - rewrite (processFile_stat_fails rt _ _ _ Es).
    split; [reflexivity|]. intros node text [=].
Qed.

Lemma ingestFile_agrees_with_walk_witness :
  let rt := runtime withEmptyFile noNotebooks in
  let q := plainQuery "/r" in
  let parent := directoryNode "r" "/r" [] in
  fst (processFile rt "/r/b.txt" parent start) =
    match fst (ingestFile rt "/r/b.txt" q) with
    | Return (node, _) => Return (pushChild parent node)
    | Throw e => Throw e
    | Diverge => Diverge
    end /\
  (forall node text,
      fst (ingestFile rt "/r/b.txt" q) = Return (node, text) ->
      text = default "" (content node) /\
      wellFormed rt node /\ isDirectory node = false /\
      snd (ingestFile rt "/r/b.txt" q) =
        {| totalFiles := 1; totalSize := size node |}).
Proof.
  apply (ingestFile_agrees_with_walk (runtime withEmptyFile noNotebooks)
           "/r/b.txt" (plainQuery "/r") (directoryNode "r" "/r" []) start).
  vm_compute. reflexivity.
Defined.

End SingleFileProperties.

(** ** query_ingestion.ts: what is in the tree passed the filters *)

Module ProvenanceFacts.
Import Ingestion Spec Trees WalkerFacts SortFacts RunFacts TreeFacts.

Lemma allOf_Forall {A} (P : A -> Prop) (l : list A) :
  allOf (map P l) <-> Forall P l.
Proof.
  induction l as [|x l IH]; cbn [map].
  - split; [constructor|exact (fun _ => I)].
  - rewrite allOf_cons, IH. split.
    + intros [H1 H2]. now constructor.
    + intros H. now apply Forall_cons in H.
Qed.

Section Provenance.
Variable rt : Runtime.
Variable query : ParsedQuery.

Lemma admitted_leaf node : children node = None -> admitted rt query node.
Proof. intros E. destruct node as [n p s c d k]. cbn in E. now subst k. Qed.

Lemma processFile_arrives filePath parentNode w node :
  fst (processFile rt filePath parentNode w) = Return node ->
  exists child, node = pushChild parentNode child /\
                path child = filePath /\ admitted rt query child.
Proof.
  destruct (processFile_cases rt filePath parentNode w)
    as [E|[[E _]|[E|(fileSize & _ & _ & _ & [[text E]|E])]]];
    rewrite E; cbn; try discriminate.
  intros [= <-]. eexists. split; [reflexivity|]. split; reflexivity.
Qed.

Section Step.
Variable scan : string -> Z -> M (option FileNode).
Variable depth : Z.
Hypothesis scan_admitted :
  forall p w node,
    fst (scan p (depth + 1) w) = Return (Some node) ->
    admitted rt query node /\ path node = p.

Lemma dispatchEntry_arrives entry entryPath node w node' :
  fst (dispatchEntry rt query scan entry entryPath node depth w)
    = Return node' ->
  node' = node \/
  exists child,
    node' = pushChild node child /\ admitted rt query child /\
    (path child = entryPath \/
     (isSymbolicLink entry = true /\
      isSafeSymlink rt entryPath (repository query) = true /\
      fs_realpath rt entryPath = Some (path child))).
Proof.
  unfold dispatchEntry.
  destruct (isSymbolicLink entry).
  - unfold processSymlink.
    destruct (isSafeSymlink _ _ _); cbn [negb];
      [|cbn; intros [= <-]; now left].
    unfold bind at 1, await.
    destruct (fs_realpath rt entryPath) as [targetPath|]; cbn;
      [|discriminate].
    destruct (bool_decide _); cbn; [discriminate|].
    destruct (fs_stat rt targetPath) as [targetStats|]; cbn;
      [|discriminate].
    destruct (st_isDirectory targetStats).
    + unfold bind.
      match goal with
      | |- context [scan targetPath (depth + 1) ?w1] =>
          pose proof (scan_admitted targetPath w1) as Hs;
          destruct (scan targetPath (depth + 1) w1) as [[[c|]|e|] w2]
      end; cbn [fst ret] in *; try discriminate; intros [= <-];
        [|now left].
      destruct (Hs c eq_refl) as [Ha Hp]. right. exists c.
      split; [reflexivity|]. split; [exact Ha|]. right. now rewrite Hp.
    + intros H. apply processFile_arrives in H as (child & -> & Hp & Ha).
      right. exists child. split; [reflexivity|]. split; [exact Ha|].
      right. now rewrite Hp.
  - destruct (isDirectoryEntry entry).
    + unfold bind. pose proof (scan_admitted entryPath w) as Hs.
      destruct (scan entryPath (depth + 1) w) as [[[c|]|e|] w2];
        cbn [fst ret] in *; try discriminate; intros [= <-]; [|now left].
      destruct (Hs c eq_refl) as [Ha Hp].
      unfold pushChildOpt. destruct (children node); [|now left].
      right. exists c. auto.
    + intros H. apply processFile_arrives in H as (child & -> & Hp & Ha).
      right. exists child. auto.
Qed.

Lemma scanEntries_admits dirPath listing entries node w node' :
  (forall entry, In entry entries -> In entry listing) ->
  admitting rt query dirPath listing node ->
  fst (scanEntries rt query scan dirPath depth entries node w)
    = Return node' ->
  admitting rt query dirPath listing node'.
Proof.
  revert node w. induction entries as [|entry rest IH];
    intros node w Hincl Hn.
  - cbn. now intros [= <-].
  - assert (Hrest : forall e, In e rest -> In e listing)
      by (intros e He; apply Hincl; now right).
    destruct (shouldExclude rt (path_join rt dirPath (d_name entry))
                (repository query) (ignorePatterns query)) eqn:E1;
      [rewrite scanEntries_excluded by assumption; now apply IH|].
    destruct (shouldInclude rt (path_join rt dirPath (d_name entry))
                (repository query) (includePatterns query)) eqn:E2;
      [|rewrite scanEntries_not_included by assumption; now apply IH].
    rewrite scanEntries_step by assumption.
    pose proof (dispatchEntry_arrives entry
                  (path_join rt dirPath (d_name entry)) node w) as H'.
    destruct (dispatchEntry _ _ _ _ _ _ _ _) as [[n1|e|] w']; cbn in H'.
    + apply IH; [exact Hrest|].
      destruct (H' n1 eq_refl) as [->|(child & -> & Ha & Hp)]; [exact Hn|].
      destruct Hn as (cs & Hc & Hall). exists (cs ++ [child]).
      cbn. rewrite Hc. split; [reflexivity|].
      apply Forall_app. split; [exact Hall|]. constructor; [|constructor].
      split; [|exact Ha]. exists entry.
      split; [apply Hincl; now left|]. repeat split; assumption.
    + destruct (isLimitError e); [discriminate|now apply IH].
    + discriminate.
Qed.

Lemma scanDirectoryBody_admitted dirPath w node :
  fst (scanDirectoryBody rt query scan dirPath depth w)
    = Return (Some node) ->
  admitted rt query node /\ path node = dirPath.
Proof.
  intros H.
  pose proof (scanDirectoryBody_returns rt query scan _ _ _ _ H)
    as (_ & Hp & _). cbn in Hp.
  split; [|now symmetry]. revert H. unfold scanDirectoryBody.
  destruct (maxDirectoryDepth query <? depth); [discriminate|].
  unfold bind at 1, await.
  destruct (fs_stat rt dirPath) as [dirStats|]; cbn; [|discriminate].
  unfold try_catch, bind at 1, await.
  destruct (fs_readdir rt dirPath) as [entries|] eqn:Er; cbn;
    [|discriminate].
  unfold bind at 1.
  match goal with
  | |- context [scanEntries rt query scan dirPath depth entries ?n w] =>
      pose proof (fun n' => scanEntries_admits dirPath entries entries n w n'
                              (fun e He => He))
        as H';
      destruct (scanEntries rt query scan dirPath depth entries n w)
        as [[n1|e|] w']
  end; cbn in H' |- *; try discriminate.
  destruct (H' n1) as (cs & Hcs & Hall);
    [exists []; split; [reflexivity|constructor]|reflexivity|].
  rewrite Hcs. cbn. intros [= <-].
  cbn [admitted children withChildren]. apply allOf_Forall.
  eapply Permutation_Forall; [apply sort_perm|].
  eapply List.Forall_impl; [|exact Hall].
  intros c [(entry & Hin & Hst) Ha]. split; [|exact Ha].
  exists entries, entry. cbn in Hp |- *. rewrite <- Hp. auto.
Qed.
End Step.

Lemma scanDirectory_admitted fuel dirPath depth w node :
  fst (scanDirectory rt fuel query dirPath depth w) = Return (Some node) ->
  admitted rt query node /\ path node = dirPath.
Proof.
  revert dirPath depth w node.
  induction fuel as [|fuel IH]; intros dirPath depth w node H;
    [discriminate|].
  cbn [scanDirectory] in H.
  apply (scanDirectoryBody_admitted (scanDirectory rt fuel query) depth)
    with w; [|exact H].
  intros p w1 child. apply IH.
Qed.

(** Read off Node by Node. *)
Lemma admitted_everywhere root :
  admitted rt query root ->
  forall parent cs c,
    In parent (preorder root) -> children parent = Some cs -> In c cs ->
    stems rt query parent c.
Proof.
  induction root as [n p s c d|n p s c d cs IH]
    using RenderFacts.FileNode_tree_ind; intros Ha parent cs' c' Hin Hc Hc'.
  - destruct Hin as [<-|[]]. discriminate.
  - cbn [admitted children] in Ha. apply allOf_Forall in Ha.
    destruct Hin as [<-|Hin].
    + injection Hc as <-.
      rewrite List.Forall_forall in Ha. now apply Ha.
    + cbn [children] in Hin. apply in_flat_map in Hin as (child & Hch & Hin).
      rewrite List.Forall_forall in IH, Ha.
      apply (IH child Hch (proj2 (Ha child Hch)) parent cs' c'); assumption.
Qed.
End Provenance.

End ProvenanceFacts.

Module ProvenanceProperties.
Import Ingestion Spec Trees Disk Samples ProvenanceFacts.

(** X14. Whatever [ingestRepository] returns, every Node in the tree
    other than the root stems from an entry that the directory of its
    parent Node lists and that passes both filters: the entry's path is
    matched by no exclude pattern and, when there are include patterns,
    by one of them; the Node carries the path of that entry or, when the
    entry is a safe symlink, its real path.  So an include pattern has
    to match a directory for anything below it to be reached. *)
Theorem tree_passed_the_filters (rt : Runtime) (repository : string)
        (query : ParsedQuery) (root : FileNode) (text : string) (w : Walk) :
  ingestRepository rt repository query = (Return (root, text), w) ->
  forall parent cs c,
    In parent (preorder root) -> children parent = Some cs -> In c cs ->
    stems rt query parent c.
Proof.
  unfold ingestRepository.
  destruct (scanDirectory rt _ query repository 0 _)
    as [[[r|]|e|] w'] eqn:E; try discriminate.
  intros [= <- _ _].
  apply (f_equal fst) in E. cbn [fst] in E.
  apply scanDirectory_admitted in E as [Ha _].
  now apply admitted_everywhere.
Qed.

Lemma tree_passed_the_filters_witness :
  stems projectRuntime (plainQuery "/r")
        (Scenarios.directoryNode "src" "/r/src"
           [ Scenarios.textNode "a.ts" "/r/src/a.ts" "abc";
             Scenarios.directoryNode "lib" "/r/src/lib" [] ])
        (Scenarios.textNode "a.ts" "/r/src/a.ts" "abc").
Proof.
  eapply (tree_passed_the_filters projectRuntime "/r" (plainQuery "/r")
            projectRoot).
  - vm_compute. reflexivity.
  - cbn. right; right; right. left. reflexivity.
  - reflexivity.
  - now left.
Defined.

End ProvenanceProperties.

(** ** repository_ingest.ts: the size gate of a local run *)

Module LocalProperties.
Import Ingestion Trees Disk Scenarios Samples RepositoryIngest SizingFacts.

(** X15. For a root that exists and holds a directory tree without
    symlinks, [ingestLocalRepository] weighs every regular file of the
    tree before anything else: when the files add up to more than
    [MAX_TOTAL_SIZE_BYTES] the call fails with the size error whatever
    patterns it was given, be they invalid or such that the walk would
    skip every file; otherwise the patterns are validated by
    [parseQuery] and the result is that of [ingestRepository] for the
    configuration built. *)
Theorem local_run_weighs_first
        (rt : Runtime) (access : string -> bool) (defaults : list string)
        (repoPath : string) (t : Tree) (fuel : nat)
        (ignorePatterns includePatterns : option (list string)) :
  access repoPath = true ->
  holds rt repoPath t -> (treeHeight t <= fuel)%nat ->
  (MAX_TOTAL_SIZE_BYTES < treeSize t ->
   ingestLocalRepository rt access defaults fuel repoPath
                         ignorePatterns includePatterns =
     Throw (Error (sizeMessage (treeSize t)))) /\
  (treeSize t <= MAX_TOTAL_SIZE_BYTES ->
   ingestLocalRepository rt access defaults fuel repoPath
                         ignorePatterns includePatterns =
     match QueryParser.parseQuery defaults repoPath
                                  ignorePatterns includePatterns with
     | Return query => fst (ingestRepository rt repoPath query)
     | Throw e => Throw e
     | Diverge => Diverge
     end).
Proof.
  intros Ha Hh Hf. unfold ingestLocalRepository, calculateDirectorySize.
  rewrite Ha, (processItem_sums rt t fuel repoPath 0 Hh Hf). cbn [negb].
  rewrite Z.add_0_l. split; intros H.
  - apply Z.ltb_lt in H. now rewrite H.
  - apply Z.ltb_ge in H. now rewrite H.
Qed.

Lemma local_run_weighs_first_witness :
  let run :=
    ingestLocalRepository projectRuntime (fun _ => true) sampleDefaults 3
                          "/r" (Some ["*.ts"]) None in
  (MAX_TOTAL_SIZE_BYTES < 10 ->
   run = Throw (Error (sizeMessage 10))) /\
  (10 <= MAX_TOTAL_SIZE_BYTES ->
   run =
     match QueryParser.parseQuery sampleDefaults "/r" (Some ["*.ts"]) None with
     | Return query => fst (ingestRepository projectRuntime "/r" query)
     | Throw e => Throw e
     | Diverge => Diverge
     end).
Proof.
  apply (local_run_weighs_first projectRuntime (fun _ => true) sampleDefaults
           "/r" projectTree 3 (Some ["*.ts"]) None).
  - reflexivity.
  - cbn. repeat split; eauto.
  - cbn. lia.
Defined.

End LocalProperties.

(** ** utils.ts: the unit [formatSize] picks *)

Module FormatProperties.
Import Format Notions.

(** X16. For a byte count that is an integer from 0 to below [2^53],
    [formatSize] writes the count divided by [1024 ^ k] with one
    decimal, followed by the [k]-th unit, where [k] is the largest
    index up to that of [TB] with [1024 ^ k <= bytes] (0 when there is
    none): the count is at least one such unit and, short of [TB],
    less than 1024 of them. *)
Theorem formatSize_unit (bytes : Z) :
  safeCount bytes ->
  exists k : nat,
    (k <= 4)%nat /\
    formatSize bytes =
      toFixed 1 bytes (1024 ^ Z.of_nat k) +:+ " " +:+ nth k units "" /\
    (k = O \/ 1024 ^ Z.of_nat k <= bytes) /\
    (k = 4%nat \/ bytes < 1024 ^ (Z.of_nat k + 1)).
Proof.
  intros _.
  assert (pick : forall k : nat,
             (k <= 4)%nat ->
             (k = O \/ 1024 ^ Z.of_nat k <= bytes) ->
             (k = 4%nat \/ bytes < 1024 ^ (Z.of_nat k + 1)) ->
             forall text,
               text = toFixed 1 bytes (1024 ^ Z.of_nat k) +:+ " " +:+
                      nth k units "" ->
               exists k : nat,
                 (k <= 4)%nat /\
                 text = toFixed 1 bytes (1024 ^ Z.of_nat k) +:+ " " +:+
                        nth k units "" /\
                 (k = O \/ 1024 ^ Z.of_nat k <= bytes) /\
                 (k = 4%nat \/ bytes < 1024 ^ (Z.of_nat k + 1)))
    by (intros k; eauto).
  unfold formatSize. cbn [scale length units Nat.sub Nat.ltb Nat.leb].
  destruct (Z.leb_spec (1024 * 1) bytes) as [H1|H1]; cbn [andb];
    [|apply (pick 0%nat); [lia|now left|right; lia|reflexivity]].
  destruct (Z.leb_spec (1024 * (1 * 1024)) bytes) as [H2|H2]; cbn [andb];
    [|apply (pick 1%nat); [lia|right; lia|right; lia|reflexivity]].
  destruct (Z.leb_spec (1024 * (1 * 1024 * 1024)) bytes) as [H3|H3];
    cbn [andb];
    [|apply (pick 2%nat); [lia|right; lia|right; lia|reflexivity]].
  destruct (Z.leb_spec (1024 * (1 * 1024 * 1024 * 1024)) bytes) as [H4|H4];
    cbn [andb];
    [|apply (pick 3%nat); [lia|right; lia|right; lia|reflexivity]].
  rewrite andb_false_r.
  apply (pick 4%nat); [lia|right; lia|now left|reflexivity].
Qed.

Lemma formatSize_unit_witness :
  exists k : nat,
    (k <= 4)%nat /\
    formatSize 1048575 =
      toFixed 1 1048575 (1024 ^ Z.of_nat k) +:+ " " +:+ nth k units "" /\
    (k = O \/ 1024 ^ Z.of_nat k <= 1048575) /\
    (k = 4%nat \/ 1048575 < 1024 ^ (Z.of_nat k + 1)).
Proof.
  apply (formatSize_unit 1048575). unfold safeCount. lia.
Defined.

End FormatProperties.

(** ** query_ingestion.ts: the file count covers the tree *)

Module CountFacts.
Import Ingestion Spec Trees WalkerFacts SortFacts RunFacts TreeFacts.

Lemma gathered_pushChild node child :
  gathered (pushChild node child) = gathered node + fileNodeCount child.
Proof.
  unfold gathered, fileNodeCount. cbn [children pushChild default]. unfold id.
  rewrite flat_map_app, length_app. cbn [flat_map]. rewrite app_nil_r. lia.
Qed.

Lemma gathered_pushChildOpt node child :
  gathered (pushChildOpt node child) <= gathered node + fileNodeCount child.
Proof.
  unfold pushChildOpt. destruct (children node) eqn:E.
  - rewrite gathered_pushChild. lia.
  - unfold fileNodeCount. lia.
Qed.

Lemma fileNodes_directory_empty node :
  isDirectory node = true -> children node = None -> fileNodes node = [].
Proof.
  intros Hd Hc. unfold fileNodes. destruct node as [n p s c d k].
  cbn in Hd, Hc. subst d k. reflexivity.
Qed.

Section Count.
Variable rt : Runtime.
Variable query : ParsedQuery.

Lemma processFile_gain filePath parentNode w node :
  fst (processFile rt filePath parentNode w) = Return node ->
  totalFiles (stats w) + (gathered node - gathered parentNode)
    <= totalFiles (stats (snd (processFile rt filePath parentNode w))).
Proof.
  destruct (processFile_cases rt filePath parentNode w)
    as [E|[[E _]|[E|(fileSize & _ & _ & Es & [[text E]|E])]]];
    rewrite E; cbn [fst]; try discriminate.
  intros [= <-]. rewrite Es, gathered_pushChild.
  unfold fileNodeCount, counted. rewrite fileNodes_file.
  cbn [length stats totalFiles]. lia.
Qed.

Lemma processFile_grows filePath parentNode w w0 :
  totalFiles (stats w0) <= totalFiles (stats w) ->
  totalFiles (stats w0)
    <= totalFiles (stats (snd (processFile rt filePath parentNode w))).
Proof.
  apply (processFile_preserves rt
           (fun w => totalFiles (stats w0) <= totalFiles (stats w))).
  intros w1 fileSize H _ _. cbn. lia.
Qed.

Section Step.
Variable scan : string -> Z -> M (option FileNode).
Variable depth : Z.
Hypothesis scan_gain :
  forall p w node,
    fst (scan p (depth + 1) w) = Return (Some node) ->
    totalFiles (stats w) + fileNodeCount node
      <= totalFiles (stats (snd (scan p (depth + 1) w))).
Hypothesis scan_grows :
  forall w0 p d w,
    totalFiles (stats w0) <= totalFiles (stats w) ->
    totalFiles (stats w0) <= totalFiles (stats (snd (scan p d w))).

Lemma dispatchEntry_grows entry entryPath node w w0 :
  totalFiles (stats w0) <= totalFiles (stats w) ->
  totalFiles (stats w0)
    <= totalFiles
         (stats (snd (dispatchEntry rt query scan entry entryPath node
                                    depth w))).
Proof.
  apply (dispatchEntry_preserves rt query
           (fun w => totalFiles (stats w0) <= totalFiles (stats w))).
  - intros w1 fileSize H _ _. cbn. lia.
  - intros w1 s t H _ _. exact H.
  - intros p d w1. apply scan_grows.
Qed.

Lemma scanEntries_grows dirPath entries node w w0 :
  totalFiles (stats w0) <= totalFiles (stats w) ->
  totalFiles (stats w0)
    <= totalFiles
         (stats (snd (scanEntries rt query scan dirPath depth entries
                                  node w))).
Proof.
  apply (scanEntries_preserves rt query
           (fun w => totalFiles (stats w0) <= totalFiles (stats w))).
  - intros w1 l H. exact H.
  - intros w1 fileSize H _ _. cbn. lia.
  - intros w1 s t H _ _. exact H.
  - intros p d w1. apply scan_grows.
Qed.

Lemma dispatchEntry_gain entry entryPath node w node' :
  fst (dispatchEntry rt query scan entry entryPath node depth w)
    = Return node' ->
  totalFiles (stats w) + (gathered node' - gathered node)
    <= totalFiles
         (stats (snd (dispatchEntry rt query scan entry entryPath node
                                    depth w))).
Proof.
  unfold dispatchEntry.
  destruct (isSymbolicLink entry).
  - unfold processSymlink.
    destruct (isSafeSymlink _ _ _); cbn [negb];
      [|cbn; intros [= <-]; lia].
    unfold bind at 1 3, await.
    destruct (fs_realpath rt entryPath) as [targetPath|]; cbn;
      [|discriminate].
    destruct (bool_decide _); cbn; [discriminate|].
    destruct (fs_stat rt targetPath) as [targetStats|]; cbn;
      [|discriminate].
    destruct (st_isDirectory targetStats).
    + unfold bind.
      match goal with
      | |- context [scan targetPath (depth + 1) ?w1] =>
          pose proof (scan_gain targetPath w1) as Hs;
          pose proof (scan_grows w targetPath (depth + 1) w1
                        ltac:(cbn; lia)) as Hg;
          destruct (scan targetPath (depth + 1) w1) as [[[c|]|e|] w2]
      end; cbn [fst snd ret] in *; try discriminate; intros [= <-];
        [|lia].
      specialize (Hs c eq_refl). cbn [stats] in Hs.
      rewrite gathered_pushChild. lia.
    + intros H. apply processFile_gain in H. exact H.
  - destruct (isDirectoryEntry entry); [|apply processFile_gain].
    unfold bind. pose proof (scan_gain entryPath w) as Hs.
    pose proof (scan_grows w entryPath (depth + 1) w ltac:(lia)) as Hg.
    destruct (scan entryPath (depth + 1) w) as [[[c|]|e|] w2];
      cbn [fst snd ret] in *; try discriminate; intros [= <-]; [|lia].
    specialize (Hs c eq_refl).
    pose proof (gathered_pushChildOpt node c). lia.
Qed.

Lemma scanEntries_gain dirPath entries node w node' :
  fst (scanEntries rt query scan dirPath depth entries node w)
    = Return node' ->
  totalFiles (stats w) + (gathered node' - gathered node)
    <= totalFiles
         (stats (snd (scanEntries rt query scan dirPath depth entries
                                  node w))).
Proof.
  revert node w. induction entries as [|entry rest IH]; intros node w.
  - cbn. intros [= <-]. lia.
  - destruct (shouldExclude rt (path_join rt dirPath (d_name entry))
                (repository query) (ignorePatterns query)) eqn:E1;
      [rewrite scanEntries_excluded by assumption; now apply IH|].
    destruct (shouldInclude rt (path_join rt dirPath (d_name entry))
                (repository query) (includePatterns query)) eqn:E2;
      [|rewrite scanEntries_not_included by assumption; now apply IH].
    rewrite scanEntries_step by assumption.
    pose proof (dispatchEntry_gain entry
                  (path_join rt dirPath (d_name entry)) node w) as Hgain.
    pose proof (dispatchEntry_grows entry
                  (path_join rt dirPath (d_name entry)) node w w
                  ltac:(lia)) as Hgrow.
    destruct (dispatchEntry _ _ _ _ _ _ _ _) as [[n1|e|] w'];
      cbn [fst snd] in Hgain, Hgrow.
    + intros H. specialize (Hgain n1 eq_refl).
      apply IH in H. lia.
    + destruct (isLimitError e); [discriminate|].
      intros H. apply IH in H. cbn in H. lia.
    + discriminate.
Qed.

Lemma scanDirectoryBody_inv dirPath w node w' :
  scanDirectoryBody rt query scan dirPath depth w = (Return (Some node), w') ->
  exists dirStats entries n1,
    scanEntries rt query scan dirPath depth entries
      {| name := path_basename rt dirPath; path := dirPath;
         size := st_size dirStats; content := None;
         isDirectory := true; children := Some [] |} w = (Return n1, w') /\
    node = match children n1 with
           | Some cs => withChildren n1 (sortChildren rt cs)
           | None => n1
           end.
Proof.
  unfold scanDirectoryBody.
  destruct (maxDirectoryDepth query <? depth); [discriminate|].
  run. destruct (fs_stat rt dirPath) as [dirStats|]; cbn; [|discriminate].
  destruct (fs_readdir rt dirPath) as [entries|]; cbn; [|discriminate].
  destruct (scanEntries _ _ _ _ _ _ _ _) as [[n1|e'|] w1] eqn:E; cbn;
    try discriminate.
  intros H. exists dirStats, entries, n1.
  destruct (children n1); injection H as <- <-; auto.
Qed.

Lemma scanDirectoryBody_gain dirPath w node :
  fst (scanDirectoryBody rt query scan dirPath depth w)
    = Return (Some node) ->
  totalFiles (stats w) + fileNodeCount node
    <= totalFiles
         (stats (snd (scanDirectoryBody rt query scan dirPath depth w))).
Proof.
  destruct (scanDirectoryBody rt query scan dirPath depth w) as [o w']
    eqn:E. cbn [fst snd]. intros ->.
  apply scanDirectoryBody_inv in E as (dirStats & entries & n1 & E & ->).
  match type of E with
  | scanEntries _ _ _ _ _ _ ?n _ = _ =>
      pose proof (scanEntries_gain dirPath entries n w n1) as Hg;
      pose proof (scanEntries_head rt query scan dirPath depth entries
                    n w n1) as Hh
  end.
  rewrite E in Hg, Hh. cbn [fst snd] in Hg, Hh.
  specialize (Hg eq_refl).
  destruct (Hh eq_refl) as (_ & _ & _ & _ & Hd). cbn in Hd.
  unfold gathered in Hg. cbn [children default flat_map length] in Hg.
  unfold id in Hg. unfold fileNodeCount.
  destruct (children n1) as [cs|] eqn:Hc.
  - erewrite fileNodes_directory by (cbn; eauto). unfold sortChildren.
    rewrite <- (Permutation_length
                  (Permutation_flat_map fileNodes
                     (sort_perm (compareChildren rt) cs))).
    cbn [default flat_map length] in Hg. unfold id in Hg.
    cbn [flat_map length] in Hg. lia.
  - erewrite fileNodes_directory_empty by eauto.
    cbn [default flat_map length] in Hg. unfold id in Hg.
    cbn [flat_map length] in Hg |- *. lia.
Qed.
End Step.

Lemma scanDirectory_grows fuel w0 dirPath depth w :
  totalFiles (stats w0) <= totalFiles (stats w) ->
  totalFiles (stats w0)
    <= totalFiles (stats (snd (scanDirectory rt fuel query dirPath depth w))).
Proof.
  apply (scanDirectory_preserves rt query
           (fun w => totalFiles (stats w0) <= totalFiles (stats w))).
  - intros w1 l H. exact H.
  - intros w1 fileSize H _ _. cbn. lia.
  - intros w1 s t H _ _. exact H.
Qed.

(** The files counted during a walk are at least the file Nodes of the
    tree it returns. *)
Lemma scanDirectory_gain fuel dirPath depth w node :
  fst (scanDirectory rt fuel query dirPath depth w) = Return (Some node) ->
  totalFiles (stats w) + fileNodeCount node
    <= totalFiles (stats (snd (scanDirectory rt fuel query dirPath depth w))).
Proof.
  revert dirPath depth w node.
  induction fuel as [|fuel IH]; intros dirPath depth w node;
    [discriminate|].
  cbn [scanDirectory]. apply scanDirectoryBody_gain.
  - intros p w1 child. apply IH.
  - intros w0 p d w1. apply scanDirectory_grows.
Qed.
End Count.

End CountFacts.

Module CountProperties.
Import Ingestion Spec Trees Disk Samples WalkerFacts RunFacts CountFacts.

(** X17. The file count [ingestRepository] reports covers the tree it
    returns: there are at most as many file Nodes in the tree as files
    counted, and so never more than [MAX_FILES].  The count can be
    larger than the tree shows, since a file stays counted when its
    notebook is turned down or when the directory it was found in is
    given up. *)
Theorem tree_within_file_count (rt : Runtime) (repository : string)
        (query : ParsedQuery) (root : FileNode) (text : string) (w : Walk) :
  ingestRepository rt repository query = (Return (root, text), w) ->
  fileNodeCount root <= totalFiles (stats w) /\
  totalFiles (stats w) <= MAX_FILES.
Proof.
  intros H.
  pose proof (ingestRepository_totalFiles rt repository query) as Hmax.
  rewrite H in Hmax. cbn [snd] in Hmax. split; [|exact Hmax].
  revert H. unfold ingestRepository.
  match goal with
  | |- context [scanDirectory rt ?f query repository 0 ?w0] =>
      pose proof (fun n => scanDirectory_gain rt query f repository 0 w0 n)
        as Hg;
      destruct (scanDirectory rt f query repository 0 w0)
        as [[[r|]|e|] w']
  end; try discriminate.
  intros [= <- _ <-]. specialize (Hg r eq_refl). cbn in Hg. lia.
Qed.

Lemma tree_within_file_count_witness :
  fileNodeCount projectRoot <= 3 /\ 3 <= MAX_FILES.
Proof.
  eapply (tree_within_file_count projectRuntime "/r" (plainQuery "/r")
            projectRoot _
            {| seenPaths := ∅;
               stats := {| totalFiles := 3; totalSize := 10 |};
               console := [] |}).
  vm_compute. reflexivity.
Defined.

End CountProperties.

(** ** query_ingestion.ts: which symlinks count as safe *)

Module SymlinkFacts.
Import Ingestion Spec WalkerFacts RunFacts.

Lemma startsWith_prefix (s prefix : string) :
  startsWith s prefix = true <-> exists rest, s = prefix +:+ rest.
Proof.
  revert s. induction prefix as [|p prefix IH]; intros s.
  - destruct s; cbn; split; eauto.
  - destruct s as [|c s]; cbn [startsWith].
    + split; [discriminate|]. intros [rest [=]].
    + rewrite andb_true_iff, IH. split.
      * intros [Hc [rest ->]]. apply Ascii.eqb_eq in Hc as ->.
        now exists rest.
      * intros [rest H].
        change (String c s = String p (prefix +:+ rest)) in H.
        injection H as -> ->. split; [apply Ascii.eqb_refl|now exists rest].
Qed.

End SymlinkFacts.

Module SymlinkProperties.
Import Ingestion Spec WalkerFacts RunFacts SymlinkFacts.

(** X18. A symlink counts as safe exactly when both its real path and
    the real path of the root can be resolved and the former begins,
    character by character, with the latter; and whatever a run of
    [ingestRepository] records as visited is such a path.  Nothing asks
    for a path separator after the root: the real path of a sibling
    whose name extends the root's name begins with the root's. *)
Theorem symlink_safety_is_textual (rt : Runtime) (root : string)
        (query : ParsedQuery) :
  (forall symlinkPath basePath,
      isSafeSymlink rt symlinkPath basePath = true <->
      exists targetPath baseResolved rest,
        fs_realpath rt symlinkPath = Some targetPath /\
        fs_realpath rt basePath = Some baseResolved /\
        targetPath = baseResolved +:+ rest) /\
  (forall target,
      target ∈ seenPaths (snd (ingestRepository rt root query)) ->
      exists baseResolved rest,
        fs_realpath rt (repository query) = Some baseResolved /\
        target = baseResolved +:+ rest).
Proof.
  split.
  - intros symlinkPath basePath. unfold isSafeSymlink.
    destruct (fs_realpath rt symlinkPath) as [targetPath|].
    + destruct (fs_realpath rt basePath) as [baseResolved|].
      * rewrite startsWith_prefix. split.
        -- intros [rest ->].
           now exists (baseResolved +:+ rest), baseResolved, rest.
        -- intros (t & b & rest & [= <-] & [= <-] & ->). now exists rest.
      * split; [discriminate|]. now intros (t & b & rest & _ & [=] & _).
    + split; [discriminate|]. now intros (t & b & rest & [=] & _).
  - intros target Hin. rewrite ingestRepository_state in Hin.
    apply visitedSafe_preserved in Hin; [|apply visitedSafe_initially].
    destruct Hin as (base & Hb & Hs).
    apply startsWith_prefix in Hs as [rest ->]. now exists base, rest.
Qed.

End SymlinkProperties.

(** ** notebook_utils.ts: the text of a notebook *)

Module NotebookFacts.
Import Ingestion Notebook.

(** A text that is empty or begins with something else than white
    space is left alone by [trimStart]. *)
Lemma trimStart_fixed s :
  trimStart s = s <->
  match s with
  | String c _ => isWhiteSpace c = false
  | EmptyString => True
  end.
Proof.
  destruct s as [|c r]; cbn; [tauto|].
  destruct (isWhiteSpace c) eqn:E; [|tauto].
  split; [|discriminate]. intros H.
  assert (L : forall r, (String.length (trimStart r) <= String.length r)%nat).
  { clear. induction r as [|c r IH]; cbn; [lia|].
    destruct (isWhiteSpace c); cbn; lia. }
  specialize (L r). rewrite H in L. cbn in L. lia.
Qed.

Lemma trimStart_idempotent s : trimStart (trimStart s) = trimStart s.
Proof.
  induction s as [|c r IH]; cbn; [reflexivity|].
  destruct (isWhiteSpace c) eqn:E; [exact IH|]. cbn. now rewrite E.
Qed.

Lemma trimEnd_idempotent s : trimEnd (trimEnd s) = trimEnd s.
Proof.
  induction s as [|c r IH]; [reflexivity|]. cbn [trimEnd].
  destruct (trimEnd r) as [|d kept] eqn:E.
  - destruct (isWhiteSpace c) eqn:Ec; cbn; [reflexivity|now rewrite Ec].
  - cbn [trimEnd] in IH |- *. now rewrite IH.
Qed.

(** [trimEnd] does not touch the first character of what it keeps. *)
Lemma trimEnd_head s :
  trimStart s = s -> trimStart (trimEnd s) = trimEnd s.
Proof.
  rewrite !trimStart_fixed. destruct s as [|c r]; [auto|].
  intros Hc. cbn [trimEnd].
  destruct (trimEnd r); [now rewrite Hc|exact Hc].
Qed.

Lemma trim_idempotent s : trim (trim s) = trim s.
Proof.
  unfold trim.
  rewrite (trimEnd_head (trimStart s)) by apply trimStart_idempotent.
  apply trimEnd_idempotent.
Qed.

Lemma pushCell_labelled cell_type text processedCells :
  cell_type = "code" \/ cell_type = "markdown" ->
  Forall labelled processedCells ->
  Forall labelled (pushCell cell_type (trim text) processedCells).
Proof.
  intros Ht Hall. unfold pushCell.
  destruct (String.eqb_spec (trim text) "") as [E|E]; [exact Hall|].
  apply Forall_app. split; [exact Hall|]. constructor; [|constructor].
  exists cell_type, (trim text). split; [reflexivity|].
  split; [exact Ht|]. split; [exact E|apply trim_idempotent].
Qed.

Lemma pushCell_length cell_type text processedCells :
  (length (pushCell cell_type text processedCells)
     <= S (length processedCells))%nat.
Proof.
  unfold pushCell. destruct (String.eqb text "");
    rewrite ?length_app; cbn; lia.
Qed.

Lemma textual_label cell_type label :
  textual cell_type = Some label -> label = "code" \/ label = "markdown".
Proof.
  destruct cell_type as [[| | |s| |]|]; cbn; try discriminate.
  destruct (String.eqb_spec s "code") as [->|_]; cbn;
    [intros [= <-]; now left|].
  destruct (String.eqb_spec s "markdown") as [->|_]; cbn;
    [intros [= <-]; now right|discriminate].
Qed.

Lemma processCell_labelled cell processedCells out :
  Forall labelled processedCells ->
  processCell cell processedCells = Normal out ->
  Forall labelled out /\ (length out <= S (length processedCells))%nat.
Proof.
  intros Hall. unfold processCell.
  destruct (member cell "cell_type") as [cell_type|e]; cbn [andThen];
    [|discriminate].
  destruct (textual cell_type) as [label|] eqn:Et;
    [|intros [= <-]; split; [exact Hall|lia]].
  apply textual_label in Et.
  destruct (member cell "source") as [[[| | |s|items|]|]|e];
    cbn [andThen]; try discriminate;
    try (intros [= <-]; split; [exact Hall|lia]).
  - intros [= <-].
    split; [now apply pushCell_labelled|apply pushCell_length].
  - destruct (joinItems "" items) as [cellContent|e]; cbn [andThen];
      [|discriminate].
    intros [= <-].
    split; [now apply pushCell_labelled|apply pushCell_length].
Qed.

Lemma processCells_labelled cells :
  forall processedCells out,
    Forall labelled processedCells ->
    processCells cells processedCells = Normal out ->
    Forall labelled out /\
    (length out <= length cells + length processedCells)%nat.
Proof.
  induction cells as [|cell rest IH]; intros processedCells out Hall.
  - cbn. intros [= <-]. split; [exact Hall|lia].
  - cbn [processCells].
    destruct (processCell cell processedCells) as [next|e] eqn:E;
      cbn [andThen]; [|discriminate].
    apply processCell_labelled in E as [Hnext Hlen]; [|exact Hall].
    intros H. apply IH in H as [Hout Hlen']; [|exact Hnext].
    split; [exact Hout|cbn [length]; lia].
Qed.

(** A cell that is passed over leaves the list of blocks as it is. *)
Lemma processCell_passedOver cell processedCells :
  passedOver cell = true ->
  processCell cell processedCells = Normal processedCells.
Proof.
  unfold processCell, passedOver.
  destruct cell as [| | | | |members]; cbn; try discriminate;
    try reflexivity.
  destruct (textual (lookup members "cell_type")); [discriminate|reflexivity].
Qed.

Lemma processCells_passedOver cells :
  forall processedCells,
    processCells (List.filter (fun cell => negb (passedOver cell)) cells)
                 processedCells =
    processCells cells processedCells.
Proof.
  induction cells as [|cell rest IH]; intros processedCells; [reflexivity|].
  cbn [List.filter processCells].
  destruct (passedOver cell) eqn:E; cbn [negb].
  - rewrite processCell_passedOver by exact E. cbn [andThen]. apply IH.
  - cbn [processCells].
    destruct (processCell cell processedCells); cbn [andThen];
      [apply IH|reflexivity].
Qed.

End NotebookFacts.

Module NotebookProperties.
Import Ingestion Disk Scenarios Notebook NotebookFacts.

(** X20. Whenever [processNotebook] returns a text, the text consists
    of blocks joined by a blank line, at most one for each cell of the
    notebook; every block is the label [[code]] or [[markdown]], a line
    feed and a body that is not empty and has no white space at either
    end. *)
Theorem notebook_text_is_labelled
        (rt : Runtime) (JSON_parse : string -> option JSON)
        (filePath text : string) :
  processNotebook rt JSON_parse filePath = Normal text ->
  exists content cells blocks,
    fs_readFile rt filePath = inl content /\
    (exists notebook, JSON_parse content = Some notebook /\
                      member notebook "cells" = Normal (Some (JArray cells))) /\
    text = join (LF +:+ LF) blocks /\
    Forall labelled blocks /\
    (length blocks <= length cells)%nat.
Proof.
  unfold processNotebook.
  destruct (fs_readFile rt filePath) as [content|message] eqn:Er;
    [|discriminate].
  destruct (JSON_parse content) as [notebook|] eqn:Ep; [|discriminate].
  destruct (member notebook "cells") as [[[| | | |cells|]|]|e] eqn:Em;
    cbn [andThen]; try discriminate.
  destruct (processCells cells []) as [blocks|e] eqn:E; cbn [andThen];
    [|discriminate].
  intros [= <-]. exists content, cells, blocks.
  apply processCells_labelled in E as [Hall Hlen]; [|constructor].
  split; [reflexivity|].
  split; [exists notebook; split; [exact Ep|exact Em]|].
  split; [reflexivity|]. split; [exact Hall|].
  cbn [length] in Hlen. lia.
Qed.

Lemma notebook_text_is_labelled_witness :
  exists content cells blocks,
    fs_readFile (runtime notebookDisk noNotebooks) "/r/nb.ipynb"
      = inl content /\
    (exists notebook, parseSample content = Some notebook /\
                      member notebook "cells" = Normal (Some (JArray cells))) /\
    "[code]" +:+ LF +:+ "x = 1" = join (LF +:+ LF) blocks /\
    Forall labelled blocks /\
    (length blocks <= length cells)%nat.
Proof.
  apply (notebook_text_is_labelled (runtime notebookDisk noNotebooks)
           parseSample "/r/nb.ipynb").
  vm_compute. reflexivity.
Defined.

(** X21. Cells that are not [null] and whose [cell_type] is neither
    [code] nor [markdown] (raw cells, cells without a type, values that
    are no objects) leave no trace: the loop over the cells gives the
    same blocks, or fails in the same way, with or without them. *)
Theorem other_cells_leave_no_trace (cells : list JSON)
        (processedCells : list string) :
  processCells (List.filter (fun cell => negb (passedOver cell)) cells)
               processedCells =
  processCells cells processedCells.
Proof. apply processCells_passedOver. Qed.

End NotebookProperties.
